(** * go-musicfox-ha: the HTTP remote control of the player

    A shallow embedding of [http_control.go] (package [remote_control]):
    the command endpoint, the status endpoint, the server-sent-events
    endpoint and the broadcast publisher, with the properties of the
    specification stated over them.

    The request/response handlers are written in a small state monad over
    the response writer, the player behind the [PlayerController]
    interface and the request body.  The streaming endpoint and the
    publisher share the subscriber registry under a mutex; they are
    modelled as goroutines of an interleaving step function, one step per
    statement that touches shared state. *)

From Stdlib Require Import Ascii.
From stdpp Require Import gmap strings list fin_maps pretty.

Set Default Proof Using "Type".
Set Warnings "-clear-no-such-hyp".

(* ===================================================================== *)
(** ** Strings and the literals of the source                            *)
(* ===================================================================== *)

(** The double-quote character, and a string between double quotes. *)
Definition dq : string := String "034"%char EmptyString.
Definition nl : string := String "010"%char EmptyString.
Definition quoted (s : string) : string := dq +:+ s +:+ dq.

(** Go's [error] values are observed only through [err.Error()]. *)
Definition error := string.

(** A Go result pair [(v, err)]: either the value or a non-nil error. *)
Inductive result (A : Type) : Type :=
| Ok (a : A)
| Err (e : error).
Arguments Ok {A} a.
Arguments Err {A} e.

(** The raw literal [{"status": "ok"}] (one space after the colon). *)
Definition ok_body : string :=
  "{" +:+ quoted "status" +:+ ": " +:+ quoted "ok" +:+ "}".

(** [fmt.Sprintf(`{"status": "error", "message": "%s"}`, msg)]: the text
    is spliced in between the quotes as it is, nothing is escaped. *)
Definition Sprintf_error (msg : string) : string :=
  "{" +:+ quoted "status" +:+ ": " +:+ quoted "error" +:+ ", "
      +:+ quoted "message" +:+ ": " +:+ dq +:+ msg +:+ dq +:+ "}".

(** [fmt.Fprintf(w, "data: %s\n\n", data)]: one event frame. *)
Definition frame (data : string) : string :=
  "data: " +:+ data +:+ nl +:+ nl.

(** HTTP status codes and methods of [net/http] used by the source. *)
Definition StatusOK : nat := 200.
Definition StatusBadRequest : nat := 400.
Definition StatusMethodNotAllowed : nat := 405.
Definition StatusInternalServerError : nat := 500.
Definition MethodGet : string := "GET".
Definition MethodPost : string := "POST".

(* ===================================================================== *)
(** ** Data model                                                        *)
(* ===================================================================== *)

(** Modelled from the spec: the constants of [types.Mode] (package
    [internal/types], not part of this repository's sources) that the
    command endpoint names; the spec lists these five play modes. *)
Inductive Mode : Set :=
| PmOrdered
| PmListLoop
| PmSingleLoop
| PmListRandom
| PmInfRandom.

#[global] Instance Mode_eq_dec : EqDecision Mode.
Proof. solve_decision. Defined.

(** [type PlayerStatus struct]; [uint8] and [time.Duration] as integers. *)
Record PlayerStatus : Type := {
  SongTitle : string;
  Artist : string;
  IsPlaying : bool;
  PlayMode : Z;
  SongDuration : Z;
  PlaybackPlayed : Z;
  Lyric : string;
  IsLoggedIn : bool
}.

(** [type command struct]. *)
Record command : Type := {
  Command : string;
  Args : list string
}.

(** [type PlayerController interface]: every method acts on the state [P]
    of the player behind the interface; the two methods that return
    [error] give [None] for [nil]. *)
Record PlayerController (P : Type) : Type := {
  SetPlayMode : Mode -> P -> option error * P;
  Play : P -> P;
  Pause : P -> P;
  Next : P -> P;
  Previous : P -> P;
  NextPlayMode : P -> P;
  ActivateIntelligentMode : P -> option error * P;
  GetStatus : P -> PlayerStatus * P;
  Rerender : P -> P
}.
Arguments SetPlayMode {P} _ _ _.
Arguments Play {P} _ _.
Arguments Pause {P} _ _.
Arguments Next {P} _ _.
Arguments Previous {P} _ _.
Arguments NextPlayMode {P} _ _.
Arguments ActivateIntelligentMode {P} _ _.
Arguments GetStatus {P} _ _.
Arguments Rerender {P} _ _.

(** The calls made through the interface, in the order they are made. *)
Inductive call : Set :=
| CallSetPlayMode (m : Mode)
| CallPlay
| CallPause
| CallNext
| CallPrevious
| CallNextPlayMode
| CallActivateIntelligentMode
| CallGetStatus
| CallRerender.

(* ===================================================================== *)
(** ** [http.ResponseWriter]                                             *)
(* ===================================================================== *)

Module RW.

(** What a handler can observe and cause on its response: the header
    map, the status line once written, the chunks written and not yet
    flushed, and the chunks already pushed to the connection.
    [flusher] tells whether the writer implements [http.Flusher]. *)
Record t : Type := mk {
  header : gmap string string;
  status : option nat;
  pending : list string;
  flushed : list string;
  flusher : bool
}.

Definition fresh (fl : bool) : t := mk ∅ None [] [] fl.

(** [w.Header().Set(k, v)] *)
Definition Header_Set (k v : string) (w : t) : t :=
  mk (<[k := v]> (header w)) (status w) (pending w) (flushed w) (flusher w).

(** [w.WriteHeader(code)]: only the first call sets the status line. *)
Definition WriteHeader (code : nat) (w : t) : t :=
  match status w with
  | Some _ => w
  | None => mk (header w) (Some code) (pending w) (flushed w) (flusher w)
  end.

(** [w.Write(b)]: writes the status line 200 first if none was written. *)
Definition Write (b : string) (w : t) : t :=
  let w' := WriteHeader StatusOK w in
  mk (header w') (status w') (pending w' ++ [b]) (flushed w') (flusher w').

(** [flusher.Flush()]: everything written so far goes to the client. *)
Definition Flush (w : t) : t :=
  let w' := WriteHeader StatusOK w in
  mk (header w') (status w') [] (flushed w' ++ pending w') (flusher w').

(** [http.Error(w, msg, code)] of net/http. *)
Definition Error (msg : string) (code : nat) (w : t) : t :=
  Write (msg +:+ nl)
    (WriteHeader code
       (Header_Set "X-Content-Type-Options" "nosniff"
          (Header_Set "Content-Type" "text/plain; charset=utf-8" w))).

(** Every chunk the handler wrote, in order. *)
Definition chunks (w : t) : list string := flushed w ++ pending w.

(** The response body as one string. *)
Definition body (w : t) : string := foldr String.append EmptyString (chunks w).

End RW.

(* ===================================================================== *)
(** ** The request/response handlers                                     *)
(* ===================================================================== *)

(** The part of [*http.Request] the two handlers read. *)
Record Request : Type := {
  Method : string;
  Body : string
}.

Section Handlers.

Context {P : Type}.

(** [c.playerController] *)
Variable playerController : PlayerController P.

(** [json.Marshal] at type [PlayerStatus] and
    [json.NewDecoder(body).Decode(&cmd)] at type [command], of the
    standard library's encoding/json. *)
Variable json_Marshal : PlayerStatus -> result string.
Variable json_Decode : string -> result command.

(** What a handler invocation acts on. [calls] logs the interface calls
    (latest last); [bodyClosed] is set by [r.Body.Close()]. *)
Record world : Type := mkWorld {
  player : P;
  calls : list call;
  w : RW.t;
  bodyClosed : bool
}.

Definition M (A : Type) : Type := world -> A * world.

#[local] Instance M_ret : MRet M := fun A a s => (a, s).
#[local] Instance M_bind : MBind M :=
  fun A B k m s => let (a, s') := m s in k a s'.

Definition on_w (f : RW.t -> RW.t) : M unit :=
  fun s => (tt, mkWorld (player s) (calls s) (f (w s)) (bodyClosed s)).

Definition WriteHeader (code : nat) : M unit := on_w (RW.WriteHeader code).
Definition Write (b : string) : M unit := on_w (RW.Write b).
Definition Header_Set (k v : string) : M unit := on_w (RW.Header_Set k v).

(** [r.Body.Close()] *)
Definition Body_Close : M unit :=
  fun s => (tt, mkWorld (player s) (calls s) (w s) true).

(** A call through the interface: run the method on the player and log it. *)
Definition invoke {A} (c : call) (f : P -> A * P) : M A :=
  fun s => let (a, p') := f (player s) in
           (a, mkWorld p' (calls s ++ [c]) (w s) (bodyClosed s)).

Definition invoke_ (c : call) (f : P -> P) : M unit :=
  invoke c (fun p => (tt, f p)).

(** [func (c *HTTPController) statusHandler] *)
Definition statusHandler (r : Request) : M unit :=
  if negb (String.eqb (Method r) MethodGet) then
    WriteHeader StatusMethodNotAllowed
  else
    st ← invoke CallGetStatus (GetStatus playerController);
    match json_Marshal st with
    | Err e =>
        WriteHeader StatusInternalServerError ;;
        Write (Sprintf_error e)
    | Ok resp =>
        Header_Set "Content-Type" "application/json" ;;
        WriteHeader StatusOK ;;
        Write resp
    end.

(** The inner [switch cmd.Args[0]] of [set_play_mode]. *)
Definition parse_mode (a : string) : option Mode :=
  if String.eqb a "ordered" then Some PmOrdered
  else if String.eqb a "list_loop" then Some PmListLoop
  else if String.eqb a "single_loop" then Some PmSingleLoop
  else if String.eqb a "list_random" then Some PmListRandom
  else if String.eqb a "inf_random" then Some PmInfRandom
  else None.

Definition reply_ok : M unit :=
  WriteHeader StatusOK ;; Write ok_body.

Definition reply_error (code : nat) (msg : string) : M unit :=
  WriteHeader code ;; Write (Sprintf_error msg).

(** [switch cmd.Command { ... }] *)
Definition dispatch (cmd : command) : M unit :=
  if String.eqb (Command cmd) "set_play_mode" then
    match Args cmd with
    | [a] =>
        match parse_mode a with
        | None => reply_error StatusBadRequest "invalid play mode"
        | Some mode =>
            err ← invoke (CallSetPlayMode mode)
                    (SetPlayMode playerController mode);
            match err with
            | Some e => reply_error StatusInternalServerError e
            | None =>
                invoke_ CallRerender (Rerender playerController) ;;
                reply_ok
            end
        end
    | _ => reply_error StatusBadRequest "invalid args"
    end
  else if String.eqb (Command cmd) "play" then
    invoke_ CallPlay (Play playerController) ;; reply_ok
  else if String.eqb (Command cmd) "pause" then
    invoke_ CallPause (Pause playerController) ;; reply_ok
  else if String.eqb (Command cmd) "next" then
    invoke_ CallNext (Next playerController) ;; reply_ok
  else if String.eqb (Command cmd) "previous" then
    invoke_ CallPrevious (Previous playerController) ;; reply_ok
  else if String.eqb (Command cmd) "next_play_mode" then
    invoke_ CallNextPlayMode (NextPlayMode playerController) ;; reply_ok
  else if String.eqb (Command cmd) "activate_intelligent_mode" then
    err ← invoke CallActivateIntelligentMode
            (ActivateIntelligentMode playerController);
    match err with
    | Some e => reply_error StatusInternalServerError e
    | None => reply_ok
    end
  else
    reply_error StatusBadRequest "unknown command".

(** [func (c *HTTPController) commandHandler]. The [defer
    r.Body.Close()] statement sits after the decode check, so the close
    runs when the function returns from any point after it. *)
Definition commandHandler (r : Request) : M unit :=
  if negb (String.eqb (Method r) MethodPost) then
    WriteHeader StatusMethodNotAllowed
  else
    match json_Decode (Body r) with
    | Err e =>
        WriteHeader StatusBadRequest ;;
        Write (Sprintf_error e)
    | Ok cmd =>
        dispatch cmd ;;
        Body_Close
    end.

(** The world a handler starts in: nothing written, nothing called. *)
Definition start (p : P) (fl : bool) : world :=
  mkWorld p [] (RW.fresh fl) false.

(** The world after the command endpoint served [r] on a fresh response. *)
Definition command_served (r : Request) (p : P) (fl : bool) : world :=
  (commandHandler r (start p fl)).2.

(** The world after the status endpoint served [r] on a fresh response. *)
Definition status_served (r : Request) (p : P) (fl : bool) : world :=
  (statusHandler r (start p fl)).2.

End Handlers.

(** The five mode names of the source with the constants they select. *)
Definition mode_names : list (string * Mode) :=
  [("ordered", PmOrdered); ("list_loop", PmListLoop);
   ("single_loop", PmSingleLoop); ("list_random", PmListRandom);
   ("inf_random", PmInfRandom)].

(* ===================================================================== *)
(** ** Channels                                                          *)
(* ===================================================================== *)

Module Chan.

(** A [chan string]: the queued values (oldest first), the capacity
    given to [make], and whether [close] was called on it. *)
Record t : Type := mk {
  buf : list string;
  cap : nat;
  closed : bool
}.

(** [make(chan string, n)] *)
Definition make (n : nat) : t := mk [] n false.

(** The outcome of [select { case ch <- v: default: }]. *)
Inductive offered : Type :=
| Sent (c : t)
| Full
| SendOnClosed.

(** A send on a closed channel panics, also inside a [select]; with
    room in the buffer the send proceeds; otherwise [default] runs. *)
Definition offer (v : string) (c : t) : offered :=
  if closed c then SendOnClosed
  else if decide (length (buf c) < cap c)
       then Sent (mk (buf c ++ [v]) (cap c) false)
       else Full.

(** [v := <-ch] when it can proceed: the oldest queued value, or the
    zero value from a closed and drained channel. [None]: it blocks. *)
Definition recv (c : t) : option (string * t) :=
  match buf c with
  | v :: rest => Some (v, mk rest (cap c) (closed c))
  | [] => if closed c then Some (EmptyString, c) else None
  end.

(** [close(ch)]; [None] is the panic of closing a closed channel. *)
Definition close (c : t) : option t :=
  if closed c then None else Some (mk (buf c) (cap c) true).

End Chan.

(* ===================================================================== *)
(** ** The controller as a system of goroutines                          *)
(* ===================================================================== *)

(** Channels are identified by their address. *)
Abbreviation chan_id := nat (only parsing).

(** Where an [sseHandler] invocation stands; [ch] is its [clientChan]. *)
Inductive sse_pc : Type :=
| SseEntry                         (* lines 88-93 *)
| SseRegLock (ch : chan_id)        (* line 94 *)
| SseRegister (ch : chan_id)       (* line 95 *)
| SseRegUnlock (ch : chan_id)      (* line 96 *)
| SseCheckFlusher (ch : chan_id)   (* lines 105-109 *)
| SseInitial (ch : chan_id)        (* lines 112-115 *)
| SseLoop (ch : chan_id)           (* lines 117-125 *)
| SseDeferLock (ch : chan_id)      (* line 99 *)
| SseDeferDelete (ch : chan_id)    (* line 100 *)
| SseDeferUnlock (ch : chan_id)    (* line 101 *)
| SseDeferClose (ch : chan_id)     (* line 102 *)
| SseReturned (ch : chan_id).

(** Where a [BroadcastStatus] invocation stands; [todo] holds the keys
    of the [range] over [c.sseClients] not visited yet. *)
Inductive pub_pc : Type :=
| PubLock                                        (* line 69 *)
| PubMarshal                                     (* lines 72-76 *)
| PubRange (data : string) (todo : gset chan_id) (* lines 78-84 *)
| PubUnlock                                      (* line 70, deferred *)
| PubReturned.

Inductive goroutine : Type :=
| GSse (r : Request) (done : bool) (w : RW.t) (pc : sse_pc)
| GPub (status : PlayerStatus) (pc : pub_pc).

(** What moves the system: the environment starts handlers and
    publishers, cancels request contexts and changes the player; the
    scheduler lets a goroutine run its next statement. [Visit], [Recv]
    and [Quit] resolve the choices Go leaves open: the order of a map
    [range] and the ready case of a [select]. *)
Inductive action {P : Type} : Type :=
| Accept (g : nat) (r : Request) (fl : bool)
| Publish (g : nat) (status : PlayerStatus)
| Cancel (g : nat)
| PlayerChange (p' : P)
| Step (g : nat)
| Visit (g : nat) (ch : chan_id)
| Recv (g : nat)
| Quit (g : nat).
Arguments action : clear implicits.

Section Server.

Context {P : Type}.
Variable playerController : PlayerController P.
Variable json_Marshal : PlayerStatus -> result string.

(** [HTTPController] and what it shares with its goroutines. *)
Record state : Type := mkState {
  sys_player : P;
  heap : gmap chan_id Chan.t;
  sseClients : gset chan_id;
  mu : option nat;
  procs : gmap nat goroutine
}.

(** [NewHTTPController]: an empty registry, no goroutine yet. *)
Definition NewHTTPController (p : P) : state := mkState p ∅ ∅ None ∅.

Inductive outcome : Type :=
| Continue (s : state)
| Blocked
| Panic (msg : string).

Definition set_proc (g : nat) (x : goroutine) (s : state) : state :=
  mkState (sys_player s) (heap s) (sseClients s) (mu s) (<[g := x]> (procs s)).

(** [c.mu.Lock()] by goroutine [g], which goes on as [x]. *)
Definition Lock (g : nat) (x : goroutine) (s : state) : outcome :=
  match mu s with
  | Some _ => Blocked
  | None =>
      Continue (mkState (sys_player s) (heap s) (sseClients s) (Some g)
                  (<[g := x]> (procs s)))
  end.

(** [c.mu.Unlock()] *)
Definition Unlock (g : nat) (x : goroutine) (s : state) : outcome :=
  match mu s with
  | None => Panic "sync: unlock of unlocked mutex"
  | Some _ =>
      Continue (mkState (sys_player s) (heap s) (sseClients s) None
                  (<[g := x]> (procs s)))
  end.

(** The headers of lines 88-91. *)
Definition sse_headers (w : RW.t) : RW.t :=
  RW.Header_Set "Access-Control-Allow-Origin" "*"
    (RW.Header_Set "Connection" "keep-alive"
       (RW.Header_Set "Cache-Control" "no-cache"
          (RW.Header_Set "Content-Type" "text/event-stream" w))).

(** [[]byte] result of a [json.Marshal] whose error is dropped. *)
Definition bytes_of (r : result string) : string :=
  match r with Ok d => d | Err _ => EmptyString end.

(** [fmt.Fprintf(w, "data: %s\n\n", data); flusher.Flush()] *)
Definition push_frame (data : string) (w : RW.t) : RW.t :=
  RW.Flush (RW.Write (frame data) w).

(** [func (c *HTTPController) sseHandler], one statement at a time: the
    statement at [pc] run by goroutine [g] for the request [r] on the
    response writer [w]. The deferred function of lines 98-103 runs when
    the body returns, at line 108 or at line 123. *)
Definition sseHandler (g : nat) (r : Request) (done : bool) (w : RW.t)
    (pc : sse_pc) (s : state) : outcome :=
  match pc with
  | SseEntry =>
      let ch := fresh (dom (heap s)) in
      Continue (mkState (sys_player s) (<[ch := Chan.make 1]> (heap s))
                  (sseClients s) (mu s)
                  (<[g := GSse r done (sse_headers w) (SseRegLock ch)]> (procs s)))
  | SseRegLock ch => Lock g (GSse r done w (SseRegister ch)) s
  | SseRegister ch =>
      Continue (mkState (sys_player s) (heap s) ({[ch]} ∪ sseClients s) (mu s)
                  (<[g := GSse r done w (SseRegUnlock ch)]> (procs s)))
  | SseRegUnlock ch => Unlock g (GSse r done w (SseCheckFlusher ch)) s
  | SseCheckFlusher ch =>
      if RW.flusher w then
        Continue (set_proc g (GSse r done w (SseInitial ch)) s)
      else
        Continue (set_proc g
                    (GSse r done
                       (RW.Error "Streaming unsupported!" StatusInternalServerError w)
                       (SseDeferLock ch)) s)
  | SseInitial ch =>
      let (initialStatus, p') := GetStatus playerController (sys_player s) in
      let initialData := bytes_of (json_Marshal initialStatus) in
      Continue (mkState p' (heap s) (sseClients s) (mu s)
                  (<[g := GSse r done (push_frame initialData w) (SseLoop ch)]>
                     (procs s)))
  | SseLoop _ => Blocked
  | SseDeferLock ch => Lock g (GSse r done w (SseDeferDelete ch)) s
  | SseDeferDelete ch =>
      Continue (mkState (sys_player s) (heap s) (sseClients s ∖ {[ch]}) (mu s)
                  (<[g := GSse r done w (SseDeferUnlock ch)]> (procs s)))
  | SseDeferUnlock ch => Unlock g (GSse r done w (SseDeferClose ch)) s
  | SseDeferClose ch =>
      match heap s !! ch with
      | None => Panic "close of nil channel"
      | Some c =>
          match Chan.close c with
          | None => Panic "close of closed channel"
          | Some c' =>
              Continue (mkState (sys_player s) (<[ch := c']> (heap s))
                          (sseClients s) (mu s)
                          (<[g := GSse r done w (SseReturned ch)]> (procs s)))
          end
      end
  | SseReturned _ => Blocked
  end.

(** [case data := <-clientChan] of the relay loop. *)
Definition sseHandler_recv (g : nat) (r : Request) (done : bool) (w : RW.t)
    (pc : sse_pc) (s : state) : outcome :=
  match pc with
  | SseLoop ch =>
      match heap s !! ch with
      | None => Blocked
      | Some c =>
          match Chan.recv c with
          | None => Blocked
          | Some (data, c') =>
              Continue (mkState (sys_player s) (<[ch := c']> (heap s))
                          (sseClients s) (mu s)
                          (<[g := GSse r done (push_frame data w) (SseLoop ch)]>
                             (procs s)))
          end
      end
  | _ => Blocked
  end.

(** [case <-r.Context().Done(): return] of the relay loop. *)
Definition sseHandler_done (g : nat) (r : Request) (done : bool) (w : RW.t)
    (pc : sse_pc) (s : state) : outcome :=
  match pc with
  | SseLoop ch =>
      if done then Continue (set_proc g (GSse r done w (SseDeferLock ch)) s)
      else Blocked
  | _ => Blocked
  end.

(** [func (c *HTTPController) BroadcastStatus], one statement at a
    time, except the body of the [range]. *)
Definition BroadcastStatus_step (g : nat) (status : PlayerStatus) (pc : pub_pc)
    (s : state) : outcome :=
  match pc with
  | PubLock => Lock g (GPub status PubMarshal) s
  | PubMarshal =>
      match json_Marshal status with
      | Err _ => Continue (set_proc g (GPub status PubUnlock) s)
      | Ok jsonData =>
          Continue (set_proc g (GPub status (PubRange jsonData (sseClients s))) s)
      end
  | PubRange _ todo =>
      if decide (todo = ∅)
      then Continue (set_proc g (GPub status PubUnlock) s)
      else Blocked
  | PubUnlock => Unlock g (GPub status PubReturned) s
  | PubReturned => Blocked
  end.

(** One iteration of [for clientChan := range c.sseClients] on the key
    [ch]: a key deleted from the map since the loop began is not
    produced; otherwise the [select] offers the data to the channel. *)
Definition BroadcastStatus_visit (g : nat) (status : PlayerStatus) (pc : pub_pc)
    (ch : chan_id) (s : state) : outcome :=
  match pc with
  | PubRange data todo =>
      if decide (ch ∈ todo) then
        let next := GPub status (PubRange data (todo ∖ {[ch]})) in
        if decide (ch ∈ sseClients s) then
          match heap s !! ch with
          | None => Panic "send on an unallocated channel"
          | Some c =>
              match Chan.offer data c with
              | Chan.SendOnClosed => Panic "send on closed channel"
              | Chan.Full => Continue (set_proc g next s)
              | Chan.Sent c' =>
                  Continue (mkState (sys_player s) (<[ch := c']> (heap s))
                              (sseClients s) (mu s) (<[g := next]> (procs s)))
              end
          end
        else Continue (set_proc g next s)
      else Blocked
  | _ => Blocked
  end.

(** The system's step function. *)
Definition step (a : action P) (s : state) : outcome :=
  match a with
  | Accept g r fl =>
      match procs s !! g with
      | Some _ => Blocked
      | None => Continue (set_proc g (GSse r false (RW.fresh fl) SseEntry) s)
      end
  | Publish g status =>
      match procs s !! g with
      | Some _ => Blocked
      | None => Continue (set_proc g (GPub status PubLock) s)
      end
  | Cancel g =>
      match procs s !! g with
      | Some (GSse r _ w pc) => Continue (set_proc g (GSse r true w pc) s)
      | _ => Blocked
      end
  | PlayerChange p' =>
      Continue (mkState p' (heap s) (sseClients s) (mu s) (procs s))
  | Step g =>
      match procs s !! g with
      | Some (GSse r done w pc) => sseHandler g r done w pc s
      | Some (GPub status pc) => BroadcastStatus_step g status pc s
      | None => Blocked
      end
  | Visit g ch =>
      match procs s !! g with
      | Some (GPub status pc) => BroadcastStatus_visit g status pc ch s
      | _ => Blocked
      end
  | Recv g =>
      match procs s !! g with
      | Some (GSse r done w pc) => sseHandler_recv g r done w pc s
      | _ => Blocked
      end
  | Quit g =>
      match procs s !! g with
      | Some (GSse r done w pc) => sseHandler_done g r done w pc s
      | _ => Blocked
      end
  end.

(** Running a schedule; it stops at the first action that cannot run. *)
Fixpoint run (l : list (action P)) (s : state) : outcome :=
  match l with
  | [] => Continue s
  | a :: l' =>
      match step a s with
      | Continue s' => run l' s'
      | o => o
      end
  end.

(** The states the controller can be in. *)
Inductive reachable : state -> Prop :=
| reach_init p : reachable (NewHTTPController p)
| reach_step a s s' : reachable s -> step a s = Continue s' -> reachable s'.

(** A call [c.BroadcastStatus(status)] run to its end in goroutine [g]
    with no other goroutine scheduled in between; [order] is the order
    in which the [range] produces the keys. *)
Definition BroadcastStatus_schedule (g : nat) (status : PlayerStatus)
    (order : list chan_id) : list (action P) :=
  match json_Marshal status with
  | Ok _ =>
      [Publish g status; Step g; Step g] ++ (Visit g <$> order)
        ++ [Step g; Step g]
  | Err _ => [Publish g status; Step g; Step g; Step g]
  end.

Definition BroadcastStatus (g : nat) (status : PlayerStatus)
    (order : list chan_id) (s : state) : outcome :=
  run (BroadcastStatus_schedule g status order) s.

End Server.

Arguments state : clear implicits.
Arguments outcome : clear implicits.

(* ===================================================================== *)
(** ** The vocabulary of the properties                                  *)
(* ===================================================================== *)

Section Invariants.

Context {P : Type}.

(** The channel of an [sseHandler] invocation once it is made, with
    whether the handler has it in the registry at this point and
    whether the handler has closed it. *)
Definition sse_phase (pc : sse_pc) : option (chan_id * bool * bool) :=
  match pc with
  | SseEntry => None
  | SseRegLock ch | SseRegister ch => Some (ch, false, false)
  | SseRegUnlock ch | SseCheckFlusher ch | SseInitial ch | SseLoop ch
  | SseDeferLock ch | SseDeferDelete ch => Some (ch, true, false)
  | SseDeferUnlock ch | SseDeferClose ch => Some (ch, false, false)
  | SseReturned ch => Some (ch, false, true)
  end.

(** The channel a goroutine owns. *)
Definition chan_of (x : goroutine) : option chan_id :=
  match x with
  | GSse _ _ _ pc => (fun v => v.1.1) <$> sse_phase pc
  | GPub _ _ => None
  end.

(** The statements between a [Lock] and the [Unlock] that follows it. *)
Definition holds_mu (x : goroutine) : bool :=
  match x with
  | GSse _ _ _ (SseRegister _ | SseRegUnlock _
               | SseDeferDelete _ | SseDeferUnlock _) => true
  | GPub _ (PubMarshal | PubRange _ _ | PubUnlock) => true
  | _ => false
  end.

(** A bound on the statements a goroutine still runs before it gives
    the mutex back. *)
Definition hold_steps (s : state P) (x : goroutine) : nat :=
  match x with
  | GSse _ _ _ (SseRegister _ | SseDeferDelete _) => 2
  | GSse _ _ _ (SseRegUnlock _ | SseDeferUnlock _) => 1
  | GPub _ PubMarshal => size (sseClients s) + 3
  | GPub _ (PubRange _ todo) => size todo + 2
  | GPub _ PubUnlock => 1
  | _ => 0
  end.

(** [ch] is allocated and not closed. *)
Definition live (s : state P) (ch : chan_id) : Prop :=
  Chan.closed <$> heap s !! ch = Some false.

(** What the position of a goroutine says about the shared state: a
    handler's channel is closed and registered as its phase tells; a
    publisher inside the [range] only has registered keys left. *)
Definition proc_ok (s : state P) (x : goroutine) : Prop :=
  match x with
  | GSse _ _ _ pc =>
      match sse_phase pc with
      | None => True
      | Some (ch, registered, closed) =>
          Chan.closed <$> heap s !! ch = Some closed
          ∧ (ch ∈ sseClients s <-> registered = true)
      end
  | GPub _ (PubRange _ todo) => todo ⊆ sseClients s
  | GPub _ _ => True
  end.

(** The invariant of the controller: registered channels are open,
    the mutex is held exactly by the goroutine inside a critical
    section, every goroutine is consistent with the shared state, and
    no two handlers own the same channel. *)
Record Inv (s : state P) : Prop := {
  inv_live : forall ch, ch ∈ sseClients s -> live s ch;
  inv_mu : forall g x,
      procs s !! g = Some x -> holds_mu x = true -> mu s = Some g;
  inv_held : forall h, mu s = Some h ->
      exists x, procs s !! h = Some x ∧ holds_mu x = true;
  inv_proc : forall g x, procs s !! g = Some x -> proc_ok s x;
  inv_own : forall g1 g2 x1 x2 ch,
      procs s !! g1 = Some x1 -> procs s !! g2 = Some x2 ->
      chan_of x1 = Some ch -> chan_of x2 = Some ch -> g1 = g2
}.

End Invariants.

(** What [select { case ch <- data: default: }] leaves in an open channel. *)
Definition deliver (data : string) (c : Chan.t) : Chan.t :=
  if decide (length (Chan.buf c) < Chan.cap c)
  then Chan.mk (Chan.buf c ++ [data]) (Chan.cap c) false
  else c.

(** The body of the reply to a connection that cannot stream. *)
Definition unsupported_reply : string := "Streaming unsupported!" +:+ nl.

(** How the response writer and the position of one [sseHandler]
    invocation can differ before and after a step of the system. *)
Inductive sse_succ (w : RW.t) : sse_pc -> RW.t -> sse_pc -> Prop :=
| succ_same pc : sse_succ w pc w pc
| succ_make ch : sse_succ w SseEntry (sse_headers w) (SseRegLock ch)
| succ_reg_lock ch : sse_succ w (SseRegLock ch) w (SseRegister ch)
| succ_register ch : sse_succ w (SseRegister ch) w (SseRegUnlock ch)
| succ_reg_unlock ch : sse_succ w (SseRegUnlock ch) w (SseCheckFlusher ch)
| succ_flusher ch :
    RW.flusher w = true -> sse_succ w (SseCheckFlusher ch) w (SseInitial ch)
| succ_no_flusher ch :
    RW.flusher w = false ->
    sse_succ w (SseCheckFlusher ch)
      (RW.Error "Streaming unsupported!" StatusInternalServerError w)
      (SseDeferLock ch)
| succ_initial ch data :
    sse_succ w (SseInitial ch) (push_frame data w) (SseLoop ch)
| succ_relay ch data :
    sse_succ w (SseLoop ch) (push_frame data w) (SseLoop ch)
| succ_done ch : sse_succ w (SseLoop ch) w (SseDeferLock ch)
| succ_defer_lock ch : sse_succ w (SseDeferLock ch) w (SseDeferDelete ch)
| succ_delete ch : sse_succ w (SseDeferDelete ch) w (SseDeferUnlock ch)
| succ_defer_unlock ch : sse_succ w (SseDeferUnlock ch) w (SseDeferClose ch)
| succ_close ch : sse_succ w (SseDeferClose ch) w (SseReturned ch).

(** Nothing written yet: no status line, no chunk. *)
Definition untouched (w : RW.t) : Prop :=
  RW.status w = None ∧ RW.pending w = [] ∧ RW.flushed w = [].

(** The stream is open: status 200 and only whole frames, all flushed. *)
Definition streaming (w : RW.t) : Prop :=
  RW.flusher w = true ∧ RW.status w = Some StatusOK ∧ RW.pending w = []
  ∧ exists d0 rest, RW.flushed w = frame d0 :: (frame <$> rest).

(** The connection was refused: status 500 and the plain-text reply. *)
Definition refused (w : RW.t) : Prop :=
  RW.flusher w = false ∧ RW.status w = Some StatusInternalServerError
  ∧ RW.flushed w = [] ∧ RW.pending w = [unsupported_reply].

(** What [sseHandler] has written when it stands at [pc]. *)
Definition rw_ok (w : RW.t) (pc : sse_pc) : Prop :=
  match pc with
  | SseEntry | SseRegLock _ | SseRegister _ | SseRegUnlock _
  | SseCheckFlusher _ => untouched w
  | SseInitial _ => RW.flusher w = true ∧ untouched w
  | SseLoop _ => streaming w
  | SseDeferLock _ | SseDeferDelete _ | SseDeferUnlock _ | SseDeferClose _
  | SseReturned _ => streaming w ∨ refused w
  end.

(** Goroutines stay what they are: a handler of the same request, or
    a publisher of the same status. *)
Definition same_call (x x' : goroutine) : Prop :=
  match x, x' with
  | GSse r _ _ _, GSse r' _ _ _ => r = r'
  | GPub st _, GPub st' _ => st = st'
  | _, _ => False
  end.

(** From the relay loop on, the chunks on the wire are the frame of
    [data0] followed by frames, and nothing is left unflushed. *)
Definition leads_with (data0 : string) (w : RW.t) (pc : sse_pc) : Prop :=
  (match pc with
   | SseLoop _ | SseDeferLock _ | SseDeferDelete _ | SseDeferUnlock _
   | SseDeferClose _ | SseReturned _ => True
   | _ => False
   end)
  ∧ RW.pending w = []
  ∧ exists later, RW.flushed w = frame data0 :: (frame <$> later).

(** Reading every request as a GET. *)
Definition as_get (r : Request) : Request :=
  {| Method := MethodGet; Body := Body r |}.

(** The same goroutine, had its request been a GET. *)
Definition goroutine_as_get (x : goroutine) : goroutine :=
  match x with
  | GSse r d w pc => GSse (as_get r) d w pc
  | GPub st pc => GPub st pc
  end.

Definition state_as_get {P : Type} (s : state P) : state P :=
  mkState (sys_player s) (heap s) (sseClients s) (mu s)
    (goroutine_as_get <$> procs s).

Definition action_as_get {P : Type} (a : action P) : action P :=
  match a with
  | Accept g r fl => Accept g (as_get r) fl
  | _ => a
  end.

Definition outcome_as_get {P : Type} (o : outcome P) : outcome P :=
  match o with
  | Continue s => Continue (state_as_get s)
  | Blocked => Blocked
  | Panic msg => Panic msg
  end.

Section Scheduling.

Context {P : Type}.
Variable playerController : PlayerController P.
Variable json_Marshal : PlayerStatus -> result string.

(** [a] is goroutine [g] running one of its own statements. *)
Definition runs_as (a : action P) (g : nat) : Prop :=
  a = Step g ∨ (exists ch, a = Visit g ch) ∨ a = Recv g ∨ a = Quit g.

(** Goroutine [g] is not blocked in [s]. *)
Definition can_run (s : state P) (g : nat) : Prop :=
  exists a s', runs_as a g ∧ step playerController json_Marshal a s = Continue s'.

(** The first statements of [sseHandler] for the request [r], run in a
    new goroutine [g] up to the check for [http.Flusher]. *)
Definition sseHandler_opening (g : nat) (r : Request) (fl : bool)
  : list (action P) :=
  [Accept g r fl; Step g; Step g; Step g; Step g].

End Scheduling.

(* ===================================================================== *)
(** ** A player and a codec to run the model on                          *)
(* ===================================================================== *)

Module Demo.

(** A player that is its own status. Changing the play mode and the
    intelligent mode need a logged-in user. *)
Definition set_playing (b : bool) (p : PlayerStatus) : PlayerStatus :=
  Build_PlayerStatus (SongTitle p) (Artist p) b (PlayMode p)
    (SongDuration p) (PlaybackPlayed p) (Lyric p) (IsLoggedIn p).

Definition set_mode (m : Z) (p : PlayerStatus) : PlayerStatus :=
  Build_PlayerStatus (SongTitle p) (Artist p) (IsPlaying p) m
    (SongDuration p) (PlaybackPlayed p) (Lyric p) (IsLoggedIn p).

Definition mode_code (m : Mode) : Z :=
  match m with
  | PmOrdered => 1
  | PmListLoop => 2
  | PmSingleLoop => 3
  | PmListRandom => 4
  | PmInfRandom => 5
  end.

Definition controller : PlayerController PlayerStatus := {|
  SetPlayMode m p :=
    if IsLoggedIn p then (None, set_mode (mode_code m) p)
    else (Some "login required", p);
  Play := set_playing true;
  Pause := set_playing false;
  Next p := p;
  Previous p := p;
  NextPlayMode p := set_mode ((PlayMode p + 1) `mod` 6) p;
  ActivateIntelligentMode p :=
    if IsLoggedIn p then (None, set_mode 6 p)
    else (Some "login required", p);
  GetStatus p := (p, p);
  Rerender p := p
|}.

Definition guest : PlayerStatus :=
  Build_PlayerStatus "Blue in Green" "Miles Davis" true 1 337 12 EmptyString false.

Definition member : PlayerStatus :=
  Build_PlayerStatus "Blue in Green" "Miles Davis" false 2 337 12 EmptyString true.

Definition json_bool (b : bool) : string := if b then "true" else "false".

Definition json_field (k v : string) : string := quoted k +:+ ":" +:+ v.

(** A marshaller for statuses whose texts need no escaping. *)
Definition Marshal (s : PlayerStatus) : result string :=
  Ok ("{" +:+ json_field "song_title" (quoted (SongTitle s)) +:+ ","
          +:+ json_field "artist" (quoted (Artist s)) +:+ ","
          +:+ json_field "is_playing" (json_bool (IsPlaying s)) +:+ ","
          +:+ json_field "play_mode" (pretty (PlayMode s)) +:+ ","
          +:+ json_field "song_duration" (pretty (SongDuration s)) +:+ ","
          +:+ json_field "playback_played" (pretty (PlaybackPlayed s)) +:+ ","
          +:+ json_field "lyric" (quoted (Lyric s)) +:+ ","
          +:+ json_field "is_logged_in" (json_bool (IsLoggedIn s)) +:+ "}").

(** The JSON text of a command. *)
Definition render (c : command) : string :=
  "{" +:+ json_field "command" (quoted (Command c)) +:+ ","
      +:+ json_field "args"
            ("[" +:+ String.concat "," (quoted <$> Args c) +:+ "]")
      +:+ "}".

Definition known_commands : list command :=
  [ {| Command := "set_play_mode"; Args := ["ordered"] |};
    {| Command := "set_play_mode"; Args := ["list_random"] |};
    {| Command := "set_play_mode"; Args := ["shuffle"] |};
    {| Command := "set_play_mode"; Args := [] |};
    {| Command := "set_play_mode"; Args := ["ordered"; "list_loop"] |};
    {| Command := "play"; Args := [] |};
    {| Command := "activate_intelligent_mode"; Args := [] |};
    {| Command := "stop"; Args := [] |} ].

(** A decoder that knows the texts of [known_commands] and rejects
    every other body. *)
Definition Decode (body : string) : result command :=
  match list_find (fun c => String.eqb (render c) body = true) known_commands with
  | Some (_, c) => Ok c
  | None => Err "invalid character 'o' in literal null (expecting 'u')"
  end.

Definition post (c : command) : Request :=
  {| Method := "POST"; Body := render c |}.


(** The state after a schedule from a new controller around [guest]. *)
Definition after (l : list (action PlayerStatus)) : state PlayerStatus :=
  match run controller Marshal l (NewHTTPController guest) with
  | Continue s => s
  | _ => NewHTTPController guest
  end.

Definition events : Request := {| Method := "PUT"; Body := EmptyString |}.

(** Goroutine 0 serves a connection that can flush, up to the point
    where it is about to send the initial frame. *)
Definition connecting : list (action PlayerStatus) :=
  sseHandler_opening 0 events true ++ [Step 0].

(** It reaches the relay loop, a first publish fills its channel, and
    goroutine 1 serves a second connection up to the relay loop. *)
Definition two_listeners : list (action PlayerStatus) :=
  connecting
    ++ [Step 0; Publish 10 guest; Step 10; Step 10; Visit 10 0; Step 10; Step 10]
    ++ sseHandler_opening 1 events true ++ [Step 1; Step 1].

(** Goroutine 2 serves a connection that cannot flush and stands at
    the check; then it has been refused and is about to close its
    channel. *)
Definition unflushable : list (action PlayerStatus) :=
  two_listeners ++ sseHandler_opening 2 events false.

Definition closing : list (action PlayerStatus) :=
  unflushable ++ [Step 2; Step 2; Step 2; Step 2].

(** A publisher is in the middle of its [range] when the first
    connection goes away. *)
Definition publishing : list (action PlayerStatus) :=
  two_listeners ++ [Publish 11 member; Step 11; Step 11; Visit 11 1; Cancel 0; Quit 0].

(** The player of [controller] behind a proxy that is down: both
    fallible calls fail with the error of Go's HTTP client, which quotes
    the address. *)
Definition offline_error : string :=
  "Get " +:+ quoted "https://music.163.com/api" +:+ ": EOF".

Definition offline : PlayerController PlayerStatus := {|
  SetPlayMode m p := (Some offline_error, p);
  Play := Play controller;
  Pause := Pause controller;
  Next := Next controller;
  Previous := Previous controller;
  NextPlayMode := NextPlayMode controller;
  ActivateIntelligentMode p := (Some offline_error, p);
  GetStatus := GetStatus controller;
  Rerender := Rerender controller
|}.
End Demo.

(* ===================================================================== *)
(** ** Reading the error payload as JSON                                 *)
(* ===================================================================== *)

Module Json.

(** Reading a JSON text (RFC 8259) that is an object with the two
    string members [status] and [message], as a client of the error
    payload does. Strings are byte strings; an escape [\uXXXX] yields
    the UTF-8 bytes of its code point. *)

Definition is_ws (c : ascii) : bool :=
  (Ascii.eqb c " " || Ascii.eqb c "009" || Ascii.eqb c "010"
   || Ascii.eqb c "013")%char.

Fixpoint skip_ws (s : string) : string :=
  match s with
  | String c rest => if is_ws c then skip_ws rest else s
  | EmptyString => s
  end.

(** The character an escape [\c] stands for, [\u] apart. *)
Definition escape (c : ascii) : option ascii :=
  if Ascii.eqb c "034" then Some "034"%char
  else if Ascii.eqb c "092" then Some "092"%char
  else if Ascii.eqb c "/" then Some "/"%char
  else if Ascii.eqb c "b" then Some "008"%char
  else if Ascii.eqb c "f" then Some "012"%char
  else if Ascii.eqb c "n" then Some "010"%char
  else if Ascii.eqb c "r" then Some "013"%char
  else if Ascii.eqb c "t" then Some "009"%char
  else None.

Definition hex (c : ascii) : option N :=
  let n := N_of_ascii c in
  if (48 <=? n)%N && (n <=? 57)%N then Some (n - 48)%N
  else if (65 <=? n)%N && (n <=? 70)%N then Some (n - 55)%N
  else if (97 <=? n)%N && (n <=? 102)%N then Some (n - 87)%N
  else None.

(** The UTF-8 bytes of a code point of the basic plane; a surrogate
    half on its own is no character. *)
Definition utf8 (n : N) : option string :=
  if (n <? 128)%N then Some (String (ascii_of_N n) EmptyString)
  else if (n <? 2048)%N then
    Some (String (ascii_of_N (192 + n / 64))
            (String (ascii_of_N (128 + n mod 64)) EmptyString))
  else if (55296 <=? n)%N && (n <=? 57343)%N then None
  else
    Some (String (ascii_of_N (224 + n / 4096))
            (String (ascii_of_N (128 + (n / 64) mod 64))
               (String (ascii_of_N (128 + n mod 64)) EmptyString))).

Definition unicode (a b c d : ascii) : option string :=
  match hex a, hex b, hex c, hex d with
  | Some x, Some y, Some z, Some t =>
      utf8 (((x * 16 + y) * 16 + z) * 16 + t)%N
  | _, _, _, _ => None
  end.

(** The characters a string literal may hold as they are. *)
Definition plain_char (c : ascii) : bool :=
  negb (Ascii.eqb c "034") && negb (Ascii.eqb c "092")
  && (32 <=? N_of_ascii c)%N.

Fixpoint plain (s : string) : bool :=
  match s with
  | String c rest => plain_char c && plain rest
  | EmptyString => true
  end.

(** A string literal behind its opening quote: the text it denotes
    and what follows its closing quote. *)
Fixpoint string_body (s : string) : option (string * string) :=
  match s with
  | EmptyString => None
  | String c rest =>
      if Ascii.eqb c "034" then Some (EmptyString, rest)
      else if Ascii.eqb c "092" then
        match rest with
        | EmptyString => None
        | String e rest' =>
            if Ascii.eqb e "u" then
              match rest' with
              | String x1 (String x2 (String x3 (String x4 rest''))) =>
                  match unicode x1 x2 x3 x4, string_body rest'' with
                  | Some bytes, Some (m, r) => Some (bytes +:+ m, r)
                  | _, _ => None
                  end
              | _ => None
              end
            else
              match escape e, string_body rest' with
              | Some x, Some (m, r) => Some (String x m, r)
              | _, _ => None
              end
        end
      else if plain_char c then
        match string_body rest with
        | Some (m, r) => Some (String c m, r)
        | None => None
        end
      else None
  end.

(** A string literal after optional white space. *)
Definition string_lit (s : string) : option (string * string) :=
  match skip_ws s with
  | String c rest => if Ascii.eqb c "034" then string_body rest else None
  | EmptyString => None
  end.

(** The structural character [c] after optional white space. *)
Definition token (c : ascii) (s : string) : option string :=
  match skip_ws s with
  | String c' rest => if Ascii.eqb c c' then Some rest else None
  | EmptyString => None
  end.

(** The string literal [key] after optional white space. *)
Definition key (k : string) (s : string) : option string :=
  match string_lit s with
  | Some (k', rest) => if String.eqb k k' then Some rest else None
  | None => None
  end.

(** The message of a JSON text of the shape
    [{"status":"error","message":<string>}]. *)
Definition read_error_payload (body : string) : option string :=
  match token "{" body with
  | None => None
  | Some s1 =>
  match key "status" s1 with
  | None => None
  | Some s2 =>
  match token ":" s2 with
  | None => None
  | Some s3 =>
  match key "error" s3 with
  | None => None
  | Some s4 =>
  match token "," s4 with
  | None => None
  | Some s5 =>
  match key "message" s5 with
  | None => None
  | Some s6 =>
  match token ":" s6 with
  | None => None
  | Some s7 =>
  match string_lit s7 with
  | None => None
  | Some (msg, s8) =>
  match token "}" s8 with
  | None => None
  | Some s9 =>
      match skip_ws s9 with
      | EmptyString => Some msg
      | String _ _ => None
      end
  end end end end end end end end end.

End Json.

(* ===================================================================== *)
(** ** More vocabulary: commands, headers, schedules, counting           *)
(* ===================================================================== *)

(** The commands that take no argument, with the interface call each makes. *)
Definition transport_commands : list (string * call) :=
  [("play", CallPlay); ("pause", CallPause); ("next", CallNext);
   ("previous", CallPrevious); ("next_play_mode", CallNextPlayMode)].

(** The method of the interface behind a logged call of a transport
    command. *)
Definition transport_effect {P : Type} (ctl : PlayerController P) (c : call)
  : P -> P :=
  match c with
  | CallPlay => Play ctl
  | CallPause => Pause ctl
  | CallNext => Next ctl
  | CallPrevious => Previous ctl
  | CallNextPlayMode => NextPlayMode ctl
  | _ => fun p => p
  end.

(** The command names [commandHandler] knows. *)
Definition command_names : list string :=
  ["set_play_mode"; "play"; "pause"; "next"; "previous"; "next_play_mode";
   "activate_intelligent_mode"].

(** What it is for a handler position to have its channel in the
    registry. *)
Definition registered_at (pc : sse_pc) (ch : nat) : Prop :=
  sse_phase pc = Some (ch, true, false).

(** The header map of a response that streams, and of one that was
    refused through [http.Error]. *)
Definition stream_headers : gmap string string :=
  <["Access-Control-Allow-Origin" := "*"]>
    (<["Connection" := "keep-alive"]>
       (<["Cache-Control" := "no-cache"]>
          (<["Content-Type" := "text/event-stream"]> ∅))).

Definition refusal_headers : gmap string string :=
  <["X-Content-Type-Options" := "nosniff"]>
    (<["Content-Type" := "text/plain; charset=utf-8"]> stream_headers).

(** The header map of [sseHandler]'s response at [pc]. *)
Definition headers_ok (w : RW.t) (pc : sse_pc) : Prop :=
  match pc with
  | SseEntry => RW.header w = ∅
  | _ =>
      RW.header w =
        if decide (RW.status w = Some StatusInternalServerError)
        then refusal_headers else stream_headers
  end.

(** The request context of goroutine [g] is cancelled while the handler
    waits in its relay loop, and the handler runs to its return. *)
Definition sseHandler_closing {P : Type} (g : nat) : list (action P) :=
  [Cancel g; Quit g; Step g; Step g; Step g; Step g].

(** A connection that cannot flush, served from its acceptance to the
    return of the handler. *)
Definition sseHandler_refusal {P : Type} (g : nat) (r : Request)
  : list (action P) :=
  sseHandler_opening g r false ++ [Step g; Step g; Step g; Step g; Step g].

(** Whether the goroutine is a [BroadcastStatus] call that may still
    offer its status to the channel [ch]. *)
Definition may_offer (ch : nat) (x : goroutine) : bool :=
  match x with
  | GPub _ (PubLock | PubMarshal) => true
  | GPub _ (PubRange _ todo) => bool_decide (ch ∈ todo)
  | _ => false
  end.

(** The number of such calls under way. *)
Definition count_offers (ch : nat) (m : gmap nat goroutine) : nat :=
  size (filter (fun kv => may_offer ch kv.2 = true) m).

(** The chunks written to the connection of goroutine [g]. *)
Definition wire (o : option goroutine) : nat :=
  match o with
  | Some (GSse _ _ w _) => length (RW.chunks w)
  | _ => 0
  end.

(** The one chunk a handler writes unprompted (the initial frame, or the
    refusal), as long as it has not written it. *)
Definition owed (o : option goroutine) : nat :=
  match o with
  | Some (GSse _ _ _ (SseEntry | SseRegLock _ | SseRegister _
                     | SseRegUnlock _ | SseCheckFlusher _ | SseInitial _)) => 1
  | Some _ => 0
  | None => 1
  end.

(** The messages waiting in the channel [ch]. *)
Definition queued {P : Type} (ch : nat) (s : state P) : nat :=
  match heap s !! ch with
  | Some c => length (Chan.buf c)
  | None => 0
  end.

(** Everything that is or may yet become a chunk on the connection of
    [g], whose channel is [ch]. *)
Definition potential {P : Type} (g ch : nat) (s : state P) : nat :=
  wire (procs s !! g) + owed (procs s !! g) + queued ch s
  + count_offers ch (procs s).

(** The calls of [BroadcastStatus] started in a schedule. *)
Fixpoint publishes {P : Type} (l : list (action P)) : nat :=
  match l with
  | [] => 0
  | Publish _ _ :: l' => S (publishes l')
  | _ :: l' => publishes l'
  end.

(** Goroutine [g] has no channel, or its channel is [ch]. *)
Definition owns_at_most {P : Type} (g ch : nat) (s : state P) : Prop :=
  match procs s !! g with
  | Some x => chan_of x = None ∨ chan_of x = Some ch
  | None => True
  end.

Definition bit (b : bool) : nat := if b then 1 else 0.

(** The positions of [sseHandler] before its relay loop. *)
Definition before_loop (pc : sse_pc) : bool :=
  match pc with
  | SseEntry | SseRegLock _ | SseRegister _ | SseRegUnlock _
  | SseCheckFlusher _ | SseInitial _ => true
  | _ => false
  end.

(** A connection that can flush, served from its acceptance to its
    relay loop. *)
Definition sseHandler_connect {P : Type} (g : nat) (r : Request)
  : list (action P) :=
  sseHandler_opening g r true ++ [Step g; Step g].

(** The positions of [sseHandler] behind its relay loop: the deferred
    function of lines 98-103 and the return. *)
Definition leaving (ch : nat) (pc : sse_pc) : Prop :=
  pc ∈ [SseDeferLock ch; SseDeferDelete ch; SseDeferUnlock ch;
        SseDeferClose ch; SseReturned ch].

Section Relaying.

Context {P : Type}.
Variable json_Marshal : PlayerStatus -> result string.

(** [data] is the serialization of a status that a [BroadcastStatus]
    call of the schedule [l] was given. *)
Definition published (l : list (action P)) (data : string) : Prop :=
  exists g status, Publish g status ∈ l ∧ json_Marshal status = Ok data.

(** What is in flight comes from a publish: the data a publisher
    carries through its [range], the messages queued in the channels,
    and the frames on the wire after the first. *)
Record relays (l : list (action P)) (s : state P) : Prop := {
  rel_pub : forall g status pc,
      procs s !! g = Some (GPub status pc) ->
      (exists g0, Publish g0 status ∈ l)
      ∧ forall data todo, pc = PubRange data todo -> json_Marshal status = Ok data;
  rel_buf : forall ch c data,
      heap s !! ch = Some c -> data ∈ Chan.buf c -> published l data;
  rel_wire : forall g r d w pc x,
      procs s !! g = Some (GSse r d w pc) -> x ∈ drop 1 (RW.flushed w) ->
      exists data, x = frame data ∧ published l data
}.

End Relaying.

(* ===================================================================== *)
(** ** Properties of the request/response handlers                       *)
(* ===================================================================== *)

Arguments RW.body : simpl never.

Lemma append_empty_r (s : string) : s +:+ EmptyString = s.
Proof.
  induction s as [|c s IH]; [done|].
  change (String c (s +:+ EmptyString) = String c s). by rewrite IH.
Qed.

Lemma body_single (h : gmap string string) (c : nat) (b : string) (fl : bool) :
  RW.body (RW.Write b (RW.mk h (Some c) [] [] fl)) = b.
Proof. unfold RW.body, RW.chunks. cbn. apply append_empty_r. Qed.

(** Case analysis on the first string comparison left in the goal. *)
Ltac case_eqb :=
  match goal with
  | |- context [String.eqb ?a ?b] =>
      let E := fresh "E" in
      destruct (String.eqb_spec a b) as [E|E]
  end.


Lemma parse_mode_None (a : string) :
  parse_mode a = None <-> a ∉ mode_names.*1.
Proof.
  unfold parse_mode, mode_names. cbn. split.
  - repeat (case_eqb; [intros [=] |]).
    intros _. rewrite !not_elem_of_cons. repeat split; try done.
    apply not_elem_of_nil.
  - rewrite !not_elem_of_cons. intros (?&?&?&?&?&_).
    repeat (case_eqb; [done |]).
    reflexivity.
Qed.

(** Unfolds the monadic plumbing of a handler run on a concrete world. *)
Ltac run_handler :=
  unfold reply_ok, reply_error, invoke_, invoke, WriteHeader, Write,
    Header_Set, on_w, Body_Close, mbind, M_bind, mret, M_ret, start;
  cbn.

Lemma length_append (a b : string) :
  String.length (a +:+ b) = String.length a + String.length b.
Proof.
  induction a as [|c a IH]; [done|].
  change (S (String.length (a +:+ b)) = S (String.length a + String.length b)).
  by rewrite IH.
Qed.

Lemma append_assoc (a b c : string) : (a +:+ b) +:+ c = a +:+ b +:+ c.
Proof.
  induction a as [|x a IH]; [done|].
  change (String x ((a +:+ b) +:+ c) = String x (a +:+ b +:+ c)).
  by rewrite IH.
Qed.

Lemma utf8_length (n : N) (b : string) :
  Json.utf8 n = Some b -> String.length b <= 3.
Proof.
  unfold Json.utf8. repeat case_match; intros [= <-]; cbn; lia.
Qed.

Lemma unicode_length (x1 x2 x3 x4 : ascii) (b : string) :
  Json.unicode x1 x2 x3 x4 = Some b -> String.length b <= 3.
Proof.
  unfold Json.unicode. repeat case_match; try done. apply utf8_length.
Qed.

(** A string literal read without an escape is its own text; every
    escape takes more bytes than it yields. *)
Lemma string_body_cases (n : nat) (s m r : string) :
  String.length s <= n ->
  Json.string_body s = Some (m, r) ->
  (Json.plain m = true ∧ s = m +:+ String "034" r)
  ∨ String.length m + String.length r + 2 <= String.length s.
Proof.
  revert s m r. induction n as [|n IH]; intros s m r Hn Hb.
  { destruct s; [done|cbn in Hn; lia]. }
  destruct s as [|c rest]; [done|]. cbn -[Json.plain_char] in Hb, Hn.
  destruct (Ascii.eqb_spec c "034") as [->|Hq].
  { injection Hb as <- <-. by left. }
  destruct (Ascii.eqb_spec c "092") as [->|Hbs].
  - right. destruct rest as [|e rest']; [done|]. cbn in Hn.
    destruct (Ascii.eqb e "u").
    + destruct rest' as [|x1 [|x2 [|x3 [|x4 rest'']]]]; try done.
      cbn in Hn.
      destruct (Json.unicode x1 x2 x3 x4) as [bytes|] eqn:Hu; [|done].
      destruct (Json.string_body rest'') as [[m' r']|] eqn:Hb'; [|done].
      injection Hb as <- <-. apply unicode_length in Hu.
      rewrite length_append. cbn.
      destruct (IH rest'' m' r' ltac:(lia) Hb') as [[_ ->]|Hl].
      * rewrite length_append. cbn. lia.
      * lia.
    + destruct (Json.escape e) as [x|]; [|done].
      destruct (Json.string_body rest') as [[m' r']|] eqn:Hb'; [|done].
      injection Hb as <- <-. cbn.
      destruct (IH rest' m' r' ltac:(lia) Hb') as [[_ ->]|Hl].
      * rewrite length_append. cbn. lia.
      * lia.
  - destruct (Json.plain_char c) eqn:Hc; [|done].
    destruct (Json.string_body rest) as [[m' r']|] eqn:Hb'; [|done].
    injection Hb as <- <-. cbn.
    destruct (IH rest m' r' ltac:(lia) Hb') as [[Hp ->]|Hl].
    + left. by rewrite Hc, Hp.
    + right. lia.
Qed.

Lemma string_body_plain (e r : string) :
  Json.plain e = true ->
  Json.string_body (e +:+ String "034" r) = Some (e, r).
Proof.
  induction e as [|c e IH]; [done|]. cbn -[Json.plain_char].
  intros [Hc He]%andb_prop.
  change (String c e +:+ String "034" r)
    with (String c (e +:+ String "034" r)).
  cbn [Json.string_body]. rewrite Hc, (IH He).
  unfold Json.plain_char in Hc.
  apply andb_prop in Hc as [[Hq Hb]%andb_prop _].
  apply negb_true_iff in Hq, Hb. by rewrite Hq, Hb.
Qed.

(** The bytes [commandHandler] writes for an error read back as the
    payload with that message exactly when the message needs no
    escaping: no double quote, no backslash, no control character. *)
Lemma read_Sprintf_error (e : string) :
  Json.read_error_payload (Sprintf_error e) = Some e <-> Json.plain e = true.
Proof.
  unfold Sprintf_error, quoted, dq. rewrite !append_assoc.
  change (Json.read_error_payload _)
    with (match Json.string_body (e +:+ String "034" "}") with
          | Some (msg, s8) =>
              match Json.token "}" s8 with
              | Some s9 =>
                  match Json.skip_ws s9 with
                  | EmptyString => Some msg
                  | String _ _ => None
                  end
              | None => None
              end
          | None => None
          end).
  split.
  - destruct (Json.string_body (e +:+ String "034" "}")) as [[m r]|] eqn:Hb;
      [|done].
    destruct (string_body_cases _ _ _ _ (le_n _) Hb) as [[Hp Heq]|Hl].
    + destruct (Json.token "}" r) as [s9|]; [|done].
      destruct (Json.skip_ws s9); [|done]. by intros [= ->].
    + destruct (Json.token "}" r) as [s9|] eqn:Ht; [|done].
      destruct (Json.skip_ws s9); [|done]. intros [= ->].
      rewrite length_append in Hl. cbn in Hl.
      destruct r; [done|cbn in Hl; lia].
  - intros Hp. by rewrite (string_body_plain _ _ Hp).
Qed.

Section HandlerProps.

Context {P : Type}.
Variable playerController : PlayerController P.
Variable json_Marshal : PlayerStatus -> result string.
Variable json_Decode : string -> result command.

Local Abbreviation command_reply :=
  (command_served playerController json_Decode).
Local Abbreviation status_reply :=
  (status_served playerController json_Marshal).

Lemma command_served_decoded (r : Request) (p : P) (fl : bool) (cmd : command) :
  Method r = MethodPost ->
  json_Decode (Body r) = Ok cmd ->
  command_reply r p fl =
    (Body_Close (dispatch playerController cmd (start p fl)).2).2.
Proof.
  intros Hm Hd. unfold command_served, commandHandler.
  rewrite Hm, Hd. cbn. unfold mbind, M_bind.
  by destruct (dispatch _ _ _).
Qed.

(** C9. A request to the command endpoint whose method is not POST,
    and a request to the status endpoint whose method is not GET, get
    status 405 and an empty body, and no method of the player
    controller is called. *)
Theorem wrong_method_405 (rc rs : Request) (p : P) (fl : bool) :
  Method rc ≠ MethodPost ->
  Method rs ≠ MethodGet ->
  (RW.status (w (command_reply rc p fl)) = Some StatusMethodNotAllowed
   ∧ RW.body (w (command_reply rc p fl)) = EmptyString
   ∧ calls (command_reply rc p fl) = []
   ∧ player (command_reply rc p fl) = p)
  ∧ (RW.status (w (status_reply rs p fl)) = Some StatusMethodNotAllowed
     ∧ RW.body (w (status_reply rs p fl)) = EmptyString
     ∧ calls (status_reply rs p fl) = []
     ∧ player (status_reply rs p fl) = p).
Proof.
  intros Hc Hs.
  unfold command_served, status_served, commandHandler, statusHandler.
  apply String.eqb_neq in Hc, Hs. rewrite Hc, Hs. by run_handler.
Qed.

(** C1. A POST to the command endpoint whose body does not decode
    gets status 400 and the payload carrying the decoder's message; no
    method of the player controller is called. The handler returns on
    this path before its [defer r.Body.Close()] is registered, so it
    returns without having closed the request body. *)
Theorem parse_failure_400_body_left_open (r : Request) (p : P) (fl : bool) (e : error) :
  Method r = MethodPost ->
  json_Decode (Body r) = Err e ->
  RW.status (w (command_reply r p fl)) = Some StatusBadRequest
  ∧ RW.body (w (command_reply r p fl)) = Sprintf_error e
  ∧ calls (command_reply r p fl) = []
  ∧ bodyClosed (command_reply r p fl) = false.
Proof.
  intros Hm Hd. unfold command_served, commandHandler. rewrite Hm, Hd.
  run_handler. by rewrite body_single.
Qed.

(** On every path after a successful decode the deferred close runs. *)
Lemma decoded_body_closed (r : Request) (p : P) (fl : bool) (cmd : command) :
  Method r = MethodPost ->
  json_Decode (Body r) = Ok cmd ->
  bodyClosed (command_reply r p fl) = true.
Proof. intros Hm Hd. by rewrite (command_served_decoded _ _ _ _ Hm Hd). Qed.


(** C6. A POST of [set_play_mode] whose argument count is not one, or
    whose one argument is none of the five mode names, gets status 400
    with an error payload, and no method of the player controller is
    called. *)
Theorem set_play_mode_invalid
    (r : Request) (p : P) (fl : bool) (cmd : command) :
  Method r = MethodPost ->
  json_Decode (Body r) = Ok cmd ->
  Command cmd = "set_play_mode" ->
  length (Args cmd) <> 1
  ∨ (exists a, Args cmd = [a] ∧ a ∉ mode_names.*1) ->
  RW.status (w (command_reply r p fl)) = Some StatusBadRequest
  ∧ RW.body (w (command_reply r p fl)) =
      Sprintf_error (if decide (length (Args cmd) = 1)
                     then "invalid play mode" else "invalid args")
  ∧ calls (command_reply r p fl) = []
  ∧ player (command_reply r p fl) = p.
Proof.
  intros Hm Hd Hc Hargs. rewrite (command_served_decoded _ _ _ _ Hm Hd).
  unfold dispatch. rewrite Hc. cbn.
  destruct Hargs as [Hlen|(a & Ha & Hbad)].
  - rewrite decide_False by done.
    destruct (Args cmd) as [|a [|b l]]; [|done|]; run_handler;
      by rewrite body_single.
  - rewrite Ha. cbn. apply parse_mode_None in Hbad. rewrite Hbad.
    run_handler. by rewrite body_single.
Qed.

(** C7. A POST of [activate_intelligent_mode] calls
    [ActivateIntelligentMode] and nothing else. When that returns no
    error the reply is 200 with the bytes [{"status": "ok"}]. When it
    returns an error the reply is 500 and its body is the template
    [{"status": "error", "message": "..."}] with the error's text put
    between the last pair of quotes byte for byte. Nothing is escaped:
    the body reads back as the JSON payload with that message exactly
    when the text holds no double quote, no backslash and no control
    character. *)
Theorem activate_intelligent_mode_reply
    (r : Request) (p : P) (fl : bool) (cmd : command) :
  Method r = MethodPost ->
  json_Decode (Body r) = Ok cmd ->
  Command cmd = "activate_intelligent_mode" ->
  let q := String "034"%char EmptyString in
  calls (command_reply r p fl) = [CallActivateIntelligentMode]
  ∧ match ActivateIntelligentMode playerController p with
    | (Some e, p') =>
        RW.status (w (command_reply r p fl)) = Some 500
        ∧ RW.body (w (command_reply r p fl))
          = "{" +:+ q +:+ "status" +:+ q +:+ ": " +:+ q +:+ "error" +:+ q
            +:+ ", " +:+ q +:+ "message" +:+ q +:+ ": "
            +:+ q +:+ e +:+ q +:+ "}"
        ∧ player (command_reply r p fl) = p'
        ∧ (Json.read_error_payload (RW.body (w (command_reply r p fl)))
           = Some e <-> Json.plain e = true)
    | (None, p') =>
        RW.status (w (command_reply r p fl)) = Some 200
        ∧ RW.body (w (command_reply r p fl))
          = "{" +:+ q +:+ "status" +:+ q +:+ ": " +:+ q +:+ "ok" +:+ q +:+ "}"
        ∧ player (command_reply r p fl) = p'
    end.
Proof.
  intros Hm Hd Hc q. rewrite (command_served_decoded _ _ _ _ Hm Hd).
  unfold dispatch. rewrite Hc. cbn. run_handler.
  destruct (ActivateIntelligentMode playerController p) as [[e|] p']; cbn;
    rewrite body_single; [|done].
  do 4 (split; [done|]). apply read_Sprintf_error.
Qed.

End HandlerProps.

(** The error payload carries the message between its quotes as it is. *)
Lemma Sprintf_error_verbatim (msg : string) :
  Sprintf_error msg =
    ("{" +:+ quoted "status" +:+ ": " +:+ quoted "error" +:+ ", "
         +:+ quoted "message" +:+ ": " +:+ dq)
    +:+ msg +:+ (dq +:+ "}").
Proof. reflexivity. Qed.

Lemma wrong_method_405_witness :
  RW.status (w (command_served Demo.controller Demo.Decode
                  {| Method := "GET"; Body := EmptyString |} Demo.guest true))
  = Some 405
  ∧ RW.status (w (status_served Demo.controller Demo.Marshal
                    {| Method := "POST"; Body := EmptyString |} Demo.guest true))
    = Some 405.
Proof.
  destruct (wrong_method_405 Demo.controller Demo.Marshal Demo.Decode
              {| Method := "GET"; Body := EmptyString |}
              {| Method := "POST"; Body := EmptyString |} Demo.guest true)
    as [(Hc & _) (Hs & _)]; [discriminate|discriminate|].
  split; [exact Hc|exact Hs].
Defined.

Lemma parse_failure_400_body_left_open_witness :
  bodyClosed (command_served Demo.controller Demo.Decode
                {| Method := "POST"; Body := "nope" |} Demo.guest true) = false.
Proof.
  eapply (parse_failure_400_body_left_open Demo.controller Demo.Decode
            {| Method := "POST"; Body := "nope" |} Demo.guest true);
    [reflexivity|vm_compute; reflexivity].
Defined.



Lemma set_play_mode_invalid_witness :
  RW.status (w (command_served Demo.controller Demo.Decode
                  (Demo.post {| Command := "set_play_mode"; Args := ["shuffle"] |})
                  Demo.member true)) = Some StatusBadRequest
  ∧ RW.status (w (command_served Demo.controller Demo.Decode
                    (Demo.post {| Command := "set_play_mode";
                                  Args := ["ordered"; "list_loop"] |})
                    Demo.member true)) = Some StatusBadRequest.
Proof.
  split.
  - eapply (set_play_mode_invalid Demo.controller Demo.Decode
              (Demo.post {| Command := "set_play_mode"; Args := ["shuffle"] |})
              Demo.member true {| Command := "set_play_mode"; Args := ["shuffle"] |});
      [reflexivity|vm_compute; reflexivity|reflexivity|].
    right. exists "shuffle". split; [reflexivity|].
    apply parse_mode_None. vm_compute; reflexivity.
  - eapply (set_play_mode_invalid Demo.controller Demo.Decode
              (Demo.post {| Command := "set_play_mode";
                            Args := ["ordered"; "list_loop"] |})
              Demo.member true
              {| Command := "set_play_mode"; Args := ["ordered"; "list_loop"] |});
      [reflexivity|vm_compute; reflexivity|reflexivity|].
    left. cbn. lia.
Defined.

Lemma activate_intelligent_mode_reply_witness :
  let q := String "034"%char EmptyString in
  let activate :=
    Demo.post {| Command := "activate_intelligent_mode"; Args := [] |} in
  (RW.body (w (command_served Demo.controller Demo.Decode activate
                 Demo.guest true))
   = "{" +:+ q +:+ "status" +:+ q +:+ ": " +:+ q +:+ "error" +:+ q
     +:+ ", " +:+ q +:+ "message" +:+ q +:+ ": "
     +:+ q +:+ "login required" +:+ q +:+ "}"
   ∧ Json.read_error_payload
       (RW.body (w (command_served Demo.controller Demo.Decode activate
                      Demo.guest true)))
     = Some "login required")
  ∧ RW.body (w (command_served Demo.controller Demo.Decode activate
                  Demo.member true))
    = "{" +:+ q +:+ "status" +:+ q +:+ ": " +:+ q +:+ "ok" +:+ q +:+ "}"
  ∧ RW.status (w (command_served Demo.offline Demo.Decode activate
                    Demo.member true)) = Some 500
  ∧ RW.body (w (command_served Demo.offline Demo.Decode activate
                  Demo.member true))
    = "{" +:+ q +:+ "status" +:+ q +:+ ": " +:+ q +:+ "error" +:+ q
      +:+ ", " +:+ q +:+ "message" +:+ q +:+ ": "
      +:+ q +:+ "Get " +:+ q +:+ "https://music.163.com/api" +:+ q
      +:+ ": EOF" +:+ q +:+ "}"
  ∧ Json.read_error_payload
      (RW.body (w (command_served Demo.offline Demo.Decode activate
                     Demo.member true)))
    <> Some ("Get " +:+ q +:+ "https://music.163.com/api" +:+ q +:+ ": EOF").
Proof.
  intros q activate.
  pose proof (activate_intelligent_mode_reply Demo.controller Demo.Decode
                activate Demo.guest true
                {| Command := "activate_intelligent_mode"; Args := [] |}
                eq_refl eq_refl eq_refl) as (_ & _ & Hb1 & _ & Hr1).
  pose proof (activate_intelligent_mode_reply Demo.controller Demo.Decode
                activate Demo.member true
                {| Command := "activate_intelligent_mode"; Args := [] |}
                eq_refl eq_refl eq_refl) as (_ & _ & Hb2 & _).
  pose proof (activate_intelligent_mode_reply Demo.offline Demo.Decode
                activate Demo.member true
                {| Command := "activate_intelligent_mode"; Args := [] |}
                eq_refl eq_refl eq_refl) as (_ & Hs3 & Hb3 & _ & Hr3).
  split; [split; [exact Hb1|apply Hr1; reflexivity]|].
  split; [exact Hb2|]. split; [exact Hs3|]. split; [exact Hb3|].
  intros Hread. apply Hr3 in Hread. discriminate Hread.
Defined.

(* ===================================================================== *)
(** ** Properties of the streaming endpoint and the publisher            *)
(* ===================================================================== *)

Section ServerProps.

Context {P : Type}.
Variable playerController : PlayerController P.
Variable json_Marshal : PlayerStatus -> result string.

Local Abbreviation step := (step playerController json_Marshal).
Local Abbreviation run := (run playerController json_Marshal).
Local Abbreviation reachable := (reachable playerController json_Marshal).
Local Abbreviation can_run := (can_run playerController json_Marshal).

Lemma Inv_init (p : P) : Inv (NewHTTPController p).
Proof.
  split; cbn; intros *; try rewrite lookup_empty; try done.
Qed.

(** A step rewrites the entry of one goroutine and possibly the shared
    fields; the invariant then splits into what is asked of the
    goroutine that moved and what is asked of the others. *)
Lemma Inv_update (s : state P) (g : nat) (x' : goroutine)
    (p' : P) (h' : gmap nat Chan.t) (cl' : gset nat) (mu' : option nat) :
  let s' := mkState p' h' cl' mu' (<[g := x']> (procs s)) in
  Inv s ->
  (forall ch, ch ∈ cl' -> live s' ch) ->
  (holds_mu x' = true -> mu' = Some g) ->
  (forall g2 x2, g2 <> g -> procs s !! g2 = Some x2 ->
                 holds_mu x2 = true -> mu' = Some g2) ->
  (forall h, mu' = Some h ->
             exists x, <[g := x']> (procs s) !! h = Some x ∧ holds_mu x = true) ->
  proc_ok s' x' ->
  (forall g2 x2, g2 <> g -> procs s !! g2 = Some x2 -> proc_ok s' x2) ->
  (forall g2 x2 ch, g2 <> g -> procs s !! g2 = Some x2 ->
                    chan_of x' = Some ch -> chan_of x2 <> Some ch) ->
  Inv s'.
Proof.
  intros s' HI Hl Hm Hm2 Hh Hp Hp2 Ho. split; cbn.
  - exact Hl.
  - intros g2 x2. rewrite lookup_insert.
    case_decide; intros; simplify_eq; eauto.
  - exact Hh.
  - intros g2 x2. rewrite lookup_insert.
    case_decide; intros; simplify_eq; eauto.
  - intros g1 g2 x1 x2 ch. rewrite !lookup_insert.
    repeat case_decide; intros; simplify_eq; try done.
    + exfalso. by eapply (Ho g2 x2 ch).
    + exfalso. by eapply (Ho g1 x1 ch).
    + by eapply (inv_own _ HI g1 g2).
Qed.

Lemma proc_ok_frame (s s' : state P) (x : goroutine) :
  proc_ok s x ->
  (forall ch, chan_of x = Some ch ->
     Chan.closed <$> heap s' !! ch = Chan.closed <$> heap s !! ch
     ∧ (ch ∈ sseClients s' <-> ch ∈ sseClients s)) ->
  (forall st d todo, x = GPub st (PubRange d todo) -> todo ⊆ sseClients s') ->
  proc_ok s' x.
Proof.
  destruct x as [r d w pc|st pc]; cbn.
  - destruct (sse_phase pc) as [[[ch reg] cl]|]; cbn; [|done].
    intros [Hc Hr] Hf _. destruct (Hf ch eq_refl) as [-> ->]. done.
  - intros Hp _ Hf. destruct pc; try done. by eapply Hf.
Qed.

Lemma chan_allocated (s : state P) (g : nat) (x : goroutine) (ch : nat) :
  Inv s -> procs s !! g = Some x -> chan_of x = Some ch ->
  is_Some (heap s !! ch).
Proof.
  intros HI Hg Hch. pose proof (inv_proc _ HI _ _ Hg) as Hp.
  destruct x as [r d w pc|]; [|done]. cbn in *.
  destruct (sse_phase pc) as [[[ch' reg] cl]|]; simplify_eq/=.
  destruct Hp as [Hp _]. by destruct (heap s !! ch).
Qed.

Lemma other_chan_ne (s : state P) (g g2 : nat) (x x2 : goroutine) (ch ch2 : nat) :
  Inv s -> procs s !! g = Some x -> procs s !! g2 = Some x2 -> g2 <> g ->
  chan_of x = Some ch -> chan_of x2 = Some ch2 -> ch2 <> ch.
Proof.
  intros HI Hg Hg2 Hne Hc Hc2 ->. apply Hne.
  by eapply (inv_own _ HI g2 g).
Qed.

Lemma held_insert (s : state P) (g : nat) (x x' : goroutine) :
  Inv s -> procs s !! g = Some x -> holds_mu x' = holds_mu x ->
  forall h, mu s = Some h ->
            exists y, <[g := x']> (procs s) !! h = Some y ∧ holds_mu y = true.
Proof.
  intros HI Hg Hx h Hh. destruct (inv_held _ HI _ Hh) as (y & Hy & Hhy).
  rewrite lookup_insert. case_decide; simplify_eq; [|by eauto].
  eexists; split; [done|congruence].
Qed.

Lemma held_insert_new (s : state P) (g : nat) (x' : goroutine) :
  Inv s -> procs s !! g = None ->
  forall h, mu s = Some h ->
            exists y, <[g := x']> (procs s) !! h = Some y ∧ holds_mu y = true.
Proof.
  intros HI Hg h Hh. destruct (inv_held _ HI _ Hh) as (y & Hy & Hhy).
  rewrite lookup_insert_ne; [by eauto|]. intros ->. congruence.
Qed.

(** A step that leaves the registry and the mutex alone, and no
    channel more or less closed than it was. *)
Lemma Inv_local (s : state P) (g : nat) (x x' : goroutine)
    (p' : P) (h' : gmap nat Chan.t) :
  Inv s -> procs s !! g = Some x ->
  (forall ch, Chan.closed <$> h' !! ch = Chan.closed <$> heap s !! ch) ->
  chan_of x' = chan_of x ->
  holds_mu x' = holds_mu x ->
  proc_ok s x' ->
  Inv (mkState p' h' (sseClients s) (mu s) (<[g := x']> (procs s))).
Proof.
  intros HI Hg Hh Hc Hm Hp. apply Inv_update; try done.
  - intros ch Hin. unfold live; cbn. rewrite Hh. by apply (inv_live _ HI).
  - intros Hx. eapply (inv_mu _ HI g); [done|congruence].
  - intros. by eapply (inv_mu _ HI).
  - by eapply held_insert.
  - eapply proc_ok_frame; [exact Hp|cbn; by intros|].
    intros st d todo ->. exact Hp.
  - intros g2 x2 Hne Hg2.
    eapply proc_ok_frame; [by eapply (inv_proc _ HI)|cbn; by intros|].
    intros st d todo ->. by eapply (inv_proc _ HI g2 _ Hg2).
  - intros g2 x2 ch Hne Hg2 Hc1 Hc2. apply Hne.
    eapply (inv_own _ HI g2 g); [done..|by rewrite <- Hc].
Qed.

Lemma Inv_lock (s : state P) (g : nat) (x x' : goroutine) :
  Inv s -> procs s !! g = Some x -> mu s = None ->
  holds_mu x' = true ->
  chan_of x' = chan_of x -> proc_ok s x' ->
  Inv (mkState (sys_player s) (heap s) (sseClients s) (Some g)
         (<[g := x']> (procs s))).
Proof.
  intros HI Hg Hmu Hx Hc Hp. apply Inv_update; try done.
  - apply (inv_live _ HI).
  - intros g2 x2 _ Hg2 Hh. pose proof (inv_mu _ HI _ _ Hg2 Hh). congruence.
  - intros h [= <-]. rewrite lookup_insert_eq. by eauto.
  - intros g2 x2 _ Hg2. by eapply (inv_proc _ HI).
  - intros g2 x2 ch Hne Hg2 Hc1 Hc2. apply Hne.
    eapply (inv_own _ HI g2 g); [done..|by rewrite <- Hc].
Qed.

Lemma Inv_unlock (s : state P) (g : nat) (x x' : goroutine) :
  Inv s -> procs s !! g = Some x -> holds_mu x = true ->
  holds_mu x' = false ->
  chan_of x' = chan_of x -> proc_ok s x' ->
  Inv (mkState (sys_player s) (heap s) (sseClients s) None
         (<[g := x']> (procs s))).
Proof.
  intros HI Hg Hh Hh' Hc Hp. apply Inv_update; try done.
  - apply (inv_live _ HI).
  - congruence.
  - intros g2 x2 Hne Hg2 Hh2.
    pose proof (inv_mu _ HI _ _ Hg2 Hh2). pose proof (inv_mu _ HI _ _ Hg Hh).
    congruence.
  - intros g2 x2 _ Hg2. by eapply (inv_proc _ HI).
  - intros g2 x2 ch Hne Hg2 Hc1 Hc2. apply Hne.
    eapply (inv_own _ HI g2 g); [done..|by rewrite <- Hc].
Qed.

Lemma closed_insert_same (h : gmap nat Chan.t) (ch : nat) (c c' : Chan.t) :
  h !! ch = Some c -> Chan.closed c' = Chan.closed c ->
  forall ch0, Chan.closed <$> <[ch := c']> h !! ch0 = Chan.closed <$> h !! ch0.
Proof.
  intros Hc Hcl ch0. rewrite lookup_insert. case_decide; [|done].
  simplify_eq. rewrite Hc. cbn. by rewrite Hcl.
Qed.

Lemma Inv_step (a : action P) (s s' : state P) :
  Inv s -> step a s = Continue s' -> Inv s'.
Proof.
  intros HI Hs.
  destruct a as [g r fl|g st|g|p'|g|g ch|g|g]; cbn in Hs.
  - (* Accept *)
    destruct (procs s !! g) eqn:Hg; simplify_eq. unfold set_proc.
    apply Inv_update; try done.
    + apply (inv_live _ HI).
    + intros. by eapply (inv_mu _ HI).
    + by eapply held_insert_new.
    + intros. by eapply (inv_proc _ HI).
  - (* Publish *)
    destruct (procs s !! g) eqn:Hg; simplify_eq. unfold set_proc.
    apply Inv_update; try done.
    + apply (inv_live _ HI).
    + intros. by eapply (inv_mu _ HI).
    + by eapply held_insert_new.
    + intros. by eapply (inv_proc _ HI).
  - (* Cancel *)
    destruct (procs s !! g) as [[r d w pc|]|] eqn:Hg; simplify_eq.
    eapply Inv_local; try done. apply (inv_proc _ HI _ _ Hg).
  - (* PlayerChange *)
    simplify_eq. destruct HI. by split.
  - (* Step *)
    destruct (procs s !! g) as [[r d w pc|st pc]|] eqn:Hg; [| |done].
    + pose proof (inv_proc _ HI _ _ Hg) as Hp.
      destruct pc as [|ch|ch|ch|ch|ch|ch|ch|ch|ch|ch|ch]; cbn in Hs, Hp.
      * (* make *)
        simplify_eq. pose proof (is_fresh (dom (heap s))) as Hf.
        set (ch := fresh (dom (heap s))) in *.
        assert (forall g2 x2 ch2, procs s !! g2 = Some x2 ->
                  chan_of x2 = Some ch2 -> ch2 <> ch) as Hne.
        { intros g2 x2 ch2 Hg2 Hc2 ->. apply Hf, elem_of_dom.
          by eapply chan_allocated. }
        apply Inv_update; try done.
        -- intros ch2 Hin. pose proof (inv_live _ HI _ Hin) as Hl.
           unfold live in *; cbn. rewrite lookup_insert_ne; [done|].
           intros <-. apply Hf, elem_of_dom. by destruct (heap s !! ch).
        -- intros. by eapply (inv_mu _ HI).
        -- by eapply held_insert.
        -- cbn. rewrite lookup_insert_eq. split; [done|].
           split; [|done]. intros Hin. exfalso.
           pose proof (inv_live _ HI _ Hin) as Hl. unfold live in Hl.
           apply Hf, elem_of_dom. by destruct (heap s !! ch).
        -- intros g2 x2 _ Hg2.
           eapply proc_ok_frame; [by eapply (inv_proc _ HI)| |].
           ++ intros ch2 Hc2. cbn. rewrite lookup_insert_ne; [done|].
              intros E. by eapply (Hne g2 x2 ch2).
           ++ intros st dd todo ->. by eapply (inv_proc _ HI g2 _ Hg2).
        -- intros g2 x2 ch2 _ Hg2 [= <-] Hc2. by eapply (Hne g2 x2 ch).
      * (* Lock *)
        unfold Lock in Hs. destruct (mu s) eqn:Hmu; simplify_eq.
        by eapply Inv_lock.
      * (* c.sseClients[clientChan] = struct{}{} *)
        simplify_eq. destruct Hp as [Hcl Hnin].
        apply Inv_update; try done.
        -- intros ch2 [->%elem_of_singleton|Hin]%elem_of_union; [done|].
           by apply (inv_live _ HI).
        -- intros _. by eapply (inv_mu _ HI g).
        -- intros. by eapply (inv_mu _ HI).
        -- by eapply held_insert.
        -- cbn. split; [done|]. set_solver.
        -- intros g2 x2 Hne Hg2.
           eapply proc_ok_frame; [by eapply (inv_proc _ HI)| |].
           ++ intros ch2 Hc2. cbn. split; [done|].
              assert (ch2 <> ch) by by eapply (other_chan_ne s g g2).
              set_solver.
           ++ intros st dd todo ->.
              pose proof (inv_proc _ HI g2 _ Hg2) as Hsub. cbn in *.
              set_solver.
        -- intros g2 x2 ch2 Hne Hg2 [= <-] Hc2. apply Hne.
           by eapply (inv_own _ HI g2 g).
      * (* Unlock *)
        unfold Unlock in Hs. destruct (mu s); simplify_eq.
        by eapply Inv_unlock.
      * (* flusher, ok := w.(http.Flusher) *)
        destruct (RW.flusher w); simplify_eq; unfold set_proc;
          by eapply Inv_local.
      * (* initial frame *)
        destruct (GetStatus playerController (sys_player s)); simplify_eq.
        by eapply Inv_local.
      * done.
      * unfold Lock in Hs. destruct (mu s) eqn:Hmu; simplify_eq.
        by eapply Inv_lock.
      * (* delete(c.sseClients, clientChan) *)
        simplify_eq. destruct Hp as [Hcl Hin].
        pose proof (inv_mu _ HI _ _ Hg eq_refl) as Hmu.
        apply Inv_update; try done.
        -- intros ch2 Hin2. apply (inv_live _ HI). set_solver.
        -- intros. by eapply (inv_mu _ HI).
        -- by eapply held_insert.
        -- cbn. split; [done|]. set_solver.
        -- intros g2 x2 Hne Hg2.
           eapply proc_ok_frame; [by eapply (inv_proc _ HI)| |].
           ++ intros ch2 Hc2. cbn. split; [done|].
              assert (ch2 <> ch) by by eapply (other_chan_ne s g g2).
              set_solver.
           ++ intros st dd todo ->. exfalso.
              pose proof (inv_mu _ HI _ _ Hg2 eq_refl). congruence.
        -- intros g2 x2 ch2 Hne Hg2 [= <-] Hc2. apply Hne.
           by eapply (inv_own _ HI g2 g).
      * unfold Unlock in Hs. destruct (mu s); simplify_eq.
        by eapply Inv_unlock.
      * (* close(clientChan) *)
        destruct Hp as [Hcl Hnin].
        destruct (heap s !! ch) as [c|] eqn:Hc; [|done].
        unfold Chan.close in Hs. cbn in Hcl.
        destruct (Chan.closed c) eqn:Hcc; simplify_eq.
        apply Inv_update; try done.
        -- intros ch2 Hin. unfold live; cbn.
           rewrite lookup_insert_ne; [by apply (inv_live _ HI)|].
           intros <-. naive_solver.
        -- intros. by eapply (inv_mu _ HI).
        -- by eapply held_insert.
        -- cbn. by rewrite lookup_insert_eq.
        -- intros g2 x2 Hne Hg2.
           eapply proc_ok_frame; [by eapply (inv_proc _ HI)| |].
           ++ intros ch2 Hc2. cbn. split; [|done].
              assert (ch2 <> ch) by by eapply (other_chan_ne s g g2).
              by rewrite lookup_insert_ne.
           ++ intros st dd todo ->. by eapply (inv_proc _ HI g2 _ Hg2).
        -- intros g2 x2 ch2 Hne Hg2 [= <-] Hc2. apply Hne.
           by eapply (inv_own _ HI g2 g).
      * done.
    + pose proof (inv_proc _ HI _ _ Hg) as Hp.
      destruct pc as [| |data todo| |]; cbn in Hs, Hp.
      * unfold Lock in Hs. destruct (mu s) eqn:Hmu; simplify_eq.
        by eapply Inv_lock.
      * destruct (json_Marshal st); simplify_eq; unfold set_proc;
          (eapply Inv_local; [done..|]); by cbn.
      * case_decide; simplify_eq. unfold set_proc. by eapply Inv_local.
      * unfold Unlock in Hs. destruct (mu s); simplify_eq.
        by eapply Inv_unlock.
      * done.
  - (* Visit *)
    destruct (procs s !! g) as [[r d w pc|st pc]|] eqn:Hg; try done.
    pose proof (inv_proc _ HI _ _ Hg) as Hp.
    destruct pc as [| |data todo| |]; try done. cbn in Hs, Hp.
    assert (todo ∖ {[ch]} ⊆ sseClients s) as Hsub by set_solver.
    case_decide; [|done]. case_decide.
    + destruct (heap s !! ch) as [c|] eqn:Hc; [|done].
      unfold Chan.offer in Hs.
      destruct (Chan.closed c) eqn:Hcc; [done|].
      case_decide; simplify_eq.
      * eapply Inv_local; try done. by eapply closed_insert_same.
      * unfold set_proc. by eapply Inv_local.
    + simplify_eq. unfold set_proc. by eapply Inv_local.
  - (* Recv *)
    destruct (procs s !! g) as [[r d w pc|st pc]|] eqn:Hg; try done.
    pose proof (inv_proc _ HI _ _ Hg) as Hp.
    destruct pc; try done. cbn in Hs, Hp.
    destruct (heap s !! ch) as [c|] eqn:Hc; [|done].
    destruct (Chan.recv c) as [[data c']|] eqn:Hr; simplify_eq.
    eapply Inv_local; try done; [|cbn; by rewrite Hc].
    eapply closed_insert_same; [done|].
    unfold Chan.recv in Hr. destruct (Chan.buf c); [|by simplify_eq].
    destruct (Chan.closed c) eqn:Hcc; by simplify_eq.
  - (* Quit *)
    destruct (procs s !! g) as [[r d w pc|st pc]|] eqn:Hg; try done.
    pose proof (inv_proc _ HI _ _ Hg) as Hp.
    destruct pc; try done. cbn in Hs. destruct d; simplify_eq.
    unfold set_proc. by eapply Inv_local.
Qed.

Lemma reachable_Inv (s : state P) :
  reachable s -> Inv s.
Proof.
  induction 1 as [p|a s s' _ IH Hs]; [apply Inv_init|by eapply Inv_step].
Qed.

Lemma Inv_no_panic (a : action P) (s : state P) (msg : string) :
  Inv s -> step a s <> Panic msg.
Proof.
  intros HI Hs.
  destruct a as [g r fl|g st|g|p'|g|g ch|g|g]; cbn in Hs.
  - by destruct (procs s !! g).
  - by destruct (procs s !! g).
  - by destruct (procs s !! g) as [[]|].
  - done.
  - destruct (procs s !! g) as [[r d w pc|st pc]|] eqn:Hg; [| |done].
    + pose proof (inv_proc _ HI _ _ Hg) as Hp.
      destruct pc; cbn in Hs, Hp; try done;
        try (unfold Lock in Hs; by destruct (mu s)).
      * unfold Unlock in Hs. by rewrite (inv_mu _ HI _ _ Hg eq_refl) in Hs.
      * by destruct (RW.flusher w).
      * by destruct (GetStatus playerController (sys_player s)).
      * unfold Unlock in Hs. by rewrite (inv_mu _ HI _ _ Hg eq_refl) in Hs.
      * destruct Hp as [Hcl _]. destruct (heap s !! ch) as [c|]; [|done].
        unfold Chan.close in Hs. cbn in Hcl. by destruct (Chan.closed c).
    + destruct pc; cbn in Hs; try done.
      * unfold Lock in Hs. by destruct (mu s).
      * by destruct (json_Marshal st).
      * by case_decide.
      * unfold Unlock in Hs. by rewrite (inv_mu _ HI _ _ Hg eq_refl) in Hs.
  - destruct (procs s !! g) as [[r d w pc|st pc]|] eqn:Hg; try done.
    destruct pc as [| |data todo| |]; try done. cbn in Hs.
    case_decide; [|done]. case_decide; [|done].
    pose proof (inv_live _ HI ch) as Hl. unfold live in Hl.
    destruct (heap s !! ch) as [c|]; [|naive_solver].
    unfold Chan.offer in Hs. cbn in Hl.
    destruct (Chan.closed c); [naive_solver|]. by case_decide.
  - destruct (procs s !! g) as [[r d w pc|st pc]|] eqn:Hg; try done.
    destruct pc; try done. cbn in Hs.
    destruct (heap s !! ch) as [c|]; [|done].
    by destruct (Chan.recv c) as [[]|].
  - destruct (procs s !! g) as [[r d w pc|st pc]|] eqn:Hg; try done.
    destruct pc; try done. cbn in Hs. by destruct d.
Qed.

Lemma run_app (l1 l2 : list (action P)) (s s1 : state P) :
  run l1 s = Continue s1 -> run (l1 ++ l2) s = run l2 s1.
Proof.
  revert s. induction l1 as [|a l1 IH]; intros s; cbn.
  - by intros [= ->].
  - destruct (step a s); try done. apply IH.
Qed.

Lemma run_reachable (l : list (action P)) (s s' : state P) :
  reachable s -> run l s = Continue s' ->
  reachable s'.
Proof.
  revert s. induction l as [|a l IH]; intros s Hr; cbn.
  - by intros [= <-].
  - destruct (step a s) as [s1| |] eqn:Hs; try done.
    apply IH. by eapply reach_step.
Qed.

Lemma visit_live (s : state P) (g : nat) (st : PlayerStatus) (data : string)
    (todo : gset nat) (ch : nat) (c : Chan.t) :
  procs s !! g = Some (GPub st (PubRange data todo)) ->
  ch ∈ todo -> ch ∈ sseClients s ->
  heap s !! ch = Some c -> Chan.closed c = false ->
  step (Visit g ch) s =
    Continue (mkState (sys_player s) (<[ch := deliver data c]> (heap s))
                (sseClients s) (mu s)
                (<[g := GPub st (PubRange data (todo ∖ {[ch]}))]> (procs s))).
Proof.
  intros Hg Hin Hreg Hc Hcl. cbn. rewrite Hg. cbn.
  rewrite !decide_True by done. rewrite Hc.
  unfold Chan.offer, deliver. rewrite Hcl.
  case_decide; [done|]. unfold set_proc.
  by rewrite (insert_id (heap s) ch c).
Qed.

Lemma run_visits (order : list nat) (s : state P) (g : nat) (st : PlayerStatus)
    (data : string) (todo : gset nat) :
  procs s !! g = Some (GPub st (PubRange data todo)) ->
  NoDup order ->
  (forall ch, ch ∈ order -> ch ∈ todo ∧ ch ∈ sseClients s ∧ live s ch) ->
  exists s',
    run (Visit g <$> order) s = Continue s'
    ∧ sys_player s' = sys_player s ∧ sseClients s' = sseClients s
    ∧ mu s' = mu s
    ∧ procs s' =
        <[g := GPub st (PubRange data (todo ∖ list_to_set order))]> (procs s)
    ∧ (forall ch, heap s' !! ch =
                  if decide (ch ∈ order) then deliver data <$> heap s !! ch
                  else heap s !! ch).
Proof.
  revert s todo. induction order as [|ch order IH]; intros s todo Hg Hnd Hall.
  - exists s. cbn. repeat split; try done.
    + rewrite difference_empty_L. by rewrite insert_id.
  - apply NoDup_cons in Hnd as [Hnin Hnd].
    destruct (Hall ch) as (Hin & Hreg & Hlive); [by left|].
    unfold live in Hlive.
    destruct (heap s !! ch) as [c|] eqn:Hc; [|done]. cbn in Hlive.
    injection Hlive as Hcl.
    pose proof (visit_live s g st data todo ch c Hg Hin Hreg Hc Hcl) as Hstep.
    set (s1 := mkState _ _ _ _ _) in Hstep.
    destruct (IH s1 (todo ∖ {[ch]})) as (s' & Hrun & Hp & Hcls & Hmu & Hprocs & Hheap).
    { cbn. by rewrite lookup_insert_eq. }
    { done. }
    { intros ch2 Hin2. destruct (Hall ch2) as (? & ? & Hl2); [by right|].
      assert (ch2 <> ch) by (intros ->; done).
      repeat split; [set_solver|done|].
      unfold live in *. cbn. by rewrite lookup_insert_ne. }
    exists s'. cbn [fmap list_fmap]. change (run (?a :: ?l) s) with
      (match step a s with Continue s' => run l s' | o => o end).
    rewrite Hstep. repeat split; try done.
    + rewrite Hprocs. cbn. rewrite insert_insert_eq. f_equal.
      f_equal. f_equal. set_solver.
    + intros ch2. rewrite Hheap. cbn.
      destruct (decide (ch2 = ch)) as [->|Hne].
      * rewrite decide_False by done. rewrite decide_True by by left.
        by rewrite lookup_insert_eq, Hc.
      * rewrite lookup_insert_ne by done.
        destruct (decide (ch2 ∈ order)).
        -- by rewrite decide_True by by right.
        -- rewrite decide_False; [done|]. by intros [?|?]%elem_of_cons.
Qed.

Lemma BroadcastStatus_runs (s : state P) (g : nat) (status : PlayerStatus)
    (order : list nat) :
  Inv s -> mu s = None -> procs s !! g = None ->
  order ≡ₚ elements (sseClients s) ->
  exists s',
    BroadcastStatus playerController json_Marshal g status order s = Continue s'
    ∧ sys_player s' = sys_player s ∧ sseClients s' = sseClients s
    ∧ mu s' = None
    ∧ procs s' = <[g := GPub status PubReturned]> (procs s)
    ∧ match json_Marshal status with
      | Ok data =>
          forall ch, heap s' !! ch =
                     if decide (ch ∈ sseClients s)
                     then deliver data <$> heap s !! ch
                     else heap s !! ch
      | Err _ => heap s' = heap s
      end.
Proof.
  intros HI Hmu Hg Hperm.
  unfold BroadcastStatus, BroadcastStatus_schedule.
  destruct (json_Marshal status) as [data|e] eqn:Hmar.
  - set (s3 := mkState (sys_player s) (heap s) (sseClients s) (Some g)
                 (<[g := GPub status (PubRange data (sseClients s))]> (procs s))).
    assert (run [Publish g status; Step g; Step g] s = Continue s3) as H3.
    { cbn. rewrite Hg. cbn. rewrite lookup_insert_eq. cbn.
      unfold Lock. cbn. rewrite Hmu. cbn. rewrite lookup_insert_eq. cbn.
      rewrite Hmar. unfold set_proc. cbn. by rewrite !insert_insert_eq. }
    rewrite (run_app _ _ _ _ H3).
    destruct (run_visits order s3 g status data (sseClients s))
      as (s4 & H4 & Hp4 & Hc4 & Hm4 & Hpr4 & Hh4).
    { cbn. by rewrite lookup_insert_eq. }
    { rewrite Hperm. apply NoDup_elements. }
    { intros ch Hin. rewrite Hperm in Hin. apply elem_of_elements in Hin.
      repeat split; try done. by apply (inv_live _ HI). }
    rewrite (run_app _ _ _ _ H4).
    assert (sseClients s ∖ list_to_set order = (∅ : gset nat)) as Hempty.
    { apply set_eq. intros ch. rewrite elem_of_difference, elem_of_list_to_set.
      rewrite Hperm, elem_of_elements. set_solver. }
    rewrite Hempty in Hpr4. cbn in Hpr4. rewrite insert_insert_eq in Hpr4.
    eexists. split.
    { cbn. rewrite Hpr4, lookup_insert_eq. cbn.
      rewrite decide_True by done. unfold set_proc. cbn.
      rewrite lookup_insert_eq. cbn. unfold Unlock. cbn.
      rewrite Hm4. cbn. reflexivity. }
    cbn. rewrite Hpr4, !insert_insert_eq. repeat split; try done.
    intros ch. rewrite Hh4. cbn.
    destruct (decide (ch ∈ sseClients s)) as [Hin|Hnin].
    + rewrite decide_True; [done|]. by rewrite Hperm, elem_of_elements.
    + rewrite decide_False; [done|]. by rewrite Hperm, elem_of_elements.
  - eexists. split.
    { cbn. rewrite Hg. cbn. rewrite lookup_insert_eq. cbn.
      unfold Lock. cbn. rewrite Hmu. cbn. rewrite lookup_insert_eq. cbn.
      rewrite Hmar. unfold set_proc. cbn. rewrite lookup_insert_eq. cbn.
      unfold Unlock. cbn. reflexivity. }
    cbn. by rewrite !insert_insert_eq.
Qed.

Lemma step_sse_cases (a : action P) (s s' : state P) (g : nat)
    (r : Request) (d' : bool) (w' : RW.t) (pc' : sse_pc) :
  step a s = Continue s' ->
  procs s' !! g = Some (GSse r d' w' pc') ->
  (procs s !! g = None ∧ pc' = SseEntry ∧ exists fl, w' = RW.fresh fl)
  ∨ (exists d w pc, procs s !! g = Some (GSse r d w pc) ∧ sse_succ w pc w' pc').
Proof.
  intros Hs Hg'.
  assert (forall x, procs s !! g = Some x -> x = GSse r d' w' pc' ->
            exists d w pc, procs s !! g = Some (GSse r d w pc)
                           ∧ sse_succ w pc w' pc') as Hsame.
  { intros x Hx ->. do 3 eexists. split; [done|constructor]. }
  destruct a as [g0 r0 fl|g0 st|g0|p'|g0|g0 ch|g0|g0]; cbn in Hs.
  - destruct (procs s !! g0) eqn:Hg0; simplify_eq. cbn in Hg'.
    rewrite lookup_insert in Hg'. case_decide; simplify_eq; eauto.
  - destruct (procs s !! g0) eqn:Hg0; simplify_eq. cbn in Hg'.
    rewrite lookup_insert in Hg'. case_decide; simplify_eq; eauto.
  - destruct (procs s !! g0) as [[r0 d0 w0 pc0|]|] eqn:Hg0; simplify_eq.
    cbn in Hg'. rewrite lookup_insert in Hg'. case_decide; simplify_eq.
    + right. do 3 eexists. split; [done|constructor].
    + eauto.
  - simplify_eq. cbn in Hg'. eauto.
  - destruct (procs s !! g0) as [[r0 d0 w0 pc0|st pc0]|] eqn:Hg0; [| |done].
    + destruct pc0; cbn in Hs; unfold Lock, Unlock, Chan.close in Hs;
        repeat match type of Hs with
          | context [match ?x with _ => _ end] => destruct x eqn:?
          end; simplify_eq; cbn in Hg';
        (rewrite lookup_insert in Hg'; case_decide; simplify_eq;
         [right; do 3 eexists; split; [done|by constructor] | by eauto]).
    + destruct pc0; cbn in Hs; unfold Lock, Unlock in Hs;
        repeat match type of Hs with
          | context [match ?x with _ => _ end] => destruct x eqn:?
          end; simplify_eq; cbn in Hg';
        (rewrite lookup_insert in Hg'; case_decide; simplify_eq; by eauto).
  - destruct (procs s !! g0) as [[r0 d0 w0 pc0|st pc0]|] eqn:Hg0; try done.
    destruct pc0; try done; cbn in Hs; unfold Chan.offer in Hs;
      repeat match type of Hs with
        | context [match ?x with _ => _ end] => destruct x eqn:?
        end; simplify_eq; cbn in Hg';
      (rewrite lookup_insert in Hg'; case_decide; simplify_eq; by eauto).
  - destruct (procs s !! g0) as [[r0 d0 w0 pc0|st pc0]|] eqn:Hg0; try done.
    destruct pc0; try done; cbn in Hs.
    destruct (heap s !! ch) as [c|]; [|done].
    destruct (Chan.recv c) as [[data c']|]; simplify_eq. cbn in Hg'.
    rewrite lookup_insert in Hg'. case_decide; simplify_eq; [|by eauto].
    right. do 3 eexists. split; [done|by constructor].
  - destruct (procs s !! g0) as [[r0 d0 w0 pc0|st pc0]|] eqn:Hg0; try done.
    destruct pc0; try done; cbn in Hs. destruct d0; simplify_eq.
    cbn in Hg'. rewrite lookup_insert in Hg'.
    case_decide; simplify_eq; [|by eauto].
    right. do 3 eexists. split; [done|by constructor].
Qed.

Lemma push_frame_fields (data : string) (w : RW.t) :
  RW.pending (push_frame data w) = []
  ∧ RW.flushed (push_frame data w) = RW.flushed w ++ RW.pending w ++ [frame data]
  ∧ RW.flusher (push_frame data w) = RW.flusher w
  ∧ RW.status (push_frame data w) = Some (default StatusOK (RW.status w)).
Proof.
  unfold push_frame, RW.Flush, RW.Write, RW.WriteHeader.
  destruct (RW.status w) eqn:E; cbn; by rewrite ?E.
Qed.

Lemma push_frame_untouched (data : string) (w : RW.t) :
  untouched w ->
  RW.status (push_frame data w) = Some StatusOK
  ∧ RW.pending (push_frame data w) = []
  ∧ RW.flushed (push_frame data w) = [frame data]
  ∧ RW.flusher (push_frame data w) = RW.flusher w.
Proof.
  intros (Hs & Hp & Hf). unfold push_frame, RW.Flush, RW.Write, RW.WriteHeader.
  rewrite Hs. cbn. by rewrite Hp, Hf.
Qed.

Lemma push_frame_streaming (data : string) (w : RW.t) :
  streaming w -> streaming (push_frame data w).
Proof.
  intros (Hfl & Hs & Hp & d0 & rest & Hf).
  unfold streaming, push_frame, RW.Flush, RW.Write, RW.WriteHeader.
  rewrite Hs. cbn. rewrite Hs, Hp, Hf. repeat split; try done.
  exists d0, (rest ++ [data]). cbn. by rewrite fmap_app.
Qed.

Lemma Error_untouched (w : RW.t) :
  untouched w -> RW.flusher w = false ->
  refused (RW.Error "Streaming unsupported!" StatusInternalServerError w).
Proof.
  intros (Hs & Hp & Hf) Hfl.
  unfold refused, RW.Error, RW.Write, RW.WriteHeader, RW.Header_Set. cbn.
  rewrite Hs. cbn. by rewrite Hp, Hf, Hfl.
Qed.

Lemma rw_ok_succ (w w' : RW.t) (pc pc' : sse_pc) :
  rw_ok w pc -> sse_succ w pc w' pc' -> rw_ok w' pc'.
Proof.
  intros Hw Hsucc. destruct Hsucc; cbn in *; try done.
  - right. by apply Error_untouched.
  - destruct Hw as [Hfl Hw].
    destruct (push_frame_untouched data w Hw) as (? & ? & ? & ?).
    repeat split; try done; [congruence|]. by exists data, [].
  - by apply push_frame_streaming.
  - by left.
Qed.

Lemma reachable_rw_ok (s : state P) (g : nat) (r : Request) (d : bool)
    (w : RW.t) (pc : sse_pc) :
  reachable s ->
  procs s !! g = Some (GSse r d w pc) -> rw_ok w pc.
Proof.
  intros Hr. revert g r d w pc.
  induction Hr as [p|a s s' _ IH Hs]; intros g r d w pc Hg; [done|].
  destruct (step_sse_cases _ _ _ _ _ _ _ _ Hs Hg)
    as [(_ & -> & fl & ->)|(d0 & w0 & pc0 & Hg0 & Hsucc)]; [done|].
  eapply rw_ok_succ; [|done]. by eapply IH.
Qed.

Lemma step_keeps (a : action P) (s s' : state P) (g : nat) (x : goroutine) :
  step a s = Continue s' -> procs s !! g = Some x ->
  exists x', procs s' !! g = Some x' ∧ same_call x x'.
Proof.
  intros Hs Hg.
  assert (same_call x x) as Hrefl by by destruct x.
  destruct a as [g0 r0 fl|g0 st|g0|p'|g0|g0 ch|g0|g0]; cbn in Hs;
    try (destruct (procs s !! g0) as [[r0 d0 w0 pc0|st0 pc0]|] eqn:Hg0;
         try done);
    try (destruct pc0; try done; cbn in Hs);
    unfold Lock, Unlock, Chan.close, Chan.offer in Hs;
    repeat match type of Hs with
      | context [match ?x with _ => _ end] => destruct x eqn:?
      end; simplify_eq; cbn;
    try (rewrite lookup_insert; destruct (decide (g0 = g)); simplify_eq);
    eauto.
Qed.

Lemma step_sse_persist (a : action P) (s s' : state P) (g : nat)
    (r : Request) (d : bool) (w : RW.t) (pc : sse_pc) :
  step a s = Continue s' -> procs s !! g = Some (GSse r d w pc) ->
  exists d' w' pc',
    procs s' !! g = Some (GSse r d' w' pc') ∧ sse_succ w pc w' pc'.
Proof.
  intros Hs Hg. destruct (step_keeps _ _ _ _ _ Hs Hg) as (x' & Hg' & Hk).
  destruct x' as [r' d' w' pc'|]; [|done]. cbn in Hk. subst r'.
  destruct (step_sse_cases _ _ _ _ _ _ _ _ Hs Hg')
    as [(Hn & _)|(d0 & w0 & pc0 & Hg0 & Hsucc)]; [congruence|].
  simplify_eq. by eauto.
Qed.

Lemma leads_with_succ (data0 : string) (w w' : RW.t) (pc pc' : sse_pc) :
  leads_with data0 w pc -> sse_succ w pc w' pc' -> leads_with data0 w' pc'.
Proof.
  intros (Hpc & Hp & later & Hf) Hsucc.
  destruct Hsucc as [pc0|ch|ch|ch|ch|ch ?|ch ?|ch data|ch data|ch|ch|ch|ch|ch];
    cbn in *; try done; try by (repeat split; eauto).
  destruct (push_frame_fields data w) as (Hp' & Hf' & _).
  split; [done|]. split; [done|]. exists (later ++ [data]).
  by rewrite Hf', Hp, Hf, fmap_app.
Qed.

Lemma leads_with_run (l : list (action P)) (data0 : string) (s s' : state P)
    (g : nat) (r : Request) (d : bool) (w : RW.t) (pc : sse_pc) :
  procs s !! g = Some (GSse r d w pc) -> leads_with data0 w pc ->
  run l s = Continue s' ->
  exists d' w' pc',
    procs s' !! g = Some (GSse r d' w' pc') ∧ leads_with data0 w' pc'.
Proof.
  revert s d w pc. induction l as [|a l IH]; intros s d w pc Hg Hl; cbn.
  - intros [= <-]. by eauto.
  - destruct (step a s) as [s1| |] eqn:Hs; try done.
    destruct (step_sse_persist _ _ _ _ _ _ _ _ Hs Hg)
      as (d1 & w1 & pc1 & Hg1 & Hsucc).
    apply (IH s1 d1 w1 pc1 Hg1). by eapply leads_with_succ.
Qed.

Lemma holder_can_run (s : state P) (h : nat) :
  Inv s -> mu s = Some h -> can_run s h.
Proof.
  intros HI Hmu. destruct (inv_held _ HI _ Hmu) as (x & Hx & Hh).
  pose proof (inv_proc _ HI _ _ Hx) as Hp.
  destruct x as [r d w pc|st pc]; destruct pc; try done; cbn in Hp.
  1-4: exists (Step h); eexists; (split; [by left|]); cbn; rewrite Hx; cbn;
       unfold Unlock; rewrite ?Hmu; reflexivity.
  - exists (Step h). destruct (json_Marshal st) eqn:Hmar;
      eexists; (split; [by left|]); cbn; rewrite Hx; cbn; rewrite Hmar;
      reflexivity.
  - destruct (decide (todo = ∅)) as [->|Hne].
    + exists (Step h). eexists. split; [by left|]. cbn. rewrite Hx. cbn.
      reflexivity.
    + apply set_choose_L in Hne as [ch Hin].
      assert (ch ∈ sseClients s) as Hreg by set_solver.
      pose proof (inv_live _ HI _ Hreg) as Hl. unfold live in Hl.
      destruct (heap s !! ch) as [c|] eqn:Hc; [|done]. cbn in Hl.
      injection Hl as Hcl.
      exists (Visit h ch). eexists. split; [right; left; by eauto|].
      by eapply visit_live.
  - exists (Step h). eexists. split; [by left|]. cbn. rewrite Hx. cbn.
    unfold Unlock. rewrite Hmu. reflexivity.
Qed.

Lemma free_lock_can_run (s : state P) (g : nat) (st : PlayerStatus) :
  procs s !! g = Some (GPub st PubLock) -> mu s = None -> can_run s g.
Proof.
  intros Hg Hmu. exists (Step g). eexists. split; [by left|].
  cbn. rewrite Hg. cbn. unfold Lock. rewrite Hmu. reflexivity.
Qed.

Lemma size_remove (todo : gset nat) (ch : nat) :
  ch ∈ todo -> size (todo ∖ {[ch]}) < size todo.
Proof.
  intros Hin.
  assert ({[ch]} ## todo ∖ {[ch]}) as Hdisj by set_solver.
  pose proof (size_union (C := gset nat) {[ch]} (todo ∖ {[ch]}) Hdisj) as Hsz.
  rewrite <- (union_difference_singleton_L ch todo Hin) in Hsz.
  rewrite size_singleton in Hsz. lia.
Qed.

(** A step of the holder of the mutex gives the mutex back or brings the
    holder closer to giving it back. *)
Lemma holder_step (a : action P) (s s' : state P) (h : nat) (x : goroutine) :
  Inv s -> mu s = Some h -> procs s !! h = Some x -> runs_as a h ->
  step a s = Continue s' ->
  mu s' = None
  ∨ (mu s' = Some h
     ∧ exists x', procs s' !! h = Some x' ∧ hold_steps s' x' < hold_steps s x).
Proof.
  intros HI Hmu Hx Ha Hs.
  destruct (inv_held _ HI _ Hmu) as (x0 & Hx0 & Hh). simplify_eq.
  destruct Ha as [->|[[ch ->]|[->| ->]]]; cbn in Hs; rewrite Hx in Hs;
    destruct x as [r d w pc|st pc]; destruct pc; try done; cbn in Hs;
    unfold Unlock in Hs; rewrite ?Hmu in Hs.
  - simplify_eq. right. cbn. rewrite lookup_insert_eq. eauto.
  - simplify_eq. by left.
  - simplify_eq. right. cbn. rewrite lookup_insert_eq. eauto.
  - simplify_eq. by left.
  - right. destruct (json_Marshal st); simplify_eq; cbn;
      rewrite lookup_insert_eq; (split; [done|]); eexists; (split; [done|]);
      cbn; lia.
  - case_decide; simplify_eq. right. cbn. rewrite lookup_insert_eq.
    split; [done|]. eexists. split; [done|]. cbn. lia.
  - simplify_eq. by left.
  - right. case_decide as Hin; [|done].
    assert (mu s' = Some h
            ∧ procs s' !! h = Some (GPub st (PubRange data (todo ∖ {[ch]}))))
      as [Hmu' Hx'].
    { unfold Chan.offer in Hs.
      repeat match type of Hs with
        | context [match ?y with _ => _ end] => destruct y eqn:?
        end; simplify_eq; cbn; by rewrite lookup_insert_eq. }
    split; [done|]. eexists. split; [done|]. cbn.
    pose proof (size_remove todo ch Hin). lia.
Qed.

(** A step of any other goroutine, or of the environment, leaves the
    mutex with its holder and the holder where it is. *)
Lemma holder_waits (a : action P) (s s' : state P) (h : nat) (x : goroutine) :
  Inv s -> mu s = Some h -> procs s !! h = Some x -> ~ runs_as a h ->
  step a s = Continue s' ->
  mu s' = Some h
  ∧ exists x', procs s' !! h = Some x' ∧ hold_steps s' x' = hold_steps s x.
Proof.
  intros HI Hmu Hx Ha Hs.
  assert (forall g y, g <> h -> procs s !! g = Some y -> holds_mu y = false)
    as Hothers.
  { intros g y Hne Hy. destruct (holds_mu y) eqn:Hhy; [|done].
    pose proof (inv_mu _ HI _ _ Hy Hhy). congruence. }
  assert (forall g, a = Step g ∨ (exists ch, a = Visit g ch) ∨ a = Recv g
                    ∨ a = Quit g -> g <> h) as Hne.
  { intros g Hg ->. by apply Ha. }
  destruct a as [g r fl|g st|g|p'|g|g ch|g|g]; cbn in Hs.
  - destruct (procs s !! g) eqn:Hg; simplify_eq. cbn.
    rewrite lookup_insert_ne by congruence. eauto.
  - destruct (procs s !! g) eqn:Hg; simplify_eq. cbn.
    rewrite lookup_insert_ne by congruence. eauto.
  - destruct (procs s !! g) as [[r d w pc|]|] eqn:Hg; simplify_eq. cbn.
    rewrite lookup_insert. case_decide; simplify_eq; eauto.
  - simplify_eq. cbn. eauto.
  - assert (g <> h) as Hgh by (apply Hne; by left).
    destruct (procs s !! g) as [[r d w pc|st pc]|] eqn:Hg; [| |done];
      pose proof (Hothers _ _ Hgh Hg) as Hnh;
      destruct pc; try done; cbn in Hs;
      unfold Lock, Chan.close in Hs; rewrite ?Hmu in Hs; try done;
      repeat match type of Hs with
        | context [match ?y with _ => _ end] => destruct y eqn:?
        end; simplify_eq; cbn; rewrite lookup_insert_ne by done; eauto.
  - assert (g <> h) as Hgh by (apply Hne; right; left; by eauto).
    destruct (procs s !! g) as [[r d w pc|st pc]|] eqn:Hg; try done.
    pose proof (Hothers _ _ Hgh Hg) as Hnh. by destruct pc.
  - assert (g <> h) as Hgh by (apply Hne; right; right; by left).
    destruct (procs s !! g) as [[r d w pc|st pc]|] eqn:Hg; try done.
    destruct pc; try done; cbn in Hs.
    repeat match type of Hs with
      | context [match ?y with _ => _ end] => destruct y eqn:?
      end; simplify_eq; cbn; rewrite lookup_insert_ne by done; eauto.
  - assert (g <> h) as Hgh by (apply Hne; right; right; by right).
    destruct (procs s !! g) as [[r d w pc|st pc]|] eqn:Hg; try done.
    destruct pc; try done; cbn in Hs. destruct d; simplify_eq. cbn.
    rewrite lookup_insert_ne by done. eauto.
Qed.

Lemma sseHandler_opening_runs (s : state P) (g : nat) (r : Request) (fl : bool) :
  mu s = None -> procs s !! g = None ->
  run (sseHandler_opening g r fl) s =
    Continue (mkState (sys_player s)
                (<[fresh (dom (heap s)) := Chan.make 1]> (heap s))
                ({[fresh (dom (heap s))]} ∪ sseClients s) None
                (<[g := GSse r false (sse_headers (RW.fresh fl))
                          (SseCheckFlusher (fresh (dom (heap s))))]> (procs s))).
Proof.
  intros Hmu Hg. unfold sseHandler_opening. cbn. rewrite Hg. cbn.
  rewrite lookup_insert_eq. cbn. rewrite lookup_insert_eq. cbn.
  unfold Lock. cbn. rewrite Hmu. cbn. rewrite lookup_insert_eq. cbn.
  rewrite lookup_insert_eq. cbn. unfold Unlock. cbn.
  by rewrite !insert_insert_eq.
Qed.

Lemma step_as_get (a : action P) (s : state P) :
  step (action_as_get a) (state_as_get s) = outcome_as_get (step a s).
Proof.
  destruct a as [g r fl|g st|g|p'|g|g ch|g|g]; cbn;
    rewrite ?lookup_fmap;
    try (destruct (procs s !! g) as [[r0 d0 w0 pc0|st0 pc0]|] eqn:Hg;
         cbn; try done);
    try (destruct pc0; cbn; try done);
    unfold Lock, Unlock, set_proc, state_as_get; cbn;
    repeat match goal with
      | |- context [match ?x with _ => _ end] => destruct x eqn:?; cbn
      end;
    unfold state_as_get; cbn; rewrite ?fmap_insert; try done.
Qed.

Lemma run_as_get (l : list (action P)) (s : state P) :
  run (action_as_get <$> l) (state_as_get s) = outcome_as_get (run l s).
Proof.
  revert s. induction l as [|a l IH]; intros s; [done|].
  cbn. rewrite step_as_get. destruct (step a s); cbn; [apply IH|done..].
Qed.

Lemma frame_not_unsupported (data : string) : frame data <> unsupported_reply.
Proof. unfold frame, unsupported_reply. cbn. discriminate. Qed.

(** C2. From any reachable state with the mutex free, a call of
    [BroadcastStatus] runs to its end, whatever the order of the
    [range]: it serializes the status once and offers the same text to
    every registered channel; a channel with room gets it appended, a
    full channel is left as it is, unregistered channels are not
    touched, and with an empty registry no channel changes. *)
Theorem BroadcastStatus_delivers (s : state P) (g : nat)
    (status : PlayerStatus) (order : list nat) :
  reachable s -> mu s = None -> procs s !! g = None ->
  order ≡ₚ elements (sseClients s) ->
  exists s',
    BroadcastStatus playerController json_Marshal g status order s = Continue s'
    ∧ sseClients s' = sseClients s ∧ mu s' = None
    ∧ sys_player s' = sys_player s
    ∧ procs s' = <[g := GPub status PubReturned]> (procs s)
    ∧ (forall ch, ch ∉ sseClients s -> heap s' !! ch = heap s !! ch)
    ∧ (sseClients s = ∅ -> heap s' = heap s)
    ∧ (forall data, json_Marshal status = Ok data ->
         forall ch, ch ∈ sseClients s ->
           exists c, heap s !! ch = Some c
             ∧ (length (Chan.buf c) < Chan.cap c ->
                  heap s' !! ch =
                    Some (Chan.mk (Chan.buf c ++ [data]) (Chan.cap c) false))
             ∧ (Chan.cap c <= length (Chan.buf c) -> heap s' !! ch = Some c))
    ∧ (forall e, json_Marshal status = Err e -> heap s' = heap s).
Proof.
  intros Hr Hmu Hg Hperm. pose proof (reachable_Inv _ Hr) as HI.
  destruct (BroadcastStatus_runs s g status order HI Hmu Hg Hperm)
    as (s' & Hrun & Hp & Hcl & Hmu' & Hprocs & Hheap).
  exists s'. do 5 (split; [done|]).
  destruct (json_Marshal status) as [data|e] eqn:Hmar.
  - split; [|split; [|split]].
    + intros ch Hnin. by rewrite Hheap, decide_False.
    + intros Hempty. apply map_eq. intros ch.
      rewrite Hheap, decide_False; [done|]. rewrite Hempty. set_solver.
    + intros ? [= <-] ch Hin. pose proof (inv_live _ HI _ Hin) as Hl.
      unfold live in Hl. destruct (heap s !! ch) as [c|] eqn:Hc; [|done].
      exists c. split; [done|]. rewrite Hheap, decide_True by done.
      rewrite Hc. unfold deliver.
      split; intros Hlen; cbn; case_decide; (done || lia).
    + done.
  - rewrite Hheap. split; [done|]. split; [done|]. split; [done|]. done.
Qed.

(** C3. In every reachable state each registered channel is allocated
    and open; a handler about to close its channel has removed it from
    the registry, and the channel is still open at that point; no step
    of any goroutine panics (no send on a closed channel, no second
    close, no unlock of an unlocked mutex); the holder of the mutex can
    always take its next step, and gives the mutex back within
    [hold_steps] of its own steps whatever the others do; and a
    publisher that has not returned can take its next step unless it
    waits for the mutex held by another goroutine. *)
Theorem registry_channels_live (s : state P) :
  reachable s ->
  (forall ch, ch ∈ sseClients s -> live s ch)
  ∧ (forall g r d w ch,
       procs s !! g = Some (GSse r d w (SseDeferClose ch)) ->
       (ch ∉ sseClients s) ∧ live s ch)
  ∧ (forall a msg, step a s <> Panic msg)
  ∧ (forall h, mu s = Some h -> can_run s h)
  ∧ (forall h x a s',
       mu s = Some h -> procs s !! h = Some x -> step a s = Continue s' ->
       (runs_as a h ->
        mu s' = None
        ∨ (mu s' = Some h
           ∧ exists x', procs s' !! h = Some x'
                        ∧ hold_steps s' x' < hold_steps s x))
       ∧ (~ runs_as a h ->
          mu s' = Some h
          ∧ exists x', procs s' !! h = Some x'
                       ∧ hold_steps s' x' = hold_steps s x))
  ∧ (forall g status pc,
       procs s !! g = Some (GPub status pc) -> pc <> PubReturned ->
       can_run s g
       ∨ (pc = PubLock ∧ exists h, h <> g ∧ mu s = Some h ∧ can_run s h)).
Proof.
  intros Hr. pose proof (reachable_Inv _ Hr) as HI.
  split; [apply (inv_live _ HI)|]. split; [|split; [|split; [|split]]].
  - intros g r d w ch Hg. pose proof (inv_proc _ HI _ _ Hg) as [Hc Hn].
    cbn in Hc, Hn. split; [|done]. intros Hin. by apply Hn in Hin.
  - intros a msg. by apply Inv_no_panic.
  - intros h. by apply holder_can_run.
  - intros h x a s' Hmu Hx Hs. split; intros Ha.
    + by eapply holder_step.
    + by eapply holder_waits.
  - intros g status pc Hg Hpc. destruct (mu s) as [h|] eqn:Hmu.
    + destruct (decide (h = g)) as [->|Hne].
      * left. by apply holder_can_run.
      * right. split.
        -- destruct pc; try done;
             pose proof (inv_mu _ HI _ _ Hg eq_refl); congruence.
        -- exists h. repeat split; [done..|]. by apply holder_can_run.
    + left. destruct pc; try done;
        try (pose proof (inv_mu _ HI _ _ Hg eq_refl); congruence).
      by eapply free_lock_can_run.
Qed.

(** C8. A handler whose connection cannot flush never stands at the
    initial push or in the relay loop and never has an event frame
    among its chunks. At the check its next step is never blocked and
    answers 500 with the plain-text reply; from there it only runs its
    deferred cleanup. *)
Theorem no_flusher_500 (s : state P) (g : nat) (r : Request) (d : bool)
    (w : RW.t) (pc : sse_pc) :
  reachable s ->
  procs s !! g = Some (GSse r d w pc) ->
  RW.flusher w = false ->
  (forall ch, pc <> SseInitial ch ∧ pc <> SseLoop ch)
  ∧ (forall data, frame data ∉ RW.chunks w)
  ∧ (forall ch, pc = SseCheckFlusher ch ->
       RW.status w = None ∧ RW.chunks w = []
       ∧ exists s' w',
           step (Step g) s = Continue s'
           ∧ procs s' !! g = Some (GSse r d w' (SseDeferLock ch))
           ∧ RW.status w' = Some StatusInternalServerError
           ∧ RW.chunks w' = [unsupported_reply])
  ∧ (forall ch,
       pc ∈ [SseDeferLock ch; SseDeferDelete ch; SseDeferUnlock ch;
             SseDeferClose ch; SseReturned ch] ->
       RW.status w = Some StatusInternalServerError
       ∧ RW.chunks w = [unsupported_reply]).
Proof.
  intros Hr Hg Hfl. pose proof (reachable_rw_ok _ _ _ _ _ _ Hr Hg) as Hw.
  assert (rw_ok w pc ->
          untouched w ∨ refused w) as Hcases.
  { destruct pc; cbn; unfold streaming; naive_solver congruence. }
  split; [|split; [|split]].
  - intros ch. split; intros ->; cbn in Hw.
    + destruct Hw as [? _]. congruence.
    + destruct Hw as [? _]. congruence.
  - intros data. unfold RW.chunks.
    destruct (Hcases Hw) as [(_ & -> & ->)|(_ & _ & -> & ->)]; cbn.
    + apply not_elem_of_nil.
    + intros Hin%list_elem_of_singleton. by eapply frame_not_unsupported.
  - intros ch ->. cbn in Hw. destruct Hw as (Hst & Hpe & Hfd).
    split; [done|]. split; [unfold RW.chunks; by rewrite Hpe, Hfd|].
    destruct (Error_untouched w (conj Hst (conj Hpe Hfd)) Hfl)
      as (_ & Hs' & Hf' & Hp').
    eexists _, _. split.
    { cbn. rewrite Hg. cbn. rewrite Hfl. reflexivity. }
    cbn. rewrite lookup_insert_eq. split; [done|]. split; [done|].
    unfold RW.chunks. by rewrite Hf', Hp'.
  - intros ch Hin.
    assert (refused w) as (_ & Hs' & Hf' & Hp').
    { repeat (apply elem_of_cons in Hin as [->|Hin]);
        try (by apply elem_of_nil in Hin);
        cbn in Hw; destruct Hw as [(? & _)|?]; (congruence || done). }
    split; [done|]. unfold RW.chunks. by rewrite Hf', Hp'.
Qed.

(** C10. [sseHandler] never reads the method of its request. Every
    step of the system, and so every schedule, does the same whether
    the requests carry their own methods or are all GET; whatever the
    method, the opening statements of the handler register a new open
    channel; and no response of the handler ever carries status 405. *)
Theorem events_ignore_method (s : state P) (g : nat) (r : Request)
    (d : bool) (w : RW.t) (pc : sse_pc) :
  reachable s ->
  procs s !! g = Some (GSse r d w pc) ->
  RW.status w <> Some StatusMethodNotAllowed
  ∧ (forall a, step (action_as_get a) (state_as_get s)
               = outcome_as_get (step a s))
  ∧ (forall l, run (action_as_get <$> l) (state_as_get s)
               = outcome_as_get (run l s))
  ∧ (forall g' r' fl,
       mu s = None -> procs s !! g' = None ->
       exists s' ch,
         run (sseHandler_opening g' r' fl) s = Continue s'
         ∧ procs s' !! g' =
             Some (GSse r' false (sse_headers (RW.fresh fl)) (SseCheckFlusher ch))
         ∧ (ch ∉ sseClients s) ∧ ch ∈ sseClients s' ∧ live s' ch).
Proof.
  intros Hr Hg. pose proof (reachable_rw_ok _ _ _ _ _ _ Hr Hg) as Hw.
  split; [|split; [|split]].
  - intros Hst.
    assert (RW.status w = None ∨ RW.status w = Some StatusOK
            ∨ RW.status w = Some StatusInternalServerError) as Hcases.
    { destruct pc; cbn in Hw; unfold untouched, streaming, refused in Hw;
        naive_solver. }
    rewrite Hst in Hcases. by destruct Hcases as [?|[?|?]].
  - intros a. apply step_as_get.
  - intros l. apply run_as_get.
  - intros g' r' fl Hmu Hg'. eexists _, _. split.
    { by apply sseHandler_opening_runs. }
    cbn. rewrite lookup_insert_eq. split; [done|].
    pose proof (is_fresh (dom (heap s))) as Hf. split; [|split].
    + intros Hin. apply Hf, elem_of_dom.
      pose proof (inv_live _ (reachable_Inv _ Hr) _ Hin) as Hl.
      unfold live in Hl. by destruct (heap s !! _).
    + set_solver.
    + unfold live. cbn. by rewrite lookup_insert_eq.
Qed.

End ServerProps.

(* ===================================================================== *)
(** ** The initial frame                                                 *)
(* ===================================================================== *)

(** Destructs every [match] left in the hypothesis of a step. *)
Ltac break_step Hs :=
  unfold Lock, Unlock, Chan.close, Chan.offer, Chan.recv, set_proc in Hs;
  repeat match type of Hs with
    | context [match ?y with _ => _ end] => destruct y eqn:?
    end;
  simplify_eq.

Section InitialFrame.

Context {P : Type}.
Variable playerController : PlayerController P.
Variable json_Marshal : PlayerStatus -> result string.

Local Abbreviation step := (step playerController json_Marshal).
Local Abbreviation run := (run playerController json_Marshal).
Local Abbreviation reachable := (reachable playerController json_Marshal).
Local Abbreviation can_run := (can_run playerController json_Marshal).

(** The serialized status of the player as it is in [s], with the
    error of [json.Marshal] dropped as line 113 drops it. *)
Local Abbreviation status_at s :=
  (bytes_of (json_Marshal (GetStatus playerController (sys_player s)).1)).

Lemma run_cons (a : action P) (l : list (action P)) (s : state P) :
  run (a :: l) s
  = match step a s with Continue s' => run l s' | o => o end.
Proof. done. Qed.

Lemma sse_succ_flusher (w w' : RW.t) (pc pc' : sse_pc) :
  sse_succ w pc w' pc' -> RW.flusher w' = RW.flusher w.
Proof.
  intros Hsucc. destruct Hsucc; try done.
  - unfold RW.Error, RW.Write, RW.WriteHeader, RW.Header_Set. cbn.
    by destruct (RW.status w).
  - by destruct (push_frame_fields data w) as (_ & _ & ? & _).
  - by destruct (push_frame_fields data w) as (_ & _ & ? & _).
Qed.

(** What a step of the system does to a handler that stands at the
    initial push: nothing, or it is the handler's own step, which
    writes the frame of the player's status. *)
Lemma step_from_initial (a : action P) (s s' : state P) (g : nat)
    (r : Request) (d d' : bool) (w w' : RW.t) (ch : nat) (pc' : sse_pc) :
  step a s = Continue s' ->
  procs s !! g = Some (GSse r d w (SseInitial ch)) ->
  procs s' !! g = Some (GSse r d' w' pc') ->
  (pc' = SseInitial ch ∧ w' = w)
  ∨ (a = Step g ∧ pc' = SseLoop ch ∧ w' = push_frame (status_at s) w).
Proof.
  intros Hs Hg Hg'.
  destruct a as [g0 r0 fl|g0 st|g0|p'|g0|g0 ch0|g0|g0]; cbn in Hs;
    try (destruct (procs s !! g0) as [[r1 d1 w1 pc1|st1 pc1]|] eqn:Hg0;
         try done);
    try (destruct (decide (g0 = g)) as [->|Hne];
         [rewrite Hg in Hg0;
          first [discriminate Hg0 | injection Hg0 as <- <- <- <-]|]);
    try (destruct pc1; try done); cbn in Hs;
    break_step Hs; cbn in Hg';
    rewrite ?lookup_insert_eq in Hg';
    rewrite ?lookup_insert_ne in Hg' by done;
    simplify_eq; try (by left).
  right. by destruct (GetStatus playerController (sys_player s)).
Qed.

(** A handler that can flush and is past its initial push came through
    it: some earlier state had it at the initial push with nothing
    written, its own step from there led to the present state, and the
    frame of the player's status in that earlier state is the first
    chunk on the wire. *)
Lemma entered_by_initial_push (s : state P) (g : nat) (r : Request)
    (d : bool) (w : RW.t) (pc : sse_pc) :
  reachable s ->
  procs s !! g = Some (GSse r d w pc) ->
  before_loop pc = false -> RW.flusher w = true ->
  exists s0 d0 w0 ch l later,
    reachable s0
    ∧ procs s0 !! g = Some (GSse r d0 w0 (SseInitial ch))
    ∧ untouched w0
    ∧ run (Step g :: l) s0 = Continue s
    ∧ RW.flushed w = frame (status_at s0) :: (frame <$> later)
    ∧ RW.pending w = [].
Proof.
  intros Hr. revert g r d w pc.
  induction Hr as [p|a s s' Hr IH Hs]; intros g r d' w' pc' Hg' Hpc' Hfl';
    [done|].
  destruct (step_sse_cases _ _ _ _ _ _ _ _ _ _ Hs Hg')
    as [(_ & -> & _)|(d & w & pc & Hg & Hsucc)]; [done|].
  pose proof (sse_succ_flusher _ _ _ _ Hsucc) as Hfl.
  rewrite Hfl' in Hfl. symmetry in Hfl.
  pose proof (reachable_rw_ok _ _ _ _ _ _ _ _ Hr Hg) as Hrw.
  destruct (before_loop pc) eqn:Hpc.
  - (* the step that enters the loop *)
    assert (exists ch, pc = SseInitial ch) as [ch ->].
    { destruct Hsucc; cbn in *; try done; try congruence; by eauto. }
    destruct (step_from_initial _ _ _ _ _ _ _ _ _ _ _ Hs Hg Hg')
      as [[-> _]|(-> & -> & ->)]; [done|].
    destruct Hrw as [_ Hun].
    destruct (push_frame_untouched (status_at s) w Hun) as (_ & Hpe & Hf & _).
    exists s, d, w, ch, [], []. repeat split; try done; try apply Hun.
    by rewrite run_cons, Hs.
  - destruct (IH _ _ _ _ _ Hg Hpc Hfl)
      as (s0 & d0 & w0 & ch & l & later & Hr0 & Hg0 & Hun & Hrun & Hf & Hpe).
    assert (leads_with (status_at s0) w pc) as Hl.
    { split; [by destruct pc|]. split; [done|]. by exists later. }
    destruct (leads_with_succ _ _ _ _ _ Hl Hsucc) as (_ & Hpe' & later' & Hf').
    exists s0, d0, w0, ch, (l ++ [a]), later'. repeat split; try done;
      try apply Hun.
    change (Step g :: l ++ [a]) with ((Step g :: l) ++ [a]).
    by rewrite (run_app _ _ _ _ _ _ Hrun), run_cons, Hs.
Qed.

(** Before the relay loop a handler is never stuck: it can run, or it
    waits at line 94 for the mutex, whose holder can run. *)
Lemma before_loop_progress (s : state P) (g : nat) (r : Request) (d : bool)
    (w : RW.t) (pc : sse_pc) :
  reachable s ->
  procs s !! g = Some (GSse r d w pc) -> before_loop pc = true ->
  can_run s g
  ∨ exists ch h, pc = SseRegLock ch ∧ mu s = Some h ∧ h <> g ∧ can_run s h.
Proof.
  intros Hr Hg Hpc. pose proof (reachable_Inv _ _ _ Hr) as HI.
  assert (forall s', step (Step g) s = Continue s' -> can_run s g) as Hstep.
  { intros s' Hs. exists (Step g), s'. split; [by left|done]. }
  destruct pc as [|ch|ch|ch|ch|ch|ch|ch|ch|ch|ch|ch]; try done.
  - left. eapply Hstep. cbn. rewrite Hg. cbn. reflexivity.
  - destruct (mu s) as [h|] eqn:Hmu.
    + right. exists ch, h. split; [done|]. split; [done|]. split.
      * intros ->. destruct (inv_held _ HI _ Hmu) as (x & Hx & Hh).
        rewrite Hg in Hx. by simplify_eq.
      * by apply holder_can_run.
    + left. eapply Hstep. cbn. rewrite Hg. cbn. unfold Lock.
      rewrite Hmu. reflexivity.
  - left. eapply Hstep. cbn. rewrite Hg. cbn. reflexivity.
  - left. apply holder_can_run; [done|]. by eapply (inv_mu _ HI).
  - left. destruct (RW.flusher w) eqn:Hfl.
    + eapply Hstep. cbn. rewrite Hg. cbn. rewrite Hfl. reflexivity.
    + eapply Hstep. cbn. rewrite Hg. cbn. rewrite Hfl. reflexivity.
  - left. destruct (GetStatus playerController (sys_player s)) as [st p'] eqn:Hst.
    eapply Hstep. cbn. rewrite Hg. cbn. rewrite Hst. reflexivity.
Qed.

Lemma sseHandler_connect_runs (s : state P) (g : nat) (r : Request) :
  mu s = None -> procs s !! g = None ->
  let ch := fresh (dom (heap s)) in
  run (sseHandler_connect g r) s =
    Continue (mkState (GetStatus playerController (sys_player s)).2
                (<[ch := Chan.make 1]> (heap s))
                ({[ch]} ∪ sseClients s) None
                (<[g := GSse r false
                          (push_frame (status_at s) (sse_headers (RW.fresh true)))
                          (SseLoop ch)]> (procs s))).
Proof.
  intros Hmu Hg ch. unfold sseHandler_connect.
  rewrite (run_app _ _ _ _ _ _
             (sseHandler_opening_runs playerController json_Marshal s g r true
                Hmu Hg)).
  cbn. rewrite lookup_insert_eq. cbn. rewrite lookup_insert_eq. cbn.
  destruct (GetStatus playerController (sys_player s)) as [st p'].
  cbn. by rewrite !insert_insert_eq.
Qed.

(** C4. A connection that can flush, accepted while the mutex is free,
    is served up to the relay loop without blocking: the handler
    registers a new channel, queries the status of the player and
    writes one frame [data: <status>\n\n], flushed, as its only chunk.
    Under every interleaving, a handler that can flush is never
    refused and writes nothing but frames; before the loop it has
    written nothing and is never stuck; from the flusher check it goes
    to the initial push, and from there its step writes and flushes
    the frame of the status the player has at that moment and enters
    the loop; no other step of the system puts it in the loop. Once it
    is in the loop or past it, it came through the initial push, and the
    frame written there is the first chunk on the wire, followed only
    by frames relayed later. *)
Theorem initial_frame_first (s : state P) :
  reachable s ->
  let event data :=
    "data: " +:+ data
      +:+ String "010"%char (String "010"%char EmptyString) in
  (forall g r,
     mu s = None -> procs s !! g = None ->
     exists s' w' ch,
       run (sseHandler_connect g r) s = Continue s'
       ∧ procs s' !! g = Some (GSse r false w' (SseLoop ch))
       ∧ heap s !! ch = None ∧ ch ∈ sseClients s'
       ∧ sys_player s' = (GetStatus playerController (sys_player s)).2
       ∧ RW.status w' = Some 200
       ∧ RW.flushed w' = [event (status_at s)] ∧ RW.pending w' = [])
  ∧ forall g r d w pc,
      procs s !! g = Some (GSse r d w pc) ->
      RW.flusher w = true ->
      RW.status w <> Some 500
      ∧ (forall x, x ∈ RW.chunks w -> exists data, x = event data)
      ∧ (before_loop pc = true ->
         RW.chunks w = []
         ∧ (can_run s g
            ∨ exists ch h,
                pc = SseRegLock ch ∧ mu s = Some h ∧ h <> g ∧ can_run s h))
      ∧ (forall ch, pc = SseCheckFlusher ch ->
           step (Step g) s
           = Continue (set_proc g (GSse r d w (SseInitial ch)) s))
      ∧ (forall ch, pc = SseInitial ch ->
           exists s1 w1,
             step (Step g) s = Continue s1
             ∧ procs s1 !! g = Some (GSse r d w1 (SseLoop ch))
             ∧ sys_player s1 = (GetStatus playerController (sys_player s)).2
             ∧ RW.status w1 = Some 200
             ∧ RW.flushed w1 = [event (status_at s)] ∧ RW.pending w1 = []
             ∧ (forall data,
                  json_Marshal (GetStatus playerController (sys_player s)).1
                  = Ok data ->
                  RW.flushed w1 = [event data])
             ∧ forall l s2, run l s1 = Continue s2 ->
                 exists d2 w2 pc2 later,
                   procs s2 !! g = Some (GSse r d2 w2 pc2)
                   ∧ RW.flushed w2
                     = event (status_at s) :: (event <$> later)
                   ∧ RW.pending w2 = [])
      ∧ (forall a s' d' w' ch,
           step a s = Continue s' ->
           procs s' !! g = Some (GSse r d' w' (SseLoop ch)) ->
           pc <> SseLoop ch ->
           a = Step g ∧ pc = SseInitial ch
           ∧ RW.flushed w' = [event (status_at s)] ∧ RW.pending w' = [])
      ∧ (before_loop pc = false ->
         RW.status w = Some 200 ∧ RW.pending w = []
         ∧ exists s0 d0 w0 ch l later,
             reachable s0
             ∧ procs s0 !! g = Some (GSse r d0 w0 (SseInitial ch))
             ∧ RW.chunks w0 = []
             ∧ run (Step g :: l) s0 = Continue s
             ∧ RW.flushed w
               = event (status_at s0) :: (event <$> later)).
Proof.
  intros Hr event. split.
  { intros g r Hmu Hg.
    pose proof (sseHandler_connect_runs s g r Hmu Hg) as Hrun. cbn zeta in Hrun.
    eexists _, _, _. split; [exact Hrun|]. cbn.
    split; [by rewrite lookup_insert_eq|].
    split; [apply not_elem_of_dom, is_fresh|].
    split; [set_solver|]. split; [done|].
    by destruct (push_frame_untouched (status_at s) (sse_headers (RW.fresh true)))
      as (? & ? & ? & _). }
  intros g r d w pc Hg Hfl.
  pose proof (reachable_rw_ok _ _ _ _ _ _ _ _ Hr Hg) as Hrw.
  assert (before_loop pc = true -> untouched w) as Hbefore.
  { destruct pc; cbn in *; try done. by destruct Hrw. }
  assert (before_loop pc = false -> streaming w) as Hpast.
  { destruct pc; cbn in *; try done;
      (destruct Hrw as [?|(Hnf & _)]; [done|congruence]). }
  split; [|split; [|split; [|split; [|split; [|split]]]]].
  - destruct (before_loop pc) eqn:Hpc.
    + destruct (Hbefore eq_refl) as (-> & _). done.
    + destruct (Hpast eq_refl) as (_ & -> & _). done.
  - intros x Hx. unfold RW.chunks in Hx.
    destruct (before_loop pc) eqn:Hpc.
    + destruct (Hbefore eq_refl) as (_ & Hpe & Hf). rewrite Hpe, Hf in Hx.
      by apply elem_of_nil in Hx.
    + destruct (Hpast eq_refl) as (_ & _ & Hpe & d0 & rest & Hf).
      rewrite Hpe, Hf, app_nil_r in Hx.
      apply elem_of_cons in Hx as [->|Hx]; [by exists d0|].
      apply list_elem_of_fmap in Hx as (data & -> & _). by exists data.
  - intros Hpc. destruct (Hbefore Hpc) as (_ & Hpe & Hf). split.
    + unfold RW.chunks. by rewrite Hpe, Hf.
    + by eapply before_loop_progress.
  - intros ch ->. cbn. rewrite Hg. cbn. by rewrite Hfl.
  - intros ch ->. destruct (Hbefore eq_refl) as (Hst & Hpe & Hf).
    destruct (push_frame_untouched (status_at s) w (conj Hst (conj Hpe Hf)))
      as (Hs1 & Hp1 & Hf1 & _).
    exists (mkState (GetStatus playerController (sys_player s)).2 (heap s)
              (sseClients s) (mu s)
              (<[g := GSse r d (push_frame (status_at s) w) (SseLoop ch)]>
                 (procs s))),
      (push_frame (status_at s) w). split.
    { cbn. rewrite Hg. cbn.
      by destruct (GetStatus playerController (sys_player s)). }
    split; [cbn; by rewrite lookup_insert_eq|]. split; [done|].
    split; [done|]. split; [exact Hf1|]. split; [done|]. split.
    { intros data Hd. by rewrite Hf1, Hd. }
    intros l s2 Hrun.
    pose proof (fun Hg1 Hl1 =>
                  leads_with_run playerController json_Marshal l (status_at s)
                    _ s2 g r d (push_frame (status_at s) w) (SseLoop ch)
                    Hg1 Hl1 Hrun) as Hlead.
    destruct Hlead as (d2 & w2 & pc2 & Hg2 & _ & Hp2 & later & Hf2).
    + cbn. by rewrite lookup_insert_eq.
    + split; [done|]. split; [done|]. by exists [].
    + by exists d2, w2, pc2, later.
  - intros a s' d' w' ch Hs Hg' Hne.
    destruct (step_sse_persist _ _ _ _ _ _ _ _ _ _ Hs Hg)
      as (d1 & w1 & pc1 & Hg1 & Hsucc).
    rewrite Hg' in Hg1. injection Hg1 as <- <- <-.
    assert (pc = SseInitial ch) as ->.
    { inversion Hsucc; subst; done. }
    destruct (step_from_initial _ _ _ _ _ _ _ _ _ _ _ Hs Hg Hg')
      as [[[=] _]|(-> & _ & ->)].
    pose proof (Hbefore eq_refl) as Hun.
    destruct (push_frame_untouched (status_at s) w Hun) as (_ & Hp1 & Hf1 & _).
    done.
  - intros Hpc. destruct (Hpast Hpc) as (_ & Hst & Hpe & _).
    split; [done|]. split; [done|].
    destruct (entered_by_initial_push s g r d w pc Hr Hg Hpc Hfl)
      as (s0 & d0 & w0 & ch & l & later & Hr0 & Hg0 & Hun & Hrun & Hf & _).
    exists s0, d0, w0, ch, l, later. repeat split; try done.
    unfold RW.chunks. destruct Hun as (_ & -> & ->). done.
Qed.

End InitialFrame.

(* ===================================================================== *)
(** ** The properties on the example schedules                           *)
(* ===================================================================== *)

Lemma after_reachable (l : list (action PlayerStatus)) (s : state PlayerStatus) :
  run Demo.controller Demo.Marshal l (NewHTTPController Demo.guest) = Continue s ->
  reachable Demo.controller Demo.Marshal s.
Proof. apply run_reachable. constructor. Qed.

Lemma BroadcastStatus_delivers_witness :
  exists s',
    BroadcastStatus Demo.controller Demo.Marshal 11 Demo.member
      (elements (sseClients (Demo.after Demo.two_listeners)))
      (Demo.after Demo.two_listeners) = Continue s'
    ∧ mu s' = None.
Proof.
  destruct (BroadcastStatus_delivers Demo.controller Demo.Marshal
              (Demo.after Demo.two_listeners) 11 Demo.member
              (elements (sseClients (Demo.after Demo.two_listeners))))
    as (s' & Hrun & _ & Hmu & _).
  - apply (after_reachable Demo.two_listeners). vm_compute. reflexivity.
  - vm_compute. reflexivity.
  - vm_compute. reflexivity.
  - reflexivity.
  - exists s'. split; [exact Hrun|exact Hmu].
Defined.

Lemma registry_channels_live_witness :
  (1 ∈ sseClients (Demo.after Demo.publishing)
   ∧ live (Demo.after Demo.publishing) 1)
  ∧ (2 ∉ sseClients (Demo.after Demo.closing))
  ∧ live (Demo.after Demo.closing) 2.
Proof.
  assert (1 ∈ sseClients (Demo.after Demo.publishing)) as Hin.
  { apply (bool_decide_eq_true_1 (1 ∈ sseClients (Demo.after Demo.publishing))).
    vm_compute. reflexivity. }
  split.
  - split; [exact Hin|].
    apply (registry_channels_live Demo.controller Demo.Marshal
             (Demo.after Demo.publishing)); [|exact Hin].
    apply (after_reachable Demo.publishing). vm_compute. reflexivity.
  - destruct (registry_channels_live Demo.controller Demo.Marshal
                (Demo.after Demo.closing)) as (_ & Hclose & _).
    { apply (after_reachable Demo.closing). vm_compute. reflexivity. }
    eapply (Hclose 2). vm_compute. reflexivity.
Defined.

Lemma initial_frame_first_witness :
  let q := String "034"%char EmptyString in
  let sep := String "010"%char EmptyString in
  let guest_frame :=
    "data: {" +:+ q +:+ "song_title" +:+ q +:+ ":" +:+ q +:+ "Blue in Green"
    +:+ q +:+ "," +:+ q +:+ "artist" +:+ q +:+ ":" +:+ q +:+ "Miles Davis"
    +:+ q +:+ "," +:+ q +:+ "is_playing" +:+ q +:+ ":true,"
    +:+ q +:+ "play_mode" +:+ q +:+ ":1,"
    +:+ q +:+ "song_duration" +:+ q +:+ ":337,"
    +:+ q +:+ "playback_played" +:+ q +:+ ":12,"
    +:+ q +:+ "lyric" +:+ q +:+ ":" +:+ q +:+ q +:+ ","
    +:+ q +:+ "is_logged_in" +:+ q +:+ ":false}" +:+ sep +:+ sep in
  (exists s1 w1,
     step Demo.controller Demo.Marshal (Step 0) (Demo.after Demo.connecting)
       = Continue s1
     ∧ procs s1 !! 0 = Some (GSse Demo.events false w1 (SseLoop 0))
     ∧ RW.flushed w1 = [guest_frame] ∧ RW.pending w1 = [])
  ∧ (exists s' w' ch,
       run Demo.controller Demo.Marshal (sseHandler_connect 3 Demo.events)
         (Demo.after Demo.two_listeners) = Continue s'
       ∧ procs s' !! 3 = Some (GSse Demo.events false w' (SseLoop ch))
       ∧ ch ∈ sseClients s'
       ∧ RW.flushed w' = [guest_frame] ∧ RW.pending w' = [])
  ∧ exists w,
      procs (Demo.after (Demo.two_listeners ++ [Recv 0])) !! 0
        = Some (GSse Demo.events false w (SseLoop 0))
      ∧ RW.flushed w = [guest_frame; guest_frame] ∧ RW.pending w = [].
Proof.
  intros q sep guest_frame. split; [|split].
  - destruct (initial_frame_first Demo.controller Demo.Marshal
                (Demo.after Demo.connecting)) as [_ Hall].
    { apply (after_reachable Demo.connecting). vm_compute. reflexivity. }
    destruct (Hall 0 Demo.events false (sse_headers (RW.fresh true))
                (SseInitial 0)) as (_ & _ & _ & _ & Hinit & _).
    { vm_compute. reflexivity. }
    { reflexivity. }
    destruct (Hinit 0 eq_refl) as (s1 & w1 & Hstep & Hg1 & _ & _ & Hf & Hp & _).
    exists s1, w1. split; [exact Hstep|]. split; [exact Hg1|].
    split; [exact Hf|exact Hp].
  - destruct (initial_frame_first Demo.controller Demo.Marshal
                (Demo.after Demo.two_listeners)) as [Hconn _].
    { apply (after_reachable Demo.two_listeners). vm_compute. reflexivity. }
    destruct (Hconn 3 Demo.events)
      as (s' & w' & ch & Hrun & Hg' & _ & Hin & _ & _ & Hf & Hp).
    { vm_compute. reflexivity. }
    { vm_compute. reflexivity. }
    exists s', w', ch. split; [exact Hrun|]. split; [exact Hg'|].
    split; [exact Hin|]. split; [exact Hf|exact Hp].
  - assert (exists w,
              procs (Demo.after (Demo.two_listeners ++ [Recv 0])) !! 0
                = Some (GSse Demo.events false w (SseLoop 0))
              ∧ RW.flusher w = true
              ∧ RW.flushed w = [guest_frame; guest_frame])
      as (w & Hw & Hfl & Hf).
    { eexists. split; [|split]; vm_compute; reflexivity. }
    destruct (initial_frame_first Demo.controller Demo.Marshal
                (Demo.after (Demo.two_listeners ++ [Recv 0]))) as [_ Hall].
    { apply (after_reachable (Demo.two_listeners ++ [Recv 0])).
      vm_compute. reflexivity. }
    destruct (Hall 0 Demo.events false w (SseLoop 0) Hw Hfl)
      as (_ & _ & _ & _ & _ & _ & Hpast).
    destruct (Hpast eq_refl) as (_ & Hp & _).
    exists w. split; [exact Hw|]. split; [exact Hf|exact Hp].
Defined.

Lemma no_flusher_500_witness :
  exists s' w',
    step Demo.controller Demo.Marshal (Step 2) (Demo.after Demo.unflushable)
      = Continue s'
    ∧ procs s' !! 2 = Some (GSse Demo.events false w' (SseDeferLock 2))
    ∧ RW.status w' = Some StatusInternalServerError
    ∧ RW.chunks w' = [unsupported_reply].
Proof.
  destruct (no_flusher_500 Demo.controller Demo.Marshal
              (Demo.after Demo.unflushable) 2 Demo.events false
              (sse_headers (RW.fresh false)) (SseCheckFlusher 2))
    as (_ & _ & Hcheck & _).
  - apply (after_reachable Demo.unflushable). vm_compute. reflexivity.
  - vm_compute. reflexivity.
  - reflexivity.
  - destruct (Hcheck 2 eq_refl) as (_ & _ & s' & w' & H). by exists s', w'.
Defined.

Lemma events_ignore_method_witness :
  step Demo.controller Demo.Marshal (action_as_get (Recv 0))
    (state_as_get (Demo.after Demo.two_listeners))
  = outcome_as_get
      (step Demo.controller Demo.Marshal (Recv 0) (Demo.after Demo.two_listeners)).
Proof.
  assert (exists w, procs (Demo.after Demo.two_listeners) !! 0
                    = Some (GSse Demo.events false w (SseLoop 0))) as [w Hw].
  { eexists. vm_compute. reflexivity. }
  apply (events_ignore_method Demo.controller Demo.Marshal
           (Demo.after Demo.two_listeners) 0 Demo.events false w (SseLoop 0)).
  - apply (after_reachable Demo.two_listeners). vm_compute. reflexivity.
  - exact Hw.
Defined.

(* ===================================================================== *)
(** ** More of the request/response handlers                             *)
(* ===================================================================== *)

Section HandlerExtras.

Context {P : Type}.
Variable playerController : PlayerController P.
Variable json_Marshal : PlayerStatus -> result string.
Variable json_Decode : string -> result command.

Local Abbreviation command_reply :=
  (command_served playerController json_Decode).
Local Abbreviation status_reply :=
  (status_served playerController json_Marshal).

(** X1. A GET to the status endpoint queries the player once and
    nothing else. When the status serializes, the reply is 200 with
    the serialized status as its whole body and the JSON content type;
    when it does not, the reply is 500 with the error payload and no
    content type set. The request body is not closed. *)
Theorem status_get_reply (r : Request) (p : P) (fl : bool) :
  Method r = MethodGet ->
  calls (status_reply r p fl) = [CallGetStatus]
  ∧ player (status_reply r p fl) = (GetStatus playerController p).2
  ∧ bodyClosed (status_reply r p fl) = false
  ∧ match json_Marshal (GetStatus playerController p).1 with
    | Ok resp =>
        RW.status (w (status_reply r p fl)) = Some StatusOK
        ∧ RW.body (w (status_reply r p fl)) = resp
        ∧ RW.header (w (status_reply r p fl))
          = {[ "Content-Type" := "application/json" ]}
    | Err e =>
        RW.status (w (status_reply r p fl)) = Some StatusInternalServerError
        ∧ RW.body (w (status_reply r p fl)) = Sprintf_error e
        ∧ RW.header (w (status_reply r p fl)) = ∅
    end.
Proof.
  intros Hm. unfold status_served, statusHandler. rewrite Hm. cbn.
  run_handler. destruct (GetStatus playerController p) as [st p']. cbn.
  destruct (json_Marshal st) as [resp|e]; cbn; rewrite body_single; done.
Qed.

(** X2. A POST of [play], [pause], [next], [previous] or
    [next_play_mode] makes the one interface call of that name and no
    other, whatever arguments come with it, and is answered 200 with
    the ok body; these five cannot fail. *)
Theorem transport_command_reply (r : Request) (p : P) (fl : bool)
    (cmd : command) (c : call) :
  Method r = MethodPost ->
  json_Decode (Body r) = Ok cmd ->
  (Command cmd, c) ∈ transport_commands ->
  RW.status (w (command_reply r p fl)) = Some StatusOK
  ∧ RW.body (w (command_reply r p fl)) = ok_body
  ∧ calls (command_reply r p fl) = [c]
  ∧ player (command_reply r p fl) = transport_effect playerController c p
  ∧ bodyClosed (command_reply r p fl) = true.
Proof.
  intros Hm Hd Hc. rewrite (command_served_decoded _ _ _ _ _ _ Hm Hd).
  unfold dispatch, transport_commands in *.
  repeat (apply elem_of_cons in Hc as [Hc|Hc];
          [injection Hc as -> ->; cbn; run_handler; by rewrite body_single|]).
  by apply elem_of_nil in Hc.
Qed.

(** X3. A POST whose command is none of the seven names the handler
    knows is answered 400 with the message [unknown command]; the
    player is not touched. *)
Theorem unknown_command_reply (r : Request) (p : P) (fl : bool) (cmd : command) :
  Method r = MethodPost ->
  json_Decode (Body r) = Ok cmd ->
  Command cmd ∉ command_names ->
  RW.status (w (command_reply r p fl)) = Some StatusBadRequest
  ∧ RW.body (w (command_reply r p fl)) = Sprintf_error "unknown command"
  ∧ calls (command_reply r p fl) = []
  ∧ player (command_reply r p fl) = p
  ∧ bodyClosed (command_reply r p fl) = true.
Proof.
  intros Hm Hd Hc. rewrite (command_served_decoded _ _ _ _ _ _ Hm Hd).
  unfold dispatch, command_names in *.
  rewrite !not_elem_of_cons in Hc. destruct Hc as (?&?&?&?&?&?&?&_).
  repeat (case_eqb; [done|]). run_handler. by rewrite body_single.
Qed.

Lemma Sprintf_error_not_ok (msg : string) : Sprintf_error msg <> ok_body.
Proof. unfold Sprintf_error, ok_body, quoted. cbn. discriminate. Qed.

(** Closes one branch of the case analysis over the replies of the
    command endpoint: the reply written is known, the seven facts are
    read off it. *)
Ltac shape_leaf :=
  eexists; split; [reflexivity|];
  split; [repeat constructor|];
  split; [reflexivity|];
  split; [rewrite ?body_single; split; intros Hx;
          first [reflexivity | by apply Sprintf_error_not_ok in Hx
                | discriminate Hx]|];
  split; [reflexivity|];
  split; [cbn; lia|];
  rewrite ?not_elem_of_cons; repeat split; first [discriminate | apply not_elem_of_nil].

(** X4. Whatever the request, the player and the decoder, the command
    endpoint writes exactly one status line out of 200, 400, 405 and
    500; one body chunk, or none for 405; the ok body exactly when the
    status is 200; it sets no header, makes at most two interface calls
    and never queries the status. *)
Theorem command_reply_shape (r : Request) (p : P) (fl : bool) :
  exists code,
    RW.status (w (command_reply r p fl)) = Some code
    ∧ code ∈ [StatusOK; StatusBadRequest; StatusMethodNotAllowed;
              StatusInternalServerError]
    ∧ length (RW.chunks (w (command_reply r p fl)))
      = (if decide (code = StatusMethodNotAllowed) then 0 else 1)
    ∧ (RW.body (w (command_reply r p fl)) = ok_body <-> code = StatusOK)
    ∧ RW.header (w (command_reply r p fl)) = ∅
    ∧ length (calls (command_reply r p fl)) <= 2
    ∧ CallGetStatus ∉ calls (command_reply r p fl).
Proof.
  unfold command_served, commandHandler.
  destruct (String.eqb (Method r) MethodPost); cbn.
  2: { run_handler. shape_leaf. }
  destruct (json_Decode (Body r)) as [cmd|e]; [|run_handler; shape_leaf].
  unfold dispatch.
  repeat (case_eqb; cbn);
    try (destruct (Args cmd) as [|a [|b l]]; cbn);
    try (destruct (parse_mode a); cbn);
    run_handler;
    repeat match goal with
      | |- context [SetPlayMode playerController ?m p] =>
          destruct (SetPlayMode playerController m p) as [[?|] ?]; cbn
      | |- context [ActivateIntelligentMode playerController p] =>
          destruct (ActivateIntelligentMode playerController p) as [[?|] ?]; cbn
      end;
    shape_leaf.
Qed.

(** X5. The command endpoint closes the request body exactly on the
    paths behind a successful decode of a POST: the deferred close of
    line 164 covers those and no other. *)
Theorem body_closed_iff_decoded (r : Request) (p : P) (fl : bool) :
  bodyClosed (command_reply r p fl) = true
  <-> Method r = MethodPost ∧ exists cmd, json_Decode (Body r) = Ok cmd.
Proof.
  split.
  - unfold command_served, commandHandler.
    destruct (String.eqb_spec (Method r) MethodPost) as [Hm|Hm]; cbn;
      [|by run_handler].
    destruct (json_Decode (Body r)) as [cmd|e]; [by eauto|by run_handler].
  - intros [Hm [cmd Hd]]. by eapply decoded_body_closed.
Qed.

End HandlerExtras.

Lemma status_get_reply_witness :
  RW.status (w (status_served Demo.controller Demo.Marshal
                  {| Method := "GET"; Body := EmptyString |} Demo.guest true))
  = Some StatusOK
  ∧ RW.body (w (status_served Demo.controller Demo.Marshal
                  {| Method := "GET"; Body := EmptyString |} Demo.guest true))
    = bytes_of (Demo.Marshal Demo.guest).
Proof.
  destruct (status_get_reply Demo.controller Demo.Marshal
              {| Method := "GET"; Body := EmptyString |} Demo.guest true)
    as (_ & _ & _ & H); [reflexivity|].
  cbv beta iota delta [Demo.Marshal GetStatus Demo.controller fst] in H.
  destruct H as (Hs & Hb & _). split; [exact Hs|exact Hb].
Defined.

Lemma transport_command_reply_witness :
  calls (command_served Demo.controller Demo.Decode
           (Demo.post {| Command := "play"; Args := [] |}) Demo.guest true)
  = [CallPlay]
  ∧ IsPlaying (player (command_served Demo.controller Demo.Decode
                         (Demo.post {| Command := "play"; Args := [] |})
                         (Demo.set_playing false Demo.guest) true))
    = true.
Proof.
  split.
  - destruct (transport_command_reply Demo.controller Demo.Decode
                (Demo.post {| Command := "play"; Args := [] |}) Demo.guest true
                {| Command := "play"; Args := [] |} CallPlay)
      as (_ & _ & H & _).
    + reflexivity.
    + vm_compute. reflexivity.
    + apply elem_of_cons. left. reflexivity.
    + exact H.
  - destruct (transport_command_reply Demo.controller Demo.Decode
                (Demo.post {| Command := "play"; Args := [] |})
                (Demo.set_playing false Demo.guest) true
                {| Command := "play"; Args := [] |} CallPlay)
      as (_ & _ & _ & H & _).
    + reflexivity.
    + vm_compute. reflexivity.
    + apply elem_of_cons. left. reflexivity.
    + rewrite H. reflexivity.
Defined.

Lemma unknown_command_reply_witness :
  RW.status (w (command_served Demo.controller Demo.Decode
                  (Demo.post {| Command := "stop"; Args := [] |})
                  Demo.guest true))
  = Some StatusBadRequest
  ∧ calls (command_served Demo.controller Demo.Decode
             (Demo.post {| Command := "stop"; Args := [] |}) Demo.guest true)
    = [].
Proof.
  destruct (unknown_command_reply Demo.controller Demo.Decode
              (Demo.post {| Command := "stop"; Args := [] |}) Demo.guest true
              {| Command := "stop"; Args := [] |})
    as (Hs & _ & Hc & _).
  - reflexivity.
  - vm_compute. reflexivity.
  - unfold command_names. rewrite !not_elem_of_cons.
    repeat split; try discriminate. apply not_elem_of_nil.
  - split; [exact Hs|exact Hc].
Defined.


(* ===================================================================== *)
(** ** More of the goroutines: channels, registry, headers, runs         *)
(* ===================================================================== *)

Section ServerExtras.

Context {P : Type}.
Variable playerController : PlayerController P.
Variable json_Marshal : PlayerStatus -> result string.

Local Abbreviation step := (step playerController json_Marshal).
Local Abbreviation run := (run playerController json_Marshal).
Local Abbreviation reachable := (reachable playerController json_Marshal).
Local Abbreviation published := (published json_Marshal).
Local Abbreviation relays := (relays json_Marshal).

(** How one channel of the heap can differ before and after a step. *)
Lemma step_heap (a : action P) (s s' : state P) (ch : nat) (c' : Chan.t) :
  step a s = Continue s' -> heap s' !! ch = Some c' ->
  heap s !! ch = Some c'
  ∨ (heap s !! ch = None ∧ c' = Chan.make 1)
  ∨ exists c,
      heap s !! ch = Some c ∧ Chan.cap c' = Chan.cap c
      ∧ (length (Chan.buf c') <= length (Chan.buf c)
         ∨ (length (Chan.buf c) < Chan.cap c
            ∧ length (Chan.buf c') = S (length (Chan.buf c)))).
Proof.
  intros Hs Hc'.
  destruct a as [g r fl|g st|g|p'|g|g ch0|g|g]; cbn in Hs;
    try (destruct (procs s !! g) as [[r0 d0 w0 pc0|st0 pc0]|] eqn:Hg;
         try done);
    try (destruct pc0; try done; cbn in Hs);
    break_step Hs; cbn in Hc'; eauto;
    (rewrite lookup_insert in Hc'; case_decide; simplify_eq; [|by eauto]).
  - right. left. split; [|done].
    apply not_elem_of_dom. apply is_fresh.
  - destruct (Chan.closed t); simplify_eq.
    right. right. eexists. split; [done|]. cbn. split; [done|]. left. lia.
  - destruct (Chan.closed t); [done|]. case_decide; simplify_eq.
    right. right. eexists. split; [done|]. cbn. split; [done|]. right.
    split; [done|]. rewrite length_app. cbn. lia.
  - destruct (Chan.buf t) eqn:Hb; [destruct (Chan.closed t)|]; simplify_eq;
      [by left|].
    right. right. eexists. split; [done|]. cbn. split; [done|]. left.
    rewrite Hb. cbn. lia.
Qed.

Lemma reachable_bounded (s : state P) (ch : nat) (c : Chan.t) :
  reachable s -> heap s !! ch = Some c ->
  Chan.cap c = 1 ∧ length (Chan.buf c) <= 1.
Proof.
  intros Hr. revert ch c.
  induction Hr as [p|a s s' _ IH Hs]; intros ch c Hc; [done|].
  destruct (step_heap _ _ _ _ _ Hs Hc)
    as [H|[[_ ->]|(c0 & H0 & Hcap & Hlen)]].
  - by eapply IH.
  - cbn. lia.
  - destruct (IH _ _ H0) as [Hc0 Hl0]. rewrite Hcap, Hc0.
    split; [done|]. destruct Hlen as [?|[? ->]]; lia.
Qed.

(** X6. Every channel ever made has capacity 1 and holds at most one
    message, so the memory a slow listener can pin is one snapshot. *)
Theorem channels_bounded (s : state P) (ch : nat) (c : Chan.t) :
  reachable s -> heap s !! ch = Some c ->
  Chan.cap c = 1 ∧ length (Chan.buf c) <= 1.
Proof.
  intros Hr. revert ch c.
  induction Hr as [p|a s s' _ IH Hs]; intros ch c Hc.
  - cbn in Hc. by rewrite lookup_empty in Hc.
  - destruct (step_heap _ _ _ _ _ Hs Hc)
      as [H|[[_ ->]|(c0 & H0 & Hcap & Hlen)]].
    + by eapply IH.
    + cbn. lia.
    + destruct (IH _ _ H0) as [Hc0 Hl0]. rewrite Hcap, Hc0.
      split; [done|]. destruct Hlen as [?|[? ->]]; lia.
Qed.

(** A step leaves the registry alone and every handler in its phase,
    or it is the insertion of line 95, or the deletion of line 100. *)
Lemma step_registry (a : action P) (s s' : state P) :
  step a s = Continue s' ->
  (sseClients s' = sseClients s
   ∧ forall g r d w pc,
       procs s !! g = Some (GSse r d w pc) ->
       exists d' w' pc',
         procs s' !! g = Some (GSse r d' w' pc')
         ∧ forall ch, registered_at pc ch -> registered_at pc' ch)
  ∨ (exists g r d w ch,
       a = Step g
       ∧ procs s !! g = Some (GSse r d w (SseRegister ch))
       ∧ procs s' = <[g := GSse r d w (SseRegUnlock ch)]> (procs s)
       ∧ sseClients s' = {[ch]} ∪ sseClients s)
  ∨ (exists g r d w ch,
       a = Step g
       ∧ procs s !! g = Some (GSse r d w (SseDeferDelete ch))
       ∧ procs s' = <[g := GSse r d w (SseDeferUnlock ch)]> (procs s)
       ∧ sseClients s' = sseClients s ∖ {[ch]}).
Proof.
  intros Hs.
  destruct a as [g r fl|g st|g|p'|g|g ch0|g|g]; cbn in Hs;
    try (destruct (procs s !! g) as [[r0 d0 w0 pc0|st0 pc0]|] eqn:Hg;
         try done);
    try (destruct pc0; try done; cbn in Hs);
    break_step Hs;
    try (left; split; [done|]; cbn; intros g1 r1 d1 w1 pc1 Hg1;
         try (rewrite lookup_insert; destruct (decide (g = g1)); simplify_eq);
         first [by eauto
               |do 3 eexists; (split; [done|]); unfold registered_at; cbn;
                by intros ? [=]]).
  - right. left. by eauto 10.
  - right. right. by eauto 10.
Qed.

Lemma reachable_owned (s : state P) (ch : nat) :
  reachable s -> ch ∈ sseClients s ->
  exists g r d w pc,
    procs s !! g = Some (GSse r d w pc) ∧ registered_at pc ch.
Proof.
  intros Hr. revert ch.
  induction Hr as [p|a s s' _ IH Hs]; intros ch Hin; [set_solver|].
  destruct (step_registry _ _ _ Hs)
    as [[Hsame Hkeep]|[(g & r & d & w & ch0 & _ & Hg & -> & Hreg)
                      |(g & r & d & w & ch0 & _ & Hg & -> & Hreg)]].
  - rewrite Hsame in Hin.
    destruct (IH _ Hin) as (g & r & d & w & pc & Hg & Hpc).
    destruct (Hkeep _ _ _ _ _ Hg) as (d' & w' & pc' & Hg' & Hph).
    exists g, r, d', w', pc'. split; [done|]. by apply Hph.
  - rewrite Hreg in Hin. destruct (decide (ch = ch0)) as [->|Hne].
    + exists g, r, d, w, (SseRegUnlock ch0). by rewrite lookup_insert_eq.
    + destruct (IH ch) as (g1 & r1 & d1 & w1 & pc1 & Hg1 & Hpc1);
        [set_solver|].
      exists g1, r1, d1, w1, pc1. split; [|done].
      rewrite lookup_insert_ne; [done|]. intros <-. by simplify_eq.
  - rewrite Hreg in Hin. apply elem_of_difference in Hin as [Hin Hne].
    destruct (IH ch Hin) as (g1 & r1 & d1 & w1 & pc1 & Hg1 & Hpc1).
    exists g1, r1, d1, w1, pc1. split; [|done].
    rewrite lookup_insert_ne; [done|]. intros <-. simplify_eq.
    unfold registered_at in Hpc1. cbn in Hpc1. set_solver.
Qed.

(** X7. The registry holds exactly the channels of the handlers that
    stand between their insertion and their deletion, each owned by one
    handler. *)
Theorem registry_is_owned (s : state P) (ch : nat) :
  reachable s ->
  (ch ∈ sseClients s <->
   exists g r d w pc,
     procs s !! g = Some (GSse r d w pc) ∧ registered_at pc ch)
  ∧ (forall g1 g2 r1 r2 d1 d2 w1 w2 pc1 pc2,
       procs s !! g1 = Some (GSse r1 d1 w1 pc1) -> registered_at pc1 ch ->
       procs s !! g2 = Some (GSse r2 d2 w2 pc2) -> registered_at pc2 ch ->
       g1 = g2).
Proof.
  intros Hr. pose proof (reachable_Inv _ _ _ Hr) as HI. split; [split|].
  - by apply reachable_owned.
  - intros (g & r & d & w & pc & Hg & Hpc).
    pose proof (inv_proc _ HI _ _ Hg) as Hp. cbn in Hp.
    unfold registered_at in Hpc. rewrite Hpc in Hp. by apply Hp.
  - intros g1 g2 r1 r2 d1 d2 w1 w2 pc1 pc2 Hg1 Hp1 Hg2 Hp2.
    eapply (inv_own _ HI g1 g2); [done..| |]; cbn.
    + unfold registered_at in Hp1. by rewrite Hp1.
    + unfold registered_at in Hp2. by rewrite Hp2.
Qed.

(** X8. The registry changes only in a step of the goroutine that holds
    the mutex; so while a publisher is between its [Lock] and its
    [Unlock], no step of the system changes the registry. *)
Theorem registry_changes_under_mutex (a : action P) (s s' : state P) :
  reachable s -> step a s = Continue s' ->
  (sseClients s' <> sseClients s ->
   exists g, a = Step g ∧ mu s = Some g ∧ mu s' = Some g)
  ∧ (forall h status pc,
       procs s !! h = Some (GPub status pc) ->
       holds_mu (GPub status pc) = true ->
       sseClients s' = sseClients s).
Proof.
  intros Hr Hs. pose proof (reachable_Inv _ _ _ Hr) as HI.
  destruct (step_registry _ _ _ Hs)
    as [[Hsame _]|[(g & r & d & w & ch0 & -> & Hg & Hp & Hreg)
                  |(g & r & d & w & ch0 & -> & Hg & Hp & Hreg)]].
  - split; [done|]. by intros.
  - pose proof (inv_mu _ HI _ _ Hg eq_refl) as Hmu. split.
    + intros _. exists g. split; [done|]. split; [done|].
      cbn in Hs. rewrite Hg in Hs. cbn in Hs. by simplify_eq.
    + intros h st pc Hh Hhold. pose proof (inv_mu _ HI _ _ Hh Hhold).
      assert (h = g) as -> by congruence. congruence.
  - pose proof (inv_mu _ HI _ _ Hg eq_refl) as Hmu. split.
    + intros _. exists g. split; [done|]. split; [done|].
      cbn in Hs. rewrite Hg in Hs. cbn in Hs. by simplify_eq.
    + intros h st pc Hh Hhold. pose proof (inv_mu _ HI _ _ Hh Hhold).
      assert (h = g) as -> by congruence. congruence.
Qed.

Lemma push_frame_header (data : string) (w : RW.t) :
  RW.header (push_frame data w) = RW.header w.
Proof.
  unfold push_frame, RW.Flush, RW.Write, RW.WriteHeader.
  destruct (RW.status w) eqn:E; cbn; by rewrite ?E.
Qed.

Lemma headers_ok_succ (w w' : RW.t) (pc pc' : sse_pc) :
  rw_ok w pc -> headers_ok w pc -> sse_succ w pc w' pc' -> headers_ok w' pc'.
Proof.
  intros Hrw Hh Hsucc.
  destruct Hsucc as [pc0|ch|ch|ch|ch|ch ?|ch Hfl|ch data|ch data|ch|ch|ch|ch|ch];
    unfold headers_ok in *; cbv iota in *; cbn in Hrw; try done.
  - destruct Hrw as (Hst & _). unfold sse_headers, RW.Header_Set. cbn.
    rewrite Hst, Hh. by rewrite decide_False.
  - destruct Hrw as (Hst & _). rewrite Hst in Hh.
    rewrite decide_False in Hh by done.
    unfold RW.Error, RW.Write, RW.WriteHeader, RW.Header_Set. cbn.
    rewrite Hst. cbn. by rewrite Hh.
  - destruct Hrw as (_ & Hst & _).
    destruct (push_frame_fields data w) as (_ & _ & _ & Hst').
    rewrite push_frame_header, Hst', Hh, Hst. cbn.
    by rewrite !decide_False.
  - destruct Hrw as (_ & Hst & _).
    destruct (push_frame_fields data w) as (_ & _ & _ & Hst').
    rewrite push_frame_header, Hst', Hh, Hst. cbn. done.
Qed.

Lemma reachable_headers_ok (s : state P) (g : nat) (r : Request) (d : bool)
    (w : RW.t) (pc : sse_pc) :
  reachable s -> procs s !! g = Some (GSse r d w pc) -> headers_ok w pc.
Proof.
  intros Hr. revert g r d w pc.
  induction Hr as [p|a s s' Hr IH Hs]; intros g r d w pc Hg; [done|].
  destruct (step_sse_cases _ _ _ _ _ _ _ _ _ _ Hs Hg)
    as [(_ & -> & fl & ->)|(d0 & w0 & pc0 & Hg0 & Hsucc)]; [done|].
  eapply headers_ok_succ; [|by eapply IH|done].
  by eapply reachable_rw_ok.
Qed.

(** X9. Once the handler has set its headers, the response carries the
    cache, connection and cross-origin headers of lines 89-91 for good;
    its content type is [text/event-stream] unless the connection was
    refused with 500, in which case [http.Error] has replaced it by
    plain text and added the no-sniff header. *)
Theorem sse_response_headers (s : state P) (g : nat) (r : Request) (d : bool)
    (w : RW.t) (pc : sse_pc) :
  reachable s -> procs s !! g = Some (GSse r d w pc) -> pc <> SseEntry ->
  RW.header w !! "Cache-Control" = Some "no-cache"
  ∧ RW.header w !! "Connection" = Some "keep-alive"
  ∧ RW.header w !! "Access-Control-Allow-Origin" = Some "*"
  ∧ (RW.status w <> Some StatusInternalServerError ->
     RW.header w !! "Content-Type" = Some "text/event-stream"
     ∧ RW.header w !! "X-Content-Type-Options" = None)
  ∧ (RW.status w = Some StatusInternalServerError ->
     RW.header w !! "Content-Type" = Some "text/plain; charset=utf-8"
     ∧ RW.header w !! "X-Content-Type-Options" = Some "nosniff").
Proof.
  intros Hr Hg Hpc. pose proof (reachable_headers_ok _ _ _ _ _ _ Hr Hg) as Hh.
  assert (RW.header w =
            if decide (RW.status w = Some StatusInternalServerError)
            then refusal_headers else stream_headers) as ->.
  { by destruct pc. }
  case_decide; (repeat split; try done; try (vm_compute; reflexivity)).
Qed.

Lemma sseHandler_closing_runs (s : state P) (g : nat) (r : Request)
    (d : bool) (w : RW.t) (ch : nat) (c : Chan.t) :
  procs s !! g = Some (GSse r d w (SseLoop ch)) ->
  heap s !! ch = Some c -> Chan.closed c = false -> mu s = None ->
  run (sseHandler_closing g) s =
    Continue (mkState (sys_player s)
                (<[ch := Chan.mk (Chan.buf c) (Chan.cap c) true]> (heap s))
                (sseClients s ∖ {[ch]}) None
                (<[g := GSse r true w (SseReturned ch)]> (procs s))).
Proof.
  intros Hg Hc Hcl Hmu. unfold sseHandler_closing. cbn. rewrite Hg. cbn.
  rewrite lookup_insert_eq. cbn. rewrite lookup_insert_eq. cbn.
  unfold Lock. cbn. rewrite Hmu. cbn. rewrite lookup_insert_eq. cbn.
  rewrite lookup_insert_eq. cbn. unfold Unlock. cbn.
  rewrite lookup_insert_eq. cbn. rewrite Hc. unfold Chan.close.
  rewrite Hcl. cbn. by rewrite !insert_insert_eq.
Qed.

(** X11. Delivery. A status published while a handler waits in its relay
    loop with an empty channel reaches that connection: after the
    publish and the handler's next receive, the frame of the serialized
    status is the last chunk on the wire, flushed, and the channel is
    empty again. *)
Theorem publish_reaches_listener (s : state P) (g g' : nat) (r : Request)
    (d : bool) (w : RW.t) (ch : nat) (c : Chan.t)
    (status : PlayerStatus) (data : string) (order : list nat) :
  reachable s ->
  procs s !! g = Some (GSse r d w (SseLoop ch)) ->
  heap s !! ch = Some c -> Chan.buf c = [] ->
  mu s = None -> procs s !! g' = None ->
  json_Marshal status = Ok data ->
  order ≡ₚ elements (sseClients s) ->
  exists s',
    run (BroadcastStatus_schedule json_Marshal g' status order ++ [Recv g]) s
      = Continue s'
    ∧ procs s' !! g = Some (GSse r d (push_frame data w) (SseLoop ch))
    ∧ RW.flushed (push_frame data w) = RW.flushed w ++ [frame data]
    ∧ RW.pending (push_frame data w) = []
    ∧ Chan.buf <$> heap s' !! ch = Some [].
Proof.
  intros Hr Hg Hc Hbuf Hmu Hg' Hmar Hperm.
  pose proof (reachable_Inv _ _ _ Hr) as HI.
  pose proof (inv_proc _ HI _ _ Hg) as [Hcl Hreg]. cbn in Hcl, Hreg.
  rewrite Hc in Hcl. cbn in Hcl. injection Hcl as Hcl.
  destruct (reachable_bounded _ _ _ Hr Hc) as [Hcap _].
  destruct (BroadcastStatus_runs playerController json_Marshal s g' status order
              HI Hmu Hg' Hperm)
    as (s1 & Hb & Hp1 & Hreg1 & Hmu1 & Hprocs1 & Hheap1).
  rewrite Hmar in Hheap1. unfold BroadcastStatus in Hb.
  rewrite (run_app _ _ _ _ _ _ Hb).
  assert (heap s1 !! ch = Some (Chan.mk [data] 1 false)) as Hc1.
  { rewrite Hheap1, decide_True by by apply Hreg. rewrite Hc. cbn.
    unfold deliver. rewrite Hbuf, Hcap. cbn. done. }
  assert (procs s1 !! g = Some (GSse r d w (SseLoop ch))) as Hg1.
  { rewrite Hprocs1, lookup_insert_ne; [done|]. intros <-. congruence. }
  eexists. split.
  { cbn. rewrite Hg1. cbn. rewrite Hc1. cbn. reflexivity. }
  destruct (push_frame_fields data w) as (Hpe & Hfl & _).
  pose proof (reachable_rw_ok _ _ _ _ _ _ _ _ Hr Hg) as (_ & _ & Hpw & _).
  split; [cbn; by rewrite lookup_insert_eq|].
  split; [by rewrite Hfl, Hpw|]. split; [done|].
  cbn. by rewrite lookup_insert_eq.
Qed.

(** X12. Drop on full. Of two statuses published in a row to a channel
    that was empty, with no receive in between, the channel keeps the
    first; the second is dropped. *)
Theorem second_publish_dropped (s : state P) (g1 g2 : nat) (ch : nat)
    (c : Chan.t) (st1 st2 : PlayerStatus) (d1 d2 : string)
    (o1 o2 : list nat) :
  reachable s -> ch ∈ sseClients s ->
  heap s !! ch = Some c -> Chan.buf c = [] ->
  mu s = None -> procs s !! g1 = None -> procs s !! g2 = None -> g1 <> g2 ->
  json_Marshal st1 = Ok d1 -> json_Marshal st2 = Ok d2 ->
  o1 ≡ₚ elements (sseClients s) -> o2 ≡ₚ elements (sseClients s) ->
  exists s',
    run (BroadcastStatus_schedule json_Marshal g1 st1 o1
           ++ BroadcastStatus_schedule json_Marshal g2 st2 o2) s
      = Continue s'
    ∧ Chan.buf <$> heap s' !! ch = Some [d1]
    ∧ sseClients s' = sseClients s ∧ mu s' = None.
Proof.
  intros Hr Hin Hc Hbuf Hmu Hg1 Hg2 Hne Hm1 Hm2 Hp1 Hp2.
  pose proof (reachable_Inv _ _ _ Hr) as HI.
  pose proof (inv_live _ HI _ Hin) as Hl. unfold live in Hl.
  rewrite Hc in Hl. cbn in Hl. injection Hl as Hcl.
  destruct (reachable_bounded _ _ _ Hr Hc) as [Hcap _].
  destruct (BroadcastStatus_runs playerController json_Marshal s g1 st1 o1
              HI Hmu Hg1 Hp1)
    as (s1 & Hb1 & _ & Hreg1 & Hmu1 & Hprocs1 & Hheap1).
  rewrite Hm1 in Hheap1. unfold BroadcastStatus in Hb1.
  pose proof (run_reachable _ _ _ _ _ Hr Hb1) as Hr1.
  assert (heap s1 !! ch = Some (Chan.mk [d1] 1 false)) as Hc1.
  { rewrite Hheap1, decide_True by done. rewrite Hc. cbn.
    unfold deliver. rewrite Hbuf, Hcap. cbn. done. }
  destruct (BroadcastStatus_runs playerController json_Marshal s1 g2 st2 o2
              (reachable_Inv _ _ _ Hr1) Hmu1)
    as (s2 & Hb2 & _ & Hreg2 & Hmu2 & _ & Hheap2).
  { rewrite Hprocs1, lookup_insert_ne; done. }
  { by rewrite Hreg1. }
  rewrite Hm2 in Hheap2. unfold BroadcastStatus in Hb2.
  exists s2. rewrite (run_app _ _ _ _ _ _ Hb1). split; [exact Hb2|].
  split; [|split; [congruence|done]].
  rewrite Hheap2, decide_True by by rewrite Hreg1. rewrite Hc1. cbn.
  unfold deliver. cbn. done.
Qed.

(** X13. Mutual exclusion. At most one goroutine stands between a [Lock]
    and its [Unlock]; the mutex is held exactly when one does, and by
    that goroutine. *)
Theorem critical_sections_exclusive (s : state P) :
  reachable s ->
  (forall g1 g2 x1 x2,
     procs s !! g1 = Some x1 -> holds_mu x1 = true ->
     procs s !! g2 = Some x2 -> holds_mu x2 = true -> g1 = g2)
  ∧ (forall h, mu s = Some h <->
               exists x, procs s !! h = Some x ∧ holds_mu x = true).
Proof.
  intros Hr. pose proof (reachable_Inv _ _ _ Hr) as HI. split.
  - intros g1 g2 x1 x2 H1 Hh1 H2 Hh2.
    pose proof (inv_mu _ HI _ _ H1 Hh1). pose proof (inv_mu _ HI _ _ H2 Hh2).
    congruence.
  - intros h. split; [apply (inv_held _ HI)|].
    intros (x & Hx & Hh). by eapply (inv_mu _ HI).
Qed.

(** X14. Refusal. A connection that cannot flush, served with the mutex
    free from its acceptance to the return of the handler, is answered
    500 with the plain-text reply and no frame; the channel it made is
    new and is closed when the handler returns, the registry is as it
    was before, and the player is not queried. *)
Theorem refused_connection_cleans_up (s : state P) (g : nat) (r : Request) :
  reachable s -> mu s = None -> procs s !! g = None ->
  exists s' w ch,
    run (sseHandler_refusal g r) s = Continue s'
    ∧ procs s' = <[g := GSse r false w (SseReturned ch)]> (procs s)
    ∧ RW.status w = Some StatusInternalServerError
    ∧ RW.chunks w = [unsupported_reply]
    ∧ heap s !! ch = None
    ∧ heap s' = <[ch := Chan.mk [] 1 true]> (heap s)
    ∧ sseClients s' = sseClients s
    ∧ mu s' = None ∧ sys_player s' = sys_player s.
Proof.
  intros Hr Hmu Hg. unfold sseHandler_refusal.
  pose proof (sseHandler_opening_runs playerController json_Marshal s g r false
                Hmu Hg) as Hopen.
  rewrite (run_app _ _ _ _ _ _ Hopen).
  pose proof (is_fresh (dom (heap s))) as Hf.
  set (ch := fresh (dom (heap s))) in *.
  assert (ch ∉ sseClients s) as Hnin.
  { intros Hin. apply Hf, elem_of_dom.
    pose proof (inv_live _ (reachable_Inv _ _ _ Hr) _ Hin) as Hl.
    unfold live in Hl. by destruct (heap s !! ch). }
  exists (mkState (sys_player s) (<[ch := Chan.mk [] 1 true]> (heap s))
            (sseClients s) None
            (<[g := GSse r false
                      (RW.Error "Streaming unsupported!" StatusInternalServerError
                         (sse_headers (RW.fresh false)))
                      (SseReturned ch)]> (procs s))),
    (RW.Error "Streaming unsupported!" StatusInternalServerError
       (sse_headers (RW.fresh false))), ch.
  split.
  { cbn. rewrite lookup_insert_eq. cbn. rewrite lookup_insert_eq. cbn.
    unfold Lock. cbn. rewrite lookup_insert_eq. cbn.
    rewrite lookup_insert_eq. cbn. unfold Unlock. cbn.
    rewrite lookup_insert_eq. cbn. rewrite lookup_insert_eq. cbn.
    rewrite !insert_insert_eq. do 2 f_equal. set_solver. }
  split; [done|]. split; [done|]. split; [done|].
  split; [by apply not_elem_of_dom|]. done.
Qed.

(** X15. A handler that has returned has closed its channel and taken it
    out of the registry, and the channel never comes back: in every
    later state it is closed and unregistered. *)
Theorem returned_channel_stays_out (s : state P) (g : nat) (r : Request)
    (d : bool) (w : RW.t) (ch : nat) (l : list (action P)) (s' : state P) :
  reachable s ->
  procs s !! g = Some (GSse r d w (SseReturned ch)) ->
  run l s = Continue s' ->
  (ch ∉ sseClients s') ∧ Chan.closed <$> heap s' !! ch = Some true
  ∧ exists d', procs s' !! g = Some (GSse r d' w (SseReturned ch)).
Proof.
  intros Hr Hg Hrun.
  assert (exists d', procs s' !! g = Some (GSse r d' w (SseReturned ch)))
    as [d' Hg'].
  { clear Hr. revert s d Hg Hrun. induction l as [|a l IH]; intros s d Hg; cbn.
    - intros [= <-]. by eauto.
    - destruct (step a s) as [s1| |] eqn:Hs; try done.
      destruct (step_sse_persist _ _ _ _ _ _ _ _ _ _ Hs Hg)
        as (d1 & w1 & pc1 & Hg1 & Hsucc).
      inversion Hsucc; subst. by eapply IH. }
  pose proof (run_reachable _ _ _ _ _ Hr Hrun) as Hr'.
  pose proof (inv_proc _ (reachable_Inv _ _ _ Hr') _ _ Hg') as [Hcl Hreg].
  cbn in Hcl, Hreg. split; [|by eauto]. intros Hin. by apply Hreg in Hin.
Qed.

Lemma published_mono (l : list (action P)) (a : action P) (data : string) :
  published l data -> published (l ++ [a]) data.
Proof.
  intros (g & st & Hin & Hm). exists g, st. split; [|done].
  apply elem_of_app. by left.
Qed.

(** Where a publisher found after a step comes from. *)
Lemma step_pub_cases (a : action P) (s s' : state P) (g : nat)
    (status : PlayerStatus) (pc' : pub_pc) :
  step a s = Continue s' -> procs s' !! g = Some (GPub status pc') ->
  (a = Publish g status ∧ pc' = PubLock)
  ∨ exists pc,
      procs s !! g = Some (GPub status pc)
      ∧ forall data todo', pc' = PubRange data todo' ->
          json_Marshal status = Ok data ∨ exists todo, pc = PubRange data todo.
Proof.
  intros Hs Hg'.
  destruct a as [g0 r fl|g0 st|g0|p'|g0|g0 ch0|g0|g0]; cbn in Hs;
    try (destruct (procs s !! g0) as [[r0 d0 w0 pc0|st0 pc0]|] eqn:Hg0;
         try done);
    try (destruct pc0; try done; cbn in Hs);
    break_step Hs; cbn in Hg';
    try (rewrite lookup_insert in Hg'; case_decide; simplify_eq);
    first [by left
          |right; eexists; split; [done|]; intros ?? [=]; subst; by eauto].
Qed.

(** Where a message found in a channel after a step comes from. *)
Lemma step_buf (a : action P) (s s' : state P) (ch : nat) (c' : Chan.t)
    (data : string) :
  step a s = Continue s' -> heap s' !! ch = Some c' -> data ∈ Chan.buf c' ->
  (exists c, heap s !! ch = Some c ∧ data ∈ Chan.buf c)
  ∨ exists g status todo, procs s !! g = Some (GPub status (PubRange data todo)).
Proof.
  intros Hs Hc' Hin.
  destruct a as [g r fl|g st|g|p'|g|g ch0|g|g]; cbn in Hs;
    try (destruct (procs s !! g) as [[r0 d0 w0 pc0|st0 pc0]|] eqn:Hg;
         try done);
    try (destruct pc0; try done; cbn in Hs);
    break_step Hs; cbn in Hc'; eauto;
    (rewrite lookup_insert in Hc'; case_decide; simplify_eq; [|by eauto]).
  - cbn in Hin. by apply elem_of_nil in Hin.
  - destruct (Chan.closed t); simplify_eq. cbn in Hin. by eauto.
  - destruct (Chan.closed t); [done|]. case_decide; simplify_eq.
    cbn in Hin. apply elem_of_app in Hin as [Hin|Hin]; [by eauto|].
    apply list_elem_of_singleton in Hin as ->. by eauto.
  - destruct (Chan.buf t) eqn:Hb; [destruct (Chan.closed t)|]; simplify_eq;
      [by eauto|].
    cbn in Hin. left. eexists. split; [done|]. rewrite Hb.
    apply elem_of_cons. by right.
Qed.

(** Where the chunks a handler has flushed after a step come from. *)
Lemma step_flushed (a : action P) (s s' : state P) (g : nat) (r : Request)
    (d' : bool) (w' : RW.t) (pc' : sse_pc) :
  step a s = Continue s' -> procs s' !! g = Some (GSse r d' w' pc') ->
  (exists fl, w' = RW.fresh fl)
  ∨ exists d w pc,
      procs s !! g = Some (GSse r d w pc)
      ∧ (RW.flushed w' = RW.flushed w
         ∨ (exists ch data, pc = SseInitial ch ∧ w' = push_frame data w)
         ∨ (exists ch c data,
              pc = SseLoop ch ∧ heap s !! ch = Some c
              ∧ (data ∈ Chan.buf c ∨ Chan.closed c = true)
              ∧ w' = push_frame data w)).
Proof.
  intros Hs Hg'.
  destruct a as [g0 r0 fl|g0 st|g0|p'|g0|g0 ch0|g0|g0]; cbn in Hs;
    try (destruct (procs s !! g0) as [[r1 d1 w1 pc1|st1 pc1]|] eqn:Hg0;
         try done);
    try (destruct pc1; try done; cbn in Hs);
    break_step Hs; cbn in Hg';
    try (rewrite lookup_insert in Hg'; case_decide; simplify_eq);
    try (by left; eauto);
    try (by right; do 3 eexists; (split; [done|]); left).
  all: right; do 3 eexists; (split; [done|]).
  - left. by destruct w1 as [? [?|] ? ? ?].
  - right. left. by eauto.
  - right. right. destruct (Chan.buf t) eqn:Hb.
    + destruct (Chan.closed t) eqn:Hcl; simplify_eq.
      do 3 eexists. split; [done|]. split; [done|]. split; [by right|done].
    + simplify_eq. do 3 eexists. split; [done|]. split; [done|].
      split; [|done]. left. rewrite Hb. by apply elem_of_cons; left.
Qed.

Lemma relays_init (p : P) : relays [] (NewHTTPController p).
Proof. by split. Qed.

Lemma relays_step (l : list (action P)) (a : action P) (s s' : state P) :
  reachable s -> relays l s -> step a s = Continue s' ->
  relays (l ++ [a]) s'.
Proof.
  intros Hr HJ Hs. pose proof (reachable_Inv _ _ _ Hr) as HI. split.
  - intros g st pc' Hg'.
    destruct (step_pub_cases _ _ _ _ _ _ Hs Hg') as [[-> ->]|(pc & Hg & Hd)].
    + split; [|done]. exists g. apply elem_of_app. right.
      by apply list_elem_of_singleton.
    + destruct (rel_pub _ _ _ HJ _ _ _ Hg) as [[g0 Hin] Hdata]. split.
      * exists g0. apply elem_of_app. by left.
      * intros data todo' ->.
        destruct (Hd _ _ eq_refl) as [?|[todo ->]]; [done|]. by eapply Hdata.
  - intros ch c' data Hc' Hin.
    destruct (step_buf _ _ _ _ _ _ Hs Hc' Hin)
      as [(c & Hc & Hin0)|(g & st & todo & Hg)].
    + apply published_mono. by eapply (rel_buf _ _ _ HJ).
    + destruct (rel_pub _ _ _ HJ _ _ _ Hg) as [[g0 Hin0] Hdata].
      exists g0, st. split; [apply elem_of_app; by left|]. by eapply Hdata.
  - intros g r d' w' pc' x Hg' Hx.
    destruct (step_flushed _ _ _ _ _ _ _ _ Hs Hg')
      as [[fl ->]|(d & w & pc & Hg & Hcase)].
    { cbn in Hx. by apply elem_of_nil in Hx. }
    pose proof (reachable_rw_ok _ _ _ _ _ _ _ _ Hr Hg) as Hrw.
    destruct Hcase as [Hsame|[(ch & data & -> & ->)
                             |(ch & c & data & -> & Hc & Hsrc & ->)]].
    + rewrite Hsame in Hx.
      destruct (rel_wire _ _ _ HJ _ _ _ _ _ _ Hg Hx) as (data & -> & Hp).
      exists data. split; [done|]. by apply published_mono.
    + destruct Hrw as (_ & _ & Hpe & Hfl).
      destruct (push_frame_fields data w) as (_ & Hfl' & _).
      rewrite Hfl', Hfl, Hpe in Hx. cbn in Hx. by apply elem_of_nil in Hx.
    + destruct Hrw as (_ & _ & Hpe & d0 & rest & Hfl).
      destruct (push_frame_fields data w) as (_ & Hfl' & _).
      rewrite Hfl', Hpe in Hx. cbn in Hx.
      assert (drop 1 (RW.flushed w ++ [frame data])
              = drop 1 (RW.flushed w) ++ [frame data]) as Hdrop.
      { rewrite Hfl. done. }
      rewrite Hdrop in Hx. apply elem_of_app in Hx as [Hx|Hx].
      * destruct (rel_wire _ _ _ HJ _ _ _ _ _ _ Hg Hx) as (data1 & -> & Hp).
        exists data1. split; [done|]. by apply published_mono.
      * apply list_elem_of_singleton in Hx as ->. exists data. split; [done|].
        apply published_mono.
        pose proof (inv_proc _ HI _ _ Hg) as [Hcl _]. cbn in Hcl.
        rewrite Hc in Hcl. cbn in Hcl.
        destruct Hsrc as [Hin|Hclosed]; [|congruence].
        by eapply (rel_buf _ _ _ HJ).
Qed.

Lemma relays_run (l2 l1 : list (action P)) (s s' : state P) :
  reachable s -> relays l1 s -> run l2 s = Continue s' ->
  relays (l1 ++ l2) s'.
Proof.
  revert l1 s. induction l2 as [|a l2 IH]; intros l1 s Hr HJ; cbn.
  - intros [= <-]. by rewrite app_nil_r.
  - destruct (step a s) as [s1| |] eqn:Hs; try done. intros Hrun.
    replace (l1 ++ a :: l2) with ((l1 ++ [a]) ++ l2)
      by by rewrite <- app_assoc.
    eapply IH; [by eapply reach_step| |done].
    by eapply relays_step.
Qed.

(** X16. Relay integrity. On every connection, each chunk after the
    first is the frame of the serialization of a status that some
    [BroadcastStatus] call of the schedule was given. *)
Theorem relayed_frames_were_published (p : P) (l : list (action P))
    (s : state P) (g : nat) (r : Request) (d : bool) (w : RW.t) (pc : sse_pc)
    (x : string) :
  run l (NewHTTPController p) = Continue s ->
  procs s !! g = Some (GSse r d w pc) ->
  x ∈ drop 1 (RW.chunks w) ->
  exists g' status data,
    Publish g' status ∈ l ∧ json_Marshal status = Ok data ∧ x = frame data.
Proof.
  intros Hrun Hg Hx.
  pose proof (relays_run l [] _ _ (reach_init _ _ p) (relays_init p) Hrun) as HJ.
  pose proof (run_reachable _ _ _ _ _ (reach_init _ _ p) Hrun) as Hr.
  pose proof (reachable_rw_ok _ _ _ _ _ _ _ _ Hr Hg) as Hrw.
  assert (x ∈ drop 1 (RW.flushed w)) as Hx'.
  { unfold RW.chunks in Hx.
    assert (untouched w -> False) as Hun.
    { intros (_ & Hpe & Hfl). rewrite Hpe, Hfl in Hx. cbn in Hx.
      by apply elem_of_nil in Hx. }
    assert (streaming w -> x ∈ drop 1 (RW.flushed w)) as Hstr.
    { intros (_ & _ & Hpe & _). by rewrite Hpe, app_nil_r in Hx. }
    assert (refused w -> False) as Href.
    { intros (_ & _ & Hfl & Hpe). rewrite Hpe, Hfl in Hx. cbn in Hx.
      by apply elem_of_nil in Hx. }
    destruct pc; cbn in Hrw; try (by destruct (Hun Hrw));
      try (by destruct (Hun (proj2 Hrw))); try (by apply Hstr);
      (destruct Hrw as [?|?]; [by apply Hstr|by destruct Href]). }
  destruct (rel_wire _ _ _ HJ _ _ _ _ _ _ Hg Hx') as (data & -> & g' & st & ? & ?).
  by exists g', st, data.
Qed.

End ServerExtras.

Section Disconnect.

Context {P : Type}.
Variable playerController : PlayerController P.
Variable json_Marshal : PlayerStatus -> result string.

Local Abbreviation step := (step playerController json_Marshal).
Local Abbreviation run := (run playerController json_Marshal).
Local Abbreviation reachable := (reachable playerController json_Marshal).

Lemma leaving_succ (w w' : RW.t) (pc pc' : sse_pc) (ch : nat) :
  leaving ch pc -> sse_succ w pc w' pc' -> w' = w ∧ leaving ch pc'.
Proof.
  unfold leaving. intros Hpc Hsucc.
  repeat (apply elem_of_cons in Hpc as [->|Hpc]);
    try (by apply elem_of_nil in Hpc);
    inversion Hsucc; subst; (split; [done|]);
    rewrite !elem_of_cons; by eauto 10.
Qed.

(** A handler that has left its relay loop writes nothing more,
    whatever the system does. *)
Lemma leaving_run (l : list (action P)) (s s' : state P) (g : nat)
    (r : Request) (d : bool) (w : RW.t) (pc : sse_pc) (ch : nat) :
  procs s !! g = Some (GSse r d w pc) -> leaving ch pc ->
  run l s = Continue s' ->
  exists d' pc', procs s' !! g = Some (GSse r d' w pc') ∧ leaving ch pc'.
Proof.
  revert s d pc. induction l as [|a l IH]; intros s d pc Hg Hpc; cbn.
  - intros [= <-]. by eauto.
  - destruct (step a s) as [s1| |] eqn:Hs; try done.
    destruct (step_sse_persist _ _ _ _ _ _ _ _ _ _ Hs Hg)
      as (d1 & w1 & pc1 & Hg1 & Hsucc).
    destruct (leaving_succ _ _ _ _ _ Hpc Hsucc) as [-> Hpc1].
    by eapply IH.
Qed.

(** X10. Disconnect. For a handler in its relay loop: the [Done] case
    of the [select] is not ready before the request context is
    cancelled and is ready after; a message queued in the channel keeps
    the receive case ready as well, cancelled or not, so the handler
    may still relay it before it leaves. Once the handler has taken the
    [Done] case it writes nothing more, under every schedule. When the
    mutex is free and the [Done] case is taken at once, the handler
    runs to its return without blocking: its channel leaves the
    registry and is closed, no other channel changes, nothing is
    written, and a later [BroadcastStatus] runs to its end without
    touching the closed channel. *)
Theorem disconnect_deregisters (s : state P) (g : nat) (r : Request)
    (d : bool) (w : RW.t) (ch : nat) :
  reachable s ->
  procs s !! g = Some (GSse r d w (SseLoop ch)) ->
  (d = false -> step (Quit g) s = Blocked)
  ∧ step (Cancel g) s = Continue (set_proc g (GSse r true w (SseLoop ch)) s)
  ∧ run [Cancel g; Quit g] s
    = Continue (set_proc g (GSse r true w (SseDeferLock ch)) s)
  ∧ (forall c data rest,
       heap s !! ch = Some c -> Chan.buf c = data :: rest ->
       run [Cancel g; Recv g; Quit g] s
       = Continue (mkState (sys_player s)
                     (<[ch := Chan.mk rest (Chan.cap c) (Chan.closed c)]> (heap s))
                     (sseClients s) (mu s)
                     (<[g := GSse r true (push_frame data w) (SseDeferLock ch)]>
                        (procs s))))
  ∧ (forall l s',
       run ([Cancel g; Quit g] ++ l) s = Continue s' ->
       exists d' pc',
         procs s' !! g = Some (GSse r d' w pc') ∧ leaving ch pc')
  ∧ (mu s = None ->
     exists s',
       run (sseHandler_closing g) s = Continue s'
       ∧ sseClients s' = sseClients s ∖ {[ch]}
       ∧ Chan.closed <$> heap s' !! ch = Some true
       ∧ (forall ch', ch' <> ch -> heap s' !! ch' = heap s !! ch')
       ∧ procs s' = <[g := GSse r true w (SseReturned ch)]> (procs s)
       ∧ mu s' = None
       ∧ forall g' status order,
           procs s' !! g' = None -> order ≡ₚ elements (sseClients s') ->
           exists s'',
             BroadcastStatus playerController json_Marshal g' status order s'
               = Continue s''
             ∧ heap s'' !! ch = heap s' !! ch).
Proof.
  intros Hr Hg. pose proof (reachable_Inv _ _ _ Hr) as HI.
  pose proof (inv_proc _ HI _ _ Hg) as [Hcl Hreg]. cbn in Hcl, Hreg.
  destruct (heap s !! ch) as [c|] eqn:Hc; [|done]. cbn in Hcl.
  injection Hcl as Hcl.
  assert (run [Cancel g; Quit g] s
          = Continue (set_proc g (GSse r true w (SseDeferLock ch)) s)) as Hquit.
  { cbn. rewrite Hg. cbn. rewrite lookup_insert_eq. cbn.
    unfold set_proc. cbn. by rewrite insert_insert_eq. }
  split; [|split; [|split; [|split; [|split]]]].
  - intros ->. cbn. by rewrite Hg.
  - cbn. by rewrite Hg.
  - exact Hquit.
  - intros c0 data rest [= <-] Hbuf. cbn. rewrite Hg. cbn.
    rewrite lookup_insert_eq. cbn. rewrite Hc. unfold Chan.recv.
    rewrite Hbuf. cbn. rewrite lookup_insert_eq. cbn.
    unfold set_proc. cbn. by rewrite !insert_insert_eq.
  - intros l s' Hrun. rewrite (run_app _ _ _ _ _ _ Hquit) in Hrun.
    eapply (leaving_run l); [|by left|exact Hrun].
    cbn. by rewrite lookup_insert_eq.
  - intros Hmu.
    pose proof (sseHandler_closing_runs playerController json_Marshal
                  s g r d w ch c Hg Hc Hcl Hmu) as Hrun.
    eexists. split; [exact Hrun|]. cbn.
    split; [done|]. split; [by rewrite lookup_insert_eq|].
    split; [by intros ch' Hne; rewrite lookup_insert_ne|].
    split; [done|]. split; [done|].
    intros g' status order Hg' Hperm.
    pose proof (run_reachable _ _ _ _ _ Hr Hrun) as Hr'.
    destruct (BroadcastStatus_runs playerController json_Marshal _ g' status
                order (reachable_Inv _ _ _ Hr') eq_refl Hg' Hperm)
      as (s'' & Hb & _ & _ & _ & _ & Hheap).
    exists s''. split; [exact Hb|].
    destruct (json_Marshal status); [|by rewrite Hheap].
    rewrite Hheap. cbn. rewrite decide_False; [done|]. set_solver.
Qed.

End Disconnect.

(* ===================================================================== *)
(** ** Counting the chunks of a connection                               *)
(* ===================================================================== *)

Lemma count_offers_insert_None (ch : nat) (m : gmap nat goroutine) (i : nat)
    (x' : goroutine) :
  m !! i = None ->
  count_offers ch (<[i := x']> m) = count_offers ch m + bit (may_offer ch x').
Proof.
  intros Hi. unfold count_offers. rewrite map_filter_insert. cbn.
  case_decide as Hx.
  - rewrite map_size_insert_None, Hx; [cbn; lia|].
    apply map_lookup_filter_None. by left.
  - rewrite delete_id by done. destruct (may_offer ch x'); [done|]. cbn. lia.
Qed.

Lemma count_offers_insert_Some (ch : nat) (m : gmap nat goroutine) (i : nat)
    (x x' : goroutine) :
  m !! i = Some x ->
  count_offers ch (<[i := x']> m) + bit (may_offer ch x)
  = count_offers ch m + bit (may_offer ch x').
Proof.
  intros Hi.
  rewrite <- (insert_delete_eq m i x').
  rewrite <- (insert_delete_id m i x Hi) at 2.
  rewrite !count_offers_insert_None by apply lookup_delete_eq. lia.
Qed.

Lemma chunks_push_frame (data : string) (w : RW.t) :
  length (RW.chunks (push_frame data w)) = S (length (RW.chunks w)).
Proof.
  destruct (push_frame_fields data w) as (Hp & Hf & _).
  unfold RW.chunks. rewrite Hp, Hf. rewrite !length_app. cbn. lia.
Qed.

Lemma chunks_Error (msg : string) (code : nat) (w : RW.t) :
  length (RW.chunks (RW.Error msg code w)) = S (length (RW.chunks w)).
Proof.
  unfold RW.chunks, RW.Error, RW.Write, RW.WriteHeader, RW.Header_Set. cbn.
  destruct (RW.status w); cbn; rewrite !length_app; cbn; lia.
Qed.

Lemma chunks_fresh (fl : bool) : RW.chunks (RW.fresh fl) = [].
Proof. done. Qed.

Lemma chunks_sse_headers (w : RW.t) :
  RW.chunks (sse_headers w) = RW.chunks w.
Proof. done. Qed.

Section FrameBound.

Context {P : Type}.
Variable playerController : PlayerController P.
Variable json_Marshal : PlayerStatus -> result string.

Local Abbreviation step := (step playerController json_Marshal).
Local Abbreviation run := (run playerController json_Marshal).
Local Abbreviation reachable := (reachable playerController json_Marshal).

#[local] Arguments RW.chunks : simpl never.
#[local] Arguments push_frame : simpl never.
#[local] Arguments RW.Error : simpl never.
#[local] Arguments sse_headers : simpl never.

Lemma bit_le (b : bool) : bit b <= 1.
Proof. destruct b; cbn; lia. Qed.

(** Rewrites the potential after a step that replaced the entry of one
    goroutine, and leaves the arithmetic to [lia]. *)
Ltac pot_generic Hg0 :=
  unfold potential, queued, owns_at_most in *; cbn in *;
  try match goal with
    | |- context [count_offers ?ch (<[?i := ?x']> ?m)] =>
        let Hcnt := fresh "Hcnt" in
        first [ pose proof (count_offers_insert_Some ch m i _ x' Hg0) as Hcnt
              | pose proof (count_offers_insert_None ch m i x' Hg0) as Hcnt ];
        cbn in Hcnt;
        repeat match type of Hcnt with
          | context [bit ?b] =>
              lazymatch goal with
              | _ : bit b <= 1 |- _ => fail
              | _ => pose proof (bit_le b)
              end
          end
    end;
  repeat match goal with
    | |- context [<[?i := _]> (procs _) !! ?j] =>
        rewrite (lookup_insert _ i j); destruct (decide (i = j)); simplify_eq
    | H : context [<[?i := _]> (procs _) !! ?j] |- _ =>
        rewrite (lookup_insert _ i j) in H; destruct (decide (i = j));
        simplify_eq
    end;
  rewrite ?Hg0; cbn;
  rewrite ?chunks_push_frame, ?chunks_Error, ?chunks_sse_headers,
    ?chunks_fresh;
  cbn [length]; try lia.

Lemma potential_step (a : action P) (s s' : state P) (g ch : nat) :
  Inv s -> step a s = Continue s' -> owns_at_most g ch s' ->
  potential g ch s' <= potential g ch s + publishes [a].
Proof.
  intros HI Hs Hown.
  destruct a as [g0 r fl|g0 st|g0|p'|g0|g0 ch0|g0|g0]; cbn in Hs.
  - destruct (procs s !! g0) eqn:Hg0; simplify_eq. pot_generic Hg0.
  - destruct (procs s !! g0) eqn:Hg0; simplify_eq. pot_generic Hg0.
  - destruct (procs s !! g0) as [[r0 d0 w0 pc0|]|] eqn:Hg0; simplify_eq.
    pot_generic Hg0.
  - simplify_eq. unfold potential, queued. cbn. lia.
  - destruct (procs s !! g0) as [[r0 d0 w0 pc0|st0 pc0]|] eqn:Hg0; [| |done].
    + destruct pc0 as [|ch1|ch1|ch1|ch1|ch1|ch1|ch1|ch1|ch1|ch1|ch1];
        try done; cbn in Hs.
      * (* make *)
        simplify_eq. pose proof (is_fresh (dom (heap s))) as Hf.
        apply not_elem_of_dom in Hf.
        assert (queued ch
                  (mkState (sys_player s)
                     (<[fresh (dom (heap s)) := Chan.make 1]> (heap s))
                     (sseClients s) (mu s)
                     (<[g0 := GSse r0 d0 (sse_headers w0)
                                (SseRegLock (fresh (dom (heap s))))]> (procs s)))
                = queued ch s) as Hq.
        { unfold queued. cbn. rewrite lookup_insert.
          case_decide; simplify_eq; [by rewrite Hf|done]. }
        unfold potential. rewrite Hq. clear Hq.
        unfold queued, owns_at_most in *. pot_generic Hg0.
      * break_step Hs; pot_generic Hg0.
      * break_step Hs; pot_generic Hg0.
      * break_step Hs; pot_generic Hg0.
      * break_step Hs; pot_generic Hg0.
      * break_step Hs; pot_generic Hg0.
      * break_step Hs; pot_generic Hg0.
      * break_step Hs; pot_generic Hg0.
      * break_step Hs; pot_generic Hg0.
      * (* close *)
        destruct (heap s !! ch1) as [c|] eqn:Hc; [|done].
        unfold Chan.close in Hs. destruct (Chan.closed c); simplify_eq.
        assert (queued ch
                  (mkState (sys_player s)
                     (<[ch1 := Chan.mk (Chan.buf c) (Chan.cap c) true]> (heap s))
                     (sseClients s) (mu s)
                     (<[g0 := GSse r0 d0 w0 (SseReturned ch1)]> (procs s)))
                = queued ch s) as Hq.
        { unfold queued. cbn. rewrite lookup_insert.
          case_decide; simplify_eq; [by rewrite Hc|done]. }
        unfold potential. rewrite Hq. clear Hq.
        unfold queued, owns_at_most in *. pot_generic Hg0.
    + destruct pc0; try done; cbn in Hs; break_step Hs; pot_generic Hg0.
  - (* one iteration of the range *)
    destruct (procs s !! g0) as [[r0 d0 w0 pc0|st0 pc0]|] eqn:Hg0; try done.
    destruct pc0 as [| |data todo| |]; try done. cbn in Hs.
    destruct (decide (ch0 ∈ todo)) as [Hin|]; [|done].
    pose proof (count_offers_insert_Some ch (procs s) g0 _
                  (GPub st0 (PubRange data (todo ∖ {[ch0]}))) Hg0) as Hcnt.
    cbn in Hcnt.
    assert (wire (<[g0 := GPub st0 (PubRange data (todo ∖ {[ch0]}))]> (procs s) !! g)
            + owed (<[g0 := GPub st0 (PubRange data (todo ∖ {[ch0]}))]> (procs s) !! g)
            = wire (procs s !! g) + owed (procs s !! g)) as Hloc.
    { rewrite lookup_insert. destruct (decide (g0 = g)) as [->|]; [|done].
      by rewrite Hg0. }
    assert (bit (bool_decide (ch ∈ todo ∖ {[ch0]}))
            + (if decide (ch0 = ch) then 1 else 0)
            = bit (bool_decide (ch ∈ todo))) as Hbits.
    { destruct (decide (ch0 = ch)) as [->|Hne].
      - rewrite bool_decide_eq_false_2 by set_solver.
        by rewrite bool_decide_eq_true_2.
      - destruct (decide (ch ∈ todo)).
        + rewrite !bool_decide_eq_true_2 by set_solver. cbn. lia.
        + rewrite !bool_decide_eq_false_2 by set_solver. cbn. lia. }
    destruct (decide (ch0 ∈ sseClients s)); cycle 1.
    { simplify_eq. unfold potential, queued, set_proc. cbn.
      rewrite Hloc. destruct (decide (ch0 = ch)); lia. }
    destruct (heap s !! ch0) as [c|] eqn:Hc; [|done].
    unfold Chan.offer in Hs. destruct (Chan.closed c); [done|].
    destruct (decide (length (Chan.buf c) < Chan.cap c)); simplify_eq.
    + unfold potential, queued. cbn. rewrite Hloc, lookup_insert.
      destruct (decide (ch0 = ch)) as [->|Hne].
      * rewrite Hc. cbn. rewrite length_app. cbn. lia.
      * lia.
    + unfold potential, queued, set_proc. cbn. rewrite Hloc.
      destruct (decide (ch0 = ch)); lia.
  - (* a receive in the relay loop *)
    destruct (procs s !! g0) as [[r0 d0 w0 pc0|st0 pc0]|] eqn:Hg0; try done.
    destruct pc0 as [|ch1|ch1|ch1|ch1|ch1|ch1|ch1|ch1|ch1|ch1|ch1];
      try done. cbn in Hs.
    destruct (heap s !! ch1) as [c|] eqn:Hc; [|done].
    destruct (Chan.recv c) as [[data c']|] eqn:Hrecv; simplify_eq.
    pose proof (count_offers_insert_Some ch (procs s) g0 _
                  (GSse r0 d0 (push_frame data w0) (SseLoop ch1)) Hg0) as Hcnt.
    cbn in Hcnt.
    pose proof (inv_proc _ HI _ _ Hg0) as [Hcl _]. cbn in Hcl.
    rewrite Hc in Hcl. cbn in Hcl. injection Hcl as Hcl.
    unfold Chan.recv in Hrecv. rewrite Hcl in Hrecv.
    destruct (Chan.buf c) as [|v rest] eqn:Hbuf; simplify_eq.
    unfold potential, queued, owns_at_most in *. cbn in *.
    rewrite lookup_insert in Hown. rewrite !lookup_insert.
    destruct (decide (g0 = g)) as [->|Hne].
    + cbn in Hown.
      assert (ch1 = ch) as -> by (destruct Hown as [?|?]; by simplify_eq).
      rewrite decide_True by done. rewrite Hg0, Hc, Hbuf. cbn.
      rewrite chunks_push_frame. lia.
    + destruct (decide (ch1 = ch)) as [->|Hne2].
      * rewrite Hc, Hbuf. cbn. lia.
      * lia.
  - destruct (procs s !! g0) as [[r0 d0 w0 pc0|st0 pc0]|] eqn:Hg0; try done.
    destruct pc0; try done; cbn in Hs. destruct d0; simplify_eq.
    pot_generic Hg0.
Qed.

Lemma owns_at_most_back (a : action P) (s s' : state P) (g ch : nat) :
  step a s = Continue s' -> owns_at_most g ch s' -> owns_at_most g ch s.
Proof.
  intros Hs Hown. unfold owns_at_most in *.
  destruct (procs s !! g) as [x|] eqn:Hx; [|done].
  destruct x as [r d w pc|st pc]; [|by left].
  destruct (step_sse_persist _ _ _ _ _ _ _ _ _ _ Hs Hx)
    as (d' & w' & pc' & Hx' & Hsucc).
  rewrite Hx' in Hown. destruct Hsucc; cbn in *; try done. by left.
Qed.

Lemma owns_at_most_back_run (l : list (action P)) (s s' : state P) (g ch : nat) :
  run l s = Continue s' -> owns_at_most g ch s' -> owns_at_most g ch s.
Proof.
  revert s. induction l as [|a l IH]; intros s; cbn.
  - by intros [= ->].
  - destruct (step a s) as [s1| |] eqn:Hs; try done. intros Hrun Hown.
    eapply owns_at_most_back; [done|]. by eapply IH.
Qed.

Lemma potential_run (l : list (action P)) (s s' : state P) (g ch : nat) :
  Inv s -> run l s = Continue s' -> owns_at_most g ch s' ->
  potential g ch s' <= potential g ch s + publishes l.
Proof.
  revert s. induction l as [|a l IH]; intros s HI Hrun Hown; cbn in Hrun.
  - injection Hrun as ->. cbn. lia.
  - destruct (step a s) as [s1| |] eqn:Hs; try done.
    pose proof (IH s1 (Inv_step _ _ _ _ _ HI Hs) Hrun Hown) as H1.
    pose proof (potential_step a s s1 g ch HI Hs
                  (owns_at_most_back_run _ _ _ _ _ Hrun Hown)) as H2.
    assert (publishes (a :: l) = publishes [a] + publishes l) as ->.
    { by destruct a. }
    lia.
Qed.

(** X17. However the system is scheduled from its start, a connection has
    been sent at most one chunk more than the number of
    [BroadcastStatus] calls started: the initial frame (or the refusal)
    and at most one frame for each publish. *)
Theorem frames_bounded_by_publishes (p : P) (l : list (action P))
    (s : state P) (g : nat) (r : Request) (d : bool) (w : RW.t) (pc : sse_pc) :
  run l (NewHTTPController p) = Continue s ->
  procs s !! g = Some (GSse r d w pc) ->
  length (RW.chunks w) <= 1 + publishes l.
Proof.
  intros Hrun Hg.
  set (ch := default 0 (chan_of (GSse r d w pc))).
  assert (owns_at_most g ch s) as Hown.
  { unfold owns_at_most. rewrite Hg. subst ch.
    destruct (chan_of (GSse r d w pc)); [by right|by left]. }
  pose proof (potential_run l _ s g ch (Inv_init p) Hrun Hown) as Hpot.
  unfold potential in Hpot. rewrite Hg in Hpot.
  assert (potential g ch (NewHTTPController p) = 1) as Hinit.
  { unfold potential, queued, count_offers. cbn.
    rewrite !lookup_empty, map_filter_empty, map_size_empty. done. }
  unfold potential in Hinit. rewrite Hinit in Hpot. cbn [wire] in Hpot. lia.
Qed.

End FrameBound.
(* ===================================================================== *)
(** ** More properties on the example schedules                          *)
(* ===================================================================== *)

Lemma channels_bounded_witness :
  exists c,
    heap (Demo.after Demo.two_listeners) !! 0 = Some c
    ∧ Chan.cap c = 1 ∧ length (Chan.buf c) <= 1.
Proof.
  assert (exists c, heap (Demo.after Demo.two_listeners) !! 0 = Some c)
    as [c Hc].
  { eexists. vm_compute. reflexivity. }
  exists c. split; [exact Hc|].
  apply (channels_bounded Demo.controller Demo.Marshal
           (Demo.after Demo.two_listeners) 0 c); [|exact Hc].
  apply (after_reachable Demo.two_listeners). vm_compute. reflexivity.
Defined.

Lemma registry_is_owned_witness :
  exists g r d w pc,
    procs (Demo.after Demo.two_listeners) !! g = Some (GSse r d w pc)
    ∧ registered_at pc 1.
Proof.
  destruct (registry_is_owned Demo.controller Demo.Marshal
              (Demo.after Demo.two_listeners) 1) as [[Hfwd _] _].
  - apply (after_reachable Demo.two_listeners). vm_compute. reflexivity.
  - apply Hfwd.
    apply (bool_decide_eq_true_1 (1 ∈ sseClients (Demo.after Demo.two_listeners))).
    vm_compute. reflexivity.
Defined.

Lemma registry_changes_under_mutex_witness :
  exists s',
    step Demo.controller Demo.Marshal (Visit 11 0) (Demo.after Demo.publishing)
      = Continue s'
    ∧ sseClients s' = sseClients (Demo.after Demo.publishing).
Proof.
  assert (exists s',
            step Demo.controller Demo.Marshal (Visit 11 0)
              (Demo.after Demo.publishing) = Continue s') as [s' Hs].
  { eexists. vm_compute. reflexivity. }
  assert (exists pc,
            procs (Demo.after Demo.publishing) !! 11
              = Some (GPub Demo.member pc)
            ∧ holds_mu (GPub Demo.member pc) = true) as (pc & Hp & Hh).
  { eexists. split; vm_compute; reflexivity. }
  exists s'. split; [exact Hs|].
  destruct (registry_changes_under_mutex Demo.controller Demo.Marshal
              (Visit 11 0) (Demo.after Demo.publishing) s') as [_ H].
  - apply (after_reachable Demo.publishing). vm_compute. reflexivity.
  - exact Hs.
  - exact (H 11 Demo.member pc Hp Hh).
Defined.

Lemma sse_response_headers_witness :
  exists w,
    procs (Demo.after Demo.closing) !! 2
      = Some (GSse Demo.events false w (SseDeferClose 2))
    ∧ RW.header w !! "Content-Type" = Some "text/plain; charset=utf-8"
    ∧ RW.header w !! "Cache-Control" = Some "no-cache".
Proof.
  assert (exists w,
            procs (Demo.after Demo.closing) !! 2
              = Some (GSse Demo.events false w (SseDeferClose 2))
            ∧ RW.status w = Some StatusInternalServerError) as (w & Hw & Hst).
  { eexists. split; vm_compute; reflexivity. }
  destruct (sse_response_headers Demo.controller Demo.Marshal
              (Demo.after Demo.closing) 2 Demo.events false w (SseDeferClose 2))
    as (Hcc & _ & _ & _ & H500).
  - apply (after_reachable Demo.closing). vm_compute. reflexivity.
  - exact Hw.
  - discriminate.
  - exists w. split; [exact Hw|]. split; [exact (proj1 (H500 Hst))|exact Hcc].
Defined.

Lemma disconnect_deregisters_witness :
  (exists s',
     run Demo.controller Demo.Marshal (sseHandler_closing 0)
       (Demo.after Demo.two_listeners) = Continue s'
     ∧ sseClients s' = sseClients (Demo.after Demo.two_listeners) ∖ {[0]}
     ∧ Chan.closed <$> heap s' !! 0 = Some true
     ∧ exists w, procs s' !! 0 = Some (GSse Demo.events true w (SseReturned 0))
                 ∧ length (RW.chunks w) = 1)
  ∧ exists s'' w,
      run Demo.controller Demo.Marshal [Cancel 0; Recv 0; Quit 0]
        (Demo.after Demo.two_listeners) = Continue s''
      ∧ procs s'' !! 0 = Some (GSse Demo.events true w (SseDeferLock 0))
      ∧ length (RW.chunks w) = 2.
Proof.
  assert (exists w,
            procs (Demo.after Demo.two_listeners) !! 0
              = Some (GSse Demo.events false w (SseLoop 0))
            ∧ length (RW.chunks w) = 1) as (w & Hw & Hlen).
  { eexists. split; vm_compute; reflexivity. }
  destruct (disconnect_deregisters Demo.controller Demo.Marshal
              (Demo.after Demo.two_listeners) 0 Demo.events false w 0)
    as (_ & _ & _ & Hrelay & _ & Hclose).
  - apply (after_reachable Demo.two_listeners). vm_compute. reflexivity.
  - exact Hw.
  - split.
    + destruct Hclose as (s' & Hrun & Hreg & Hcl & _ & Hp & _).
      { vm_compute. reflexivity. }
      exists s'. split; [exact Hrun|]. split; [exact Hreg|].
      split; [exact Hcl|]. exists w. rewrite Hp. split; [|exact Hlen].
      apply lookup_insert_eq.
    + eexists _, _. split.
      * apply (Hrelay (Chan.mk [bytes_of (Demo.Marshal Demo.guest)] 1 false)
                 (bytes_of (Demo.Marshal Demo.guest)) []);
          [vm_compute; reflexivity|reflexivity].
      * split; [apply lookup_insert_eq|].
        unfold RW.chunks.
        destruct (push_frame_fields (bytes_of (Demo.Marshal Demo.guest)) w)
          as (-> & -> & _).
        unfold RW.chunks in Hlen. rewrite !length_app. cbn.
        rewrite length_app in Hlen. lia.
Defined.

Lemma publish_reaches_listener_witness :
  exists s' w,
    run Demo.controller Demo.Marshal
      (BroadcastStatus_schedule Demo.Marshal 11 Demo.member
         (elements (sseClients (Demo.after Demo.two_listeners))) ++ [Recv 1])
      (Demo.after Demo.two_listeners) = Continue s'
    ∧ procs s' !! 1
      = Some (GSse Demo.events false
                (push_frame (bytes_of (Demo.Marshal Demo.member)) w) (SseLoop 1))
    ∧ RW.flushed (push_frame (bytes_of (Demo.Marshal Demo.member)) w)
      = RW.flushed w ++ [frame (bytes_of (Demo.Marshal Demo.member))].
Proof.
  assert (exists w,
            procs (Demo.after Demo.two_listeners) !! 1
              = Some (GSse Demo.events false w (SseLoop 1))) as [w Hw].
  { eexists. vm_compute. reflexivity. }
  destruct (publish_reaches_listener Demo.controller Demo.Marshal
              (Demo.after Demo.two_listeners) 1 11 Demo.events false w 1
              (Chan.make 1) Demo.member (bytes_of (Demo.Marshal Demo.member))
              (elements (sseClients (Demo.after Demo.two_listeners))))
    as (s' & Hrun & Hg & Hfl & _).
  - apply (after_reachable Demo.two_listeners). vm_compute. reflexivity.
  - exact Hw.
  - vm_compute. reflexivity.
  - reflexivity.
  - vm_compute. reflexivity.
  - vm_compute. reflexivity.
  - reflexivity.
  - reflexivity.
  - exists s', w. split; [exact Hrun|]. split; [exact Hg|exact Hfl].
Defined.

Lemma second_publish_dropped_witness :
  exists s',
    run Demo.controller Demo.Marshal
      (BroadcastStatus_schedule Demo.Marshal 11 Demo.member
         (elements (sseClients (Demo.after Demo.two_listeners)))
       ++ BroadcastStatus_schedule Demo.Marshal 12 Demo.guest
            (elements (sseClients (Demo.after Demo.two_listeners))))
      (Demo.after Demo.two_listeners) = Continue s'
    ∧ Chan.buf <$> heap s' !! 1 = Some [bytes_of (Demo.Marshal Demo.member)].
Proof.
  destruct (second_publish_dropped Demo.controller Demo.Marshal
              (Demo.after Demo.two_listeners) 11 12 1 (Chan.make 1)
              Demo.member Demo.guest
              (bytes_of (Demo.Marshal Demo.member))
              (bytes_of (Demo.Marshal Demo.guest))
              (elements (sseClients (Demo.after Demo.two_listeners)))
              (elements (sseClients (Demo.after Demo.two_listeners))))
    as (s' & Hrun & Hbuf & _).
  - apply (after_reachable Demo.two_listeners). vm_compute. reflexivity.
  - apply (bool_decide_eq_true_1 (1 ∈ sseClients (Demo.after Demo.two_listeners))).
    vm_compute. reflexivity.
  - vm_compute. reflexivity.
  - reflexivity.
  - vm_compute. reflexivity.
  - vm_compute. reflexivity.
  - vm_compute. reflexivity.
  - discriminate.
  - reflexivity.
  - reflexivity.
  - reflexivity.
  - reflexivity.
  - exists s'. split; [exact Hrun|exact Hbuf].
Defined.

Lemma critical_sections_exclusive_witness :
  mu (Demo.after Demo.publishing) = Some 11
  <-> exists x, procs (Demo.after Demo.publishing) !! 11 = Some x
                ∧ holds_mu x = true.
Proof.
  destruct (critical_sections_exclusive Demo.controller Demo.Marshal
              (Demo.after Demo.publishing)) as [_ H].
  - apply (after_reachable Demo.publishing). vm_compute. reflexivity.
  - exact (H 11).
Defined.

Lemma refused_connection_cleans_up_witness :
  exists s',
    run Demo.controller Demo.Marshal (sseHandler_refusal 5 Demo.events)
      (Demo.after Demo.two_listeners) = Continue s'
    ∧ sseClients s' = sseClients (Demo.after Demo.two_listeners)
    ∧ mu s' = None.
Proof.
  destruct (refused_connection_cleans_up Demo.controller Demo.Marshal
              (Demo.after Demo.two_listeners) 5 Demo.events)
    as (s' & w & ch & Hrun & _ & _ & _ & _ & _ & Hreg & Hmu & _).
  - apply (after_reachable Demo.two_listeners). vm_compute. reflexivity.
  - vm_compute. reflexivity.
  - vm_compute. reflexivity.
  - exists s'. split; [exact Hrun|]. split; [exact Hreg|exact Hmu].
Defined.

Lemma returned_channel_stays_out_witness :
  exists s',
    run Demo.controller Demo.Marshal
      [Publish 12 Demo.member; Step 12; Step 12; Visit 12 1; Visit 12 0]
      (Demo.after (Demo.closing ++ [Step 2])) = Continue s'
    ∧ (2 ∉ sseClients s')
    ∧ Chan.closed <$> heap s' !! 2 = Some true.
Proof.
  assert (exists s',
            run Demo.controller Demo.Marshal
              [Publish 12 Demo.member; Step 12; Step 12; Visit 12 1; Visit 12 0]
              (Demo.after (Demo.closing ++ [Step 2])) = Continue s')
    as [s' Hrun].
  { eexists. vm_compute. reflexivity. }
  assert (exists w,
            procs (Demo.after (Demo.closing ++ [Step 2])) !! 2
              = Some (GSse Demo.events false w (SseReturned 2))) as [w Hw].
  { eexists. vm_compute. reflexivity. }
  destruct (returned_channel_stays_out Demo.controller Demo.Marshal
              (Demo.after (Demo.closing ++ [Step 2])) 2 Demo.events false w 2
              [Publish 12 Demo.member; Step 12; Step 12; Visit 12 1; Visit 12 0]
              s')
    as (Hout & Hcl & _).
  - apply (after_reachable (Demo.closing ++ [Step 2])). vm_compute. reflexivity.
  - exact Hw.
  - exact Hrun.
  - exists s'. split; [exact Hrun|]. split; [exact Hout|exact Hcl].
Defined.

Lemma relayed_frames_were_published_witness :
  exists g' status data,
    Publish g' status ∈ Demo.two_listeners ++ [Recv 0]
    ∧ Demo.Marshal status = Ok data
    ∧ frame (bytes_of (Demo.Marshal Demo.guest)) = frame data.
Proof.
  assert (exists w,
            procs (Demo.after (Demo.two_listeners ++ [Recv 0])) !! 0
              = Some (GSse Demo.events false w (SseLoop 0))
            ∧ frame (bytes_of (Demo.Marshal Demo.guest))
              ∈ drop 1 (RW.chunks w)) as (w & Hw & Hx).
  { eexists. split; [vm_compute; reflexivity|]. cbn. apply elem_of_cons.
    left. reflexivity. }
  apply (relayed_frames_were_published Demo.controller Demo.Marshal Demo.guest
           (Demo.two_listeners ++ [Recv 0])
           (Demo.after (Demo.two_listeners ++ [Recv 0]))
           0 Demo.events false w (SseLoop 0)).
  - vm_compute. reflexivity.
  - exact Hw.
  - exact Hx.
Defined.

Lemma frames_bounded_by_publishes_witness :
  exists w,
    procs (Demo.after (Demo.two_listeners ++ [Recv 0])) !! 0
      = Some (GSse Demo.events false w (SseLoop 0))
    ∧ length (RW.chunks w) = 2
    ∧ length (RW.chunks w) <= 1 + publishes (Demo.two_listeners ++ [Recv 0]).
Proof.
  assert (exists w,
            procs (Demo.after (Demo.two_listeners ++ [Recv 0])) !! 0
              = Some (GSse Demo.events false w (SseLoop 0))
            ∧ length (RW.chunks w) = 2) as (w & Hw & Hlen).
  { eexists. split; vm_compute; reflexivity. }
  exists w. split; [exact Hw|]. split; [exact Hlen|].
  apply (frames_bounded_by_publishes Demo.controller Demo.Marshal Demo.guest
           (Demo.two_listeners ++ [Recv 0])
           (Demo.after (Demo.two_listeners ++ [Recv 0]))
           0 Demo.events false w (SseLoop 0)).
  - vm_compute. reflexivity.
  - exact Hw.
Defined.
